(** * ArchitectureDeck: the asynchronous job pipeline

    A shallow embedding of the queue / worker / status modules of the
    repository and the properties of its specification:

    - [src/lib/redis.ts]            job status in the Status Cache
    - [src/lib/queue.ts]            enqueue helpers
    - [src/worker/index.ts]         the two worker handlers
    - [src/worker/renderer.ts]      [renderMermaidToSvg]
    - [src/worker/generator.ts]     [generateDesign] and its fallback
    - [src/server/routers/jobs.ts]  [getStatus]
    - [src/server/routers/designs.ts] [refineDesign]
    - [prisma/migrations]           the tables and their constraints

    Asynchronous code is modelled as a program tree ([Prog]): every [await]
    on a store, the cache, the queue or the AI provider is one [Call] node,
    [try]/[catch] is a [Try] node.  Programs are run against a [World] holding
    the database tables, the Redis keys, the queues and the oracles of the
    environment (provider answers, infrastructure failures), either to
    completion ([run]) or one atomic operation at a time, interleaved with
    other handlers ([run_schedule]). *)

From Stdlib Require Import ZArith String Ascii List Bool Lia.
From stdpp Require Import gmap strings list fin_maps.
Import ListNotations.
Set Warnings "-register-all".
Open Scope string_scope.
Open Scope Z_scope.

(* ===================================================================== *)
(** * JavaScript values used by the code *)
(* ===================================================================== *)

Module Js.

(** Strings are byte strings holding the UTF-8 encoding of the JavaScript
    string.  The tests made by the code ([includes] of an ASCII keyword,
    [split] at a line feed, [trim]) give the same answer on the UTF-8 bytes
    as on the UTF-16 code units. *)

Definition bytes (l : list nat) : string :=
  string_of_list_ascii (map ascii_of_nat l).

Definition LF : string := bytes [10%nat].
Definition DQ : string := bytes [34%nat].

(** [String.prototype.includes] *)
Fixpoint includes (s sub : string) : bool :=
  String.prefix sub s ||
  match s with
  | EmptyString => false
  | String _ r => includes r sub
  end.

(** [String.prototype.toLowerCase], on the ASCII letters.  The keywords the
    code searches for after lowering are ASCII and no other character lowers
    to one of their letters in a way that completes a keyword. *)
Definition lower_ascii (c : ascii) : ascii :=
  let n := nat_of_ascii c in
  if (65 <=? n)%nat && (n <=? 90)%nat then ascii_of_nat (n + 32) else c.

Fixpoint toLowerCase (s : string) : string :=
  match s with
  | EmptyString => EmptyString
  | String c r => String (lower_ascii c) (toLowerCase r)
  end.

(** The white space and line terminators removed by [String.prototype.trim],
    as UTF-8 byte sequences: TAB, LF, VT, FF, CR, SP, U+00A0, U+1680,
    U+2000..U+200A, U+2028, U+2029, U+202F, U+205F, U+3000, U+FEFF. *)
Definition white_space : list (list nat) :=
  [ [9]; [10]; [11]; [12]; [13]; [32]; [194; 160]; [225; 154; 128];
    [226; 128; 128]; [226; 128; 129]; [226; 128; 130]; [226; 128; 131];
    [226; 128; 132]; [226; 128; 133]; [226; 128; 134]; [226; 128; 135];
    [226; 128; 136]; [226; 128; 137]; [226; 128; 138]; [226; 128; 168];
    [226; 128; 169]; [226; 128; 175]; [226; 129; 159]; [227; 128; 128];
    [239; 187; 191] ]%nat.

Fixpoint strip_prefix (p l : list nat) : option (list nat) :=
  match p, l with
  | [], _ => Some l
  | a :: p', b :: l' => if (a =? b)%nat then strip_prefix p' l' else None
  | _ :: _, [] => None
  end.

Fixpoint strip_any (ps : list (list nat)) (l : list nat) : option (list nat) :=
  match ps with
  | [] => None
  | p :: ps' =>
      match strip_prefix p l with
      | Some r => Some r
      | None => strip_any ps' l
      end
  end.

Fixpoint strip_all (fuel : nat) (ps : list (list nat)) (l : list nat) : list nat :=
  match fuel with
  | O => l
  | S fuel' =>
      match strip_any ps l with
      | Some r => strip_all fuel' ps r
      | None => l
      end
  end.

Definition trim_bytes (l : list nat) : list nat :=
  let front := strip_all (length l) white_space l in
  rev (strip_all (length front) (map (@rev nat) white_space) (rev front)).

(** [String.prototype.trim] *)
Definition trim (s : string) : string :=
  bytes (trim_bytes (map nat_of_ascii (list_ascii_of_string s))).

(** [s.split("\n")[0]]: the text before the first line feed. *)
Fixpoint first_line (s : string) : string :=
  match s with
  | EmptyString => EmptyString
  | String c r => if (nat_of_ascii c =? 10)%nat then EmptyString else String c (first_line r)
  end.

(** [Number.prototype.toString] on an integer. *)
Fixpoint digits_of (fuel : nat) (n : Z) (acc : string) : string :=
  match fuel with
  | O => acc
  | S fuel' =>
      let acc' := String (ascii_of_nat (48 + Z.to_nat (n mod 10))) acc in
      if n <? 10 then acc' else digits_of fuel' (n / 10) acc'
  end.

Definition toString (n : Z) : string :=
  if n <? 0 then "-" ++ digits_of (S (Z.to_nat (Z.log2 (- n)))) (- n) ""
  else digits_of (S (Z.to_nat (Z.log2 n))) n "".

(** [parseInt(s)] (radix 10, which is what the code's inputs select): leading
    white space, an optional sign, then the longest run of digits; [None] is
    [NaN]. *)
Fixpoint parse_digits (s : string) (acc : option Z) : option Z :=
  match s with
  | EmptyString => acc
  | String c r =>
      let n := nat_of_ascii c in
      if (48 <=? n)%nat && (n <=? 57)%nat
      then parse_digits r (Some (10 * default 0 acc + Z.of_nat (n - 48)))
      else acc
  end.

Definition parseInt (s : string) : option Z :=
  let l := map nat_of_ascii (list_ascii_of_string s) in
  match bytes (strip_all (length l) white_space l) with
  | String "-" r => Z.opp <$> parse_digits r None
  | String "+" r => parse_digits r None
  | r => parse_digits r None
  end.

(** JSON values, as produced by [JSON.parse] and stored in JSONB columns.
    Numbers are kept as integers: the code only tests them for truthiness.
    An object is the list of its members in source order. *)
Inductive json : Type :=
| JNull
| JBool (b : bool)
| JNum (n : Z)
| JStr (s : string)
| JArr (items : list json)
| JObj (members : list (string * json)).

(** A JavaScript value that may be [undefined]. *)
Abbreviation value := (option json).

(** Truthiness of a possibly undefined value. *)
Definition truthy (v : value) : bool :=
  match v with
  | None | Some JNull | Some (JBool false) => false
  | Some (JNum n) => negb (n =? 0)
  | Some (JStr s) => negb (String.eqb s "")
  | Some _ => true
  end.

(** Truthiness of an optional string ([!!refinementPrompt], [!content]). *)
Definition truthy_str (s : option string) : bool :=
  match s with
  | Some s => negb (String.eqb s "")
  | None => false
  end.

(** Later members win, as in [JSON.parse] on a repeated key. *)
Fixpoint assoc (k : string) (ms : list (string * json)) : value :=
  match ms with
  | [] => None
  | (k', v) :: ms' =>
      match assoc k ms' with
      | Some v' => Some v'
      | None => if String.eqb k k' then Some v else None
      end
  end.

(** What a JavaScript program can throw and the handlers of this code can
    tell apart: an [Error] (with its message), a [TRPCError], which is an
    [Error] with a code, or a value that is not an [Error]. *)
Inductive Exn : Type :=
| Error (message : string)
| TRPCError (code message : string)
| Thrown (v : json).

(** [error instanceof Error ? error.message : fallback] *)
Definition message_or (fallback : string) (e : Exn) : string :=
  match e with
  | Error m | TRPCError _ m => m
  | Thrown _ => fallback
  end.

(** Member access [v.k]: a [TypeError] on [undefined] and [null]; [length] is
    defined on strings and arrays. *)
Definition member (v : value) (k : string) : Exn + value :=
  match v with
  | None => inl (Error ("Cannot read properties of undefined (reading '" ++ k ++ "')"))
  | Some JNull => inl (Error ("Cannot read properties of null (reading '" ++ k ++ "')"))
  | Some (JObj ms) => inr (assoc k ms)
  | Some (JArr l) =>
      inr (if String.eqb k "length" then Some (JNum (Z.of_nat (length l))) else None)
  | Some (JStr s) =>
      inr (if String.eqb k "length" then Some (JNum (Z.of_nat (String.length s))) else None)
  | Some _ => inr None
  end.

(** [String(v)] for the elements of an array being joined. *)
Fixpoint to_text (v : json) : string :=
  match v with
  | JNull => ""
  | JBool true => "true"
  | JBool false => "false"
  | JNum n => toString n
  | JStr s => s
  | JArr l =>
      (fix join (l : list json) : string :=
         match l with
         | [] => ""
         | [x] => to_text x
         | x :: r => to_text x ++ "," ++ join r
         end) l
  | JObj _ => "[object Object]"
  end.

Definition is_array (v : value) : bool :=
  match v with Some (JArr _) => true | _ => false end.

End Js.
Import Js.

(** Synchronous code that may throw: a result or the exception. *)
#[global] Instance Exn_bind : MBind (sum Exn) := fun A B f r =>
  match r with
  | inl e => inl e
  | inr a => f a
  end.
#[global] Instance Exn_ret : MRet (sum Exn) := fun A a => inr a.

Definition throw {A : Type} (e : Exn) : Exn + A := inl e.

(* ===================================================================== *)
(** * The schema ([prisma/migrations]) *)
(* ===================================================================== *)

Inductive JobStatus := PENDING | PROCESSING | COMPLETED | FAILED.
Inductive JobType := GENERATE_DESIGN | RENDER_DIAGRAM.
Inductive InputType := PROMPT | REPO_URL.
Inductive ScaleProfile := PROTOTYPE | DAU_1K | DAU_1M.
Inductive DetailLevel := OVERVIEW | STANDARD | DETAILED.

(** The enum values are the strings the TypeScript code compares and stores. *)
Definition status_text (s : JobStatus) : string :=
  match s with
  | PENDING => "PENDING"
  | PROCESSING => "PROCESSING"
  | COMPLETED => "COMPLETED"
  | FAILED => "FAILED"
  end.

Record Constraints := {
  mustUse : option (list string);
  avoid : option (list string);
  preferredLanguage : option string }.

(** [Omit<GenerateDesignJobData, "jobId">], with the optional members the
    routers and the worker use. *)
Record DesignPayload := {
  designRequestId : string;
  inputType : InputType;
  promptText : option string;
  repoUrl : option string;
  constraints : Constraints;
  scaleProfile : ScaleProfile;
  detailLevel : option DetailLevel;
  suggestions : option (list string);
  refinementPrompt : option string;
  existingDesign : value }.

(** [{ ...data, jobId }] *)
Record GenerateDesignJobData := {
  jobId : string;
  data : DesignPayload }.

Record DiagramPayload := {
  r_designRequestId : string;
  r_mermaidSource : string }.

Record RenderDiagramJobData := {
  r_jobId : string;
  r_data : DiagramPayload }.

Inductive JobPayload :=
| DesignMeta (d : DesignPayload)
| DiagramMeta (d : DiagramPayload).

(** Table [jobs]. *)
Record JobRow := {
  job_id : string;
  job_type : JobType;
  job_status : JobStatus;
  job_progress : Z;
  job_designRequestId : string;
  job_metadata : JobPayload;
  job_error : option string;
  job_createdAt : Z;
  job_updatedAt : Z;
  job_startedAt : option Z;
  job_completedAt : option Z }.

(** Table [design_versions]. *)
Record DesignVersionRow := {
  dv_id : string;
  dv_version : Z;
  dv_designRequestId : string;
  dv_designData : json;
  dv_createdAt : Z }.

(** Table [diagram_versions]. *)
Record DiagramVersionRow := {
  gv_id : string;
  gv_version : Z;
  gv_designRequestId : string;
  gv_designVersionId : option string;
  gv_mermaidSource : string;
  gv_svgContent : option string;
  gv_createdAt : Z }.

(** Table [design_requests]. *)
Record DesignRequestRow := {
  rq_id : string;
  rq_title : string;
  rq_inputType : InputType;
  rq_promptText : option string;
  rq_repoUrl : option string;
  rq_scaleProfile : ScaleProfile;
  rq_detailLevel : DetailLevel;
  rq_constraints : Constraints;
  rq_projectId : string;
  rq_userId : string }.

(** Table [projects]. *)
Record ProjectRow := {
  pj_id : string;
  pj_name : string;
  pj_userId : string;
  pj_isTemplate : bool }.

(** The data of a [db.job.update]: the columns it sets.  [new Date()] is
    taken when the statement runs. *)
Record JobPatch := {
  set_status : option JobStatus;
  set_progress : option Z;
  set_error : option string;
  set_startedAt : bool;
  set_completedAt : bool }.

(** What the chat completion answered: [choices[0]?.message?.content] and
    what [JSON.parse] makes of it (a [SyntaxError] or a value). *)
Record Answer := {
  content : option string;
  parsed : Exn + json }.

(* ===================================================================== *)
(** * The world the code runs in *)
(* ===================================================================== *)

(** The operations the code awaits.  Each is atomic. *)
Inductive op : Type -> Type :=
(* ioredis *)
| RedisHset (key : string) (fields : list (string * string)) (stamp : list string) : op unit
    (* the fields named in [stamp] hold [Date.now().toString()] *)
| RedisExpire (key : string) (seconds : Z) : op unit
| RedisHgetall (key : string) : op (gmap string string)
| RedisQuit : op unit
(* Prisma *)
| JobCreate (type : JobType) (status : JobStatus) (rid : string) (metadata : JobPayload) : op JobRow
| JobUpdate (id : string) (patch : JobPatch) : op JobRow
| JobFindFirst (id : string) : op (option (JobRow * option DesignRequestRow))
| DesignRequestFindFirst (id userId : string) :
    op (option (DesignRequestRow * option ProjectRow * option DesignVersionRow))
| DesignVersionFindFirst (rid : string) : op (option DesignVersionRow)
| DesignVersionCreate (rid : string) (version : Z) (designData : json) : op DesignVersionRow
| DiagramVersionFindFirst (rid : string) : op (option DiagramVersionRow)
| DiagramVersionCreate (rid : string) (designVersionId : option string) (version : Z)
    (mermaidSource : json) (svgContent : option string) : op DiagramVersionRow
(* BullMQ *)
| DesignQueueAdd (name : string) (d : GenerateDesignJobData) : op unit
| DiagramQueueAdd (name : string) (d : RenderDiagramJobData) : op unit
(* OpenAI *)
| OpenAIChat : op Answer.

(** One line of the log of operations: completed, or raised. *)
Inductive entry : Type :=
| Did {X : Type} (o : op X)
| Raised {X : Type} (o : op X) (e : Exn).

Record World := mkWorld {
  jobs : gmap string JobRow;
  design_requests : gmap string DesignRequestRow;
  projects : gmap string ProjectRow;
  design_versions : list DesignVersionRow;     (* in insertion order *)
  diagram_versions : list DiagramVersionRow;   (* in insertion order *)
  cache : gmap string (gmap string string);    (* Redis hashes *)
  ttl : gmap string Z;                         (* Redis expiry, seconds *)
  designQueue : list (string * GenerateDesignJobData);
  diagramQueue : list (string * RenderDiagramJobData);
  openai : list Answer;            (* the provider's next answers *)
  faults : list (option Exn);      (* infrastructure failures of the next operations *)
  seed : nat;                      (* source of generated ids *)
  now : Z;                         (* the clock *)
  trace : list entry }.            (* the operations so far *)

Definition with_jobs (f : gmap string JobRow -> gmap string JobRow) (w : World) : World :=
  mkWorld (f (jobs w)) (design_requests w) (projects w) (design_versions w)
    (diagram_versions w) (cache w) (ttl w) (designQueue w) (diagramQueue w)
    (openai w) (faults w) (seed w) (now w) (trace w).

Definition with_design_versions (f : list DesignVersionRow -> list DesignVersionRow)
    (w : World) : World :=
  mkWorld (jobs w) (design_requests w) (projects w) (f (design_versions w))
    (diagram_versions w) (cache w) (ttl w) (designQueue w) (diagramQueue w)
    (openai w) (faults w) (seed w) (now w) (trace w).

Definition with_diagram_versions (f : list DiagramVersionRow -> list DiagramVersionRow)
    (w : World) : World :=
  mkWorld (jobs w) (design_requests w) (projects w) (design_versions w)
    (f (diagram_versions w)) (cache w) (ttl w) (designQueue w) (diagramQueue w)
    (openai w) (faults w) (seed w) (now w) (trace w).

Definition with_cache (f : gmap string (gmap string string) -> gmap string (gmap string string))
    (w : World) : World :=
  mkWorld (jobs w) (design_requests w) (projects w) (design_versions w)
    (diagram_versions w) (f (cache w)) (ttl w) (designQueue w) (diagramQueue w)
    (openai w) (faults w) (seed w) (now w) (trace w).

Definition with_ttl (f : gmap string Z -> gmap string Z) (w : World) : World :=
  mkWorld (jobs w) (design_requests w) (projects w) (design_versions w)
    (diagram_versions w) (cache w) (f (ttl w)) (designQueue w) (diagramQueue w)
    (openai w) (faults w) (seed w) (now w) (trace w).

Definition with_designQueue
    (f : list (string * GenerateDesignJobData) -> list (string * GenerateDesignJobData))
    (w : World) : World :=
  mkWorld (jobs w) (design_requests w) (projects w) (design_versions w)
    (diagram_versions w) (cache w) (ttl w) (f (designQueue w)) (diagramQueue w)
    (openai w) (faults w) (seed w) (now w) (trace w).

Definition with_diagramQueue
    (f : list (string * RenderDiagramJobData) -> list (string * RenderDiagramJobData))
    (w : World) : World :=
  mkWorld (jobs w) (design_requests w) (projects w) (design_versions w)
    (diagram_versions w) (cache w) (ttl w) (designQueue w) (f (diagramQueue w))
    (openai w) (faults w) (seed w) (now w) (trace w).

Definition with_openai (f : list Answer -> list Answer) (w : World) : World :=
  mkWorld (jobs w) (design_requests w) (projects w) (design_versions w)
    (diagram_versions w) (cache w) (ttl w) (designQueue w) (diagramQueue w)
    (f (openai w)) (faults w) (seed w) (now w) (trace w).

Definition with_faults (f : list (option Exn) -> list (option Exn)) (w : World) : World :=
  mkWorld (jobs w) (design_requests w) (projects w) (design_versions w)
    (diagram_versions w) (cache w) (ttl w) (designQueue w) (diagramQueue w)
    (openai w) (f (faults w)) (seed w) (now w) (trace w).

Definition with_seed (f : nat -> nat) (w : World) : World :=
  mkWorld (jobs w) (design_requests w) (projects w) (design_versions w)
    (diagram_versions w) (cache w) (ttl w) (designQueue w) (diagramQueue w)
    (openai w) (faults w) (f (seed w)) (now w) (trace w).

(** Every operation takes one tick of the clock and one line of the log. *)
Definition logged (e : entry) (w : World) : World :=
  mkWorld (jobs w) (design_requests w) (projects w) (design_versions w)
    (diagram_versions w) (cache w) (ttl w) (designQueue w) (diagramQueue w)
    (openai w) (faults w) (seed w) (now w + 1) (trace w ++ [e])%list.

(** Generated primary keys ([@default(cuid())]): one per insert, from the
    world's seed. *)
Definition cuid (n : nat) : string := "c" ++ toString (Z.of_nat n).

(** [findFirst({ orderBy: { version: "desc" } })] *)
Fixpoint latest {A : Type} (ver : A -> Z) (l : list A) : option A :=
  match l with
  | [] => None
  | x :: r =>
      match latest ver r with
      | Some y => if ver x <? ver y then Some y else Some x
      | None => Some x
      end
  end.

Definition design_versions_of (rid : string) (w : World) : list DesignVersionRow :=
  filter (fun r => dv_designRequestId r = rid) (design_versions w).

Definition diagram_versions_of (rid : string) (w : World) : list DiagramVersionRow :=
  filter (fun r => gv_designRequestId r = rid) (diagram_versions w).

Definition P2002 (target : string) : Exn :=
  Error ("Unique constraint failed on the fields: (" ++ target ++ ")").
Definition P2003 (target : string) : Exn :=
  Error ("Foreign key constraint violated: " ++ target).
Definition P2025 : Exn :=
  Error "Record to update not found.".

Definition apply_patch (p : JobPatch) (t : Z) (j : JobRow) : JobRow :=
  {| job_id := job_id j;
     job_type := job_type j;
     job_status := default (job_status j) (set_status p);
     job_progress := default (job_progress j) (set_progress p);
     job_designRequestId := job_designRequestId j;
     job_metadata := job_metadata j;
     job_error := match set_error p with Some e => Some e | None => job_error j end;
     job_createdAt := job_createdAt j;
     job_updatedAt := t;
     job_startedAt := if set_startedAt p then Some t else job_startedAt j;
     job_completedAt := if set_completedAt p then Some t else job_completedAt j |}.

Definition hset_fields (fields : list (string * string)) (stamp : list string) (t : Z)
    (h : gmap string string) : gmap string string :=
  foldl (fun h k => <[k := toString t]> h) (foldl (fun h kv => <[kv.1 := kv.2]> h) h fields) stamp.

(** The effect of an operation that the infrastructure lets through. *)
Definition perform {X : Type} (o : op X) (w : World) : (Exn + X) * World :=
  match o in op X return (Exn + X) * World with
  | RedisHset key fields stamp =>
      (inr tt,
       with_cache (fun c => <[key := hset_fields fields stamp (now w) (default ∅ (c !! key))]> c) w)
  | RedisExpire key seconds =>
      (inr tt,
       match cache w !! key with
       | Some _ => with_ttl (fun t => <[key := seconds]> t) w
       | None => w
       end)
  | RedisHgetall key => (inr (default ∅ (cache w !! key)), w)
  | RedisQuit => (inr tt, w)
  | JobCreate type status rid metadata =>
      let id := cuid (seed w) in
      let w1 := with_seed S w in
      match design_requests w !! rid, jobs w !! id with
      | None, _ => (inl (P2003 "`jobs_design_request_id_fkey (index)`"), w1)
      | Some _, Some _ => (inl (P2002 "`id`"), w1)
      | Some _, None =>
          let row := {| job_id := id; job_type := type; job_status := status;
                        job_progress := 0; job_designRequestId := rid;
                        job_metadata := metadata; job_error := None;
                        job_createdAt := now w; job_updatedAt := now w;
                        job_startedAt := None; job_completedAt := None |} in
          (inr row, with_jobs (fun t => <[id := row]> t) w1)
      end
  | JobUpdate id patch =>
      match jobs w !! id with
      | None => (inl P2025, w)
      | Some j =>
          let row := apply_patch patch (now w) j in
          (inr row, with_jobs (fun t => <[id := row]> t) w)
      end
  | JobFindFirst id =>
      (inr (match jobs w !! id with
            | Some j => Some (j, design_requests w !! job_designRequestId j)
            | None => None
            end), w)
  | DesignRequestFindFirst id userId =>
      (inr (match design_requests w !! id with
            | Some r =>
                if String.eqb (rq_userId r) userId
                then Some (r, projects w !! rq_projectId r,
                           latest dv_version (design_versions_of id w))
                else None
            | None => None
            end), w)
  | DesignVersionFindFirst rid => (inr (latest dv_version (design_versions_of rid w)), w)
  | DesignVersionCreate rid version designData =>
      let id := cuid (seed w) in
      let w1 := with_seed S w in
      if bool_decide (design_requests w !! rid = None)
      then (inl (P2003 "`design_versions_design_request_id_fkey (index)`"), w1)
      else if existsb (fun r => String.eqb (dv_id r) id) (design_versions w)
      then (inl (P2002 "`id`"), w1)
      else if existsb (fun r => String.eqb (dv_designRequestId r) rid && (dv_version r =? version))
                (design_versions w)
      then (inl (P2002 "`design_request_id`,`version`"), w1)
      else
        let row := {| dv_id := id; dv_version := version; dv_designRequestId := rid;
                      dv_designData := designData; dv_createdAt := now w |} in
        (inr row, with_design_versions (fun t => (t ++ [row])%list) w1)
  | DiagramVersionCreate rid designVersionId version mermaidSource svgContent =>
      match mermaidSource with
      | JStr source =>
          let id := cuid (seed w) in
          let w1 := with_seed S w in
          if bool_decide (design_requests w !! rid = None)
          then (inl (P2003 "`diagram_versions_design_request_id_fkey (index)`"), w1)
          else if match designVersionId with
                  | Some d => negb (existsb (fun r => String.eqb (dv_id r) d) (design_versions w))
                  | None => false
                  end
          then (inl (P2003 "`diagram_versions_design_version_id_fkey (index)`"), w1)
          else if existsb (fun r => String.eqb (gv_id r) id) (diagram_versions w)
          then (inl (P2002 "`id`"), w1)
          else if existsb (fun r => String.eqb (gv_designRequestId r) rid && (gv_version r =? version))
                    (diagram_versions w)
          then (inl (P2002 "`design_request_id`,`version`"), w1)
          else
            let row := {| gv_id := id; gv_version := version; gv_designRequestId := rid;
                          gv_designVersionId := designVersionId; gv_mermaidSource := source;
                          gv_svgContent := svgContent; gv_createdAt := now w |} in
            (inr row, with_diagram_versions (fun t => (t ++ [row])%list) w1)
      | _ =>
          (inl (Error "Argument `mermaidSource`: Invalid value provided. Expected String."), w)
      end
  | DiagramVersionFindFirst rid => (inr (latest gv_version (diagram_versions_of rid w)), w)
  | DesignQueueAdd name d => (inr tt, with_designQueue (fun q => (q ++ [(name, d)])%list) w)
  | DiagramQueueAdd name d => (inr tt, with_diagramQueue (fun q => (q ++ [(name, d)])%list) w)
  | OpenAIChat =>
      match openai w with
      | a :: rest => (inr a, with_openai (fun _ => rest) w)
      | [] => (inl (Error "Connection error."), w)
      end
  end.

Definition outcome {X : Type} (o : op X) (r : Exn + X) : entry :=
  match r with
  | inl e => Raised o e
  | inr _ => Did o
  end.

(** An operation first meets the infrastructure: the next entry of [faults]
    is consumed and, when it holds an exception, makes the operation raise it
    and have no effect. *)
Definition exec {X : Type} (o : op X) (w : World) : (Exn + X) * World :=
  let w0 := with_faults (drop 1) w in
  match faults w with
  | Some e :: _ => (inl e, logged (Raised o e) w0)
  | _ => let '(r, w1) := perform o w0 in (r, logged (outcome o r) w1)
  end.

(* ===================================================================== *)
(** * Programs *)
(* ===================================================================== *)

Inductive Prog : Type -> Type :=
| Ret {A : Type} (a : A) : Prog A
| Throw {A : Type} (e : Exn) : Prog A
| Call {A X : Type} (o : op X) (k : X -> Prog A) : Prog A
| Try {A B : Type} (body : Prog B) (handler : Exn -> Prog B) (k : B -> Prog A) : Prog A.

Fixpoint bind {A B : Type} (p : Prog A) (f : A -> Prog B) : Prog B :=
  match p in Prog A return (A -> Prog B) -> Prog B with
  | Ret a => fun f => f a
  | Throw e => fun _ => Throw e
  | Call o k => fun f => Call o (fun x => bind (k x) f)
  | Try body handler k => fun f => Try body handler (fun b => bind (k b) f)
  end f.

Definition call {X : Type} (o : op X) : Prog X := Call o Ret.

(** [try { body } catch (error) { handler }] *)
Definition try_catch {A : Type} (body : Prog A) (handler : Exn -> Prog A) : Prog A :=
  Try body handler Ret.

(** A synchronous step that may throw. *)
Definition lift {A : Type} (r : Exn + A) : Prog A :=
  match r with
  | inl e => Throw e
  | inr a => Ret a
  end.

#[global] Instance Prog_bind : MBind Prog := fun A B f p => bind p f.
#[global] Instance Prog_ret : MRet Prog := fun A a => Ret a.

(** Running a program to its end. *)
Fixpoint run {A : Type} (p : Prog A) (w : World) : (Exn + A) * World :=
  match p with
  | Ret a => (inr a, w)
  | Throw e => (inl e, w)
  | Call o k =>
      match exec o w with
      | (inl e, w') => (inl e, w')
      | (inr x, w') => run (k x) w'
      end
  | Try body handler k =>
      match run body w with
      | (inr b, w1) => run (k b) w1
      | (inl e, w1) =>
          match run (handler e) w1 with
          | (inr b, w2) => run (k b) w2
          | (inl e', w2) => (inl e', w2)
          end
      end
  end.

(** One atomic operation of a program. *)
Fixpoint step {A : Type} (p : Prog A) (w : World) : Prog A * World :=
  match p in Prog A return Prog A * World with
  | Ret a => (Ret a, w)
  | Throw e => (Throw e, w)
  | Call o k =>
      match exec o w with
      | (inl e, w') => (Throw e, w')
      | (inr x, w') => (k x, w')
      end
  | @Try A B body handler k =>
      match body in Prog B0
            return (Exn -> Prog B0) -> (B0 -> Prog A) -> Prog B0 * World -> Prog A * World with
      | Ret b => fun _ k _ => (k b, w)
      | Throw e => fun handler k _ => (bind (handler e) k, w)
      | _ => fun handler k next => (Try next.1 handler k, next.2)
      end handler k (step body w)
  end.

Definition finished {A : Type} (p : Prog A) : bool :=
  match p with
  | Ret _ | Throw _ => true
  | _ => false
  end.

(* ===================================================================== *)
(** * [src/lib/redis.ts] *)
(* ===================================================================== *)

Definition job_key (jobId : string) : string := "job:" ++ jobId.

(** [s || ""] *)
Definition or_empty (s : option string) : string := default "" s.

(** [s || undefined] *)
Definition or_undefined (s : option string) : option string :=
  match s with
  | Some "" | None => None
  | Some s => Some s
  end.

Record StatusRecord := {
  st_status : string;
  st_progress : option Z;      (* [None] is [NaN] *)
  st_message : option string }.

Definition setJobStatus (jobId : string) (status : string) (progress : Z)
    (message : option string) : Prog unit :=
  let key := job_key jobId in
  call (RedisHset key
          [("status", status); ("progress", toString progress); ("message", or_empty message)]
          ["updatedAt"]);;
  call (RedisExpire key 86400).

Definition getJobStatus (jobId : string) : Prog (option StatusRecord) :=
  let key := job_key jobId in
  data ← call (RedisHgetall key);
  match or_undefined (data !! "status") with
  | None => mret None
  | Some status =>
      mret (Some {| st_status := status;
                    st_progress := parseInt (default "0" (or_undefined (data !! "progress")));
                    st_message := or_undefined (data !! "message") |})
  end.

(** The cache forgets a key (expiry or eviction). *)
Definition evict (key : string) (w : World) : World :=
  with_ttl (delete key) (with_cache (delete key) w).

(* ===================================================================== *)
(** * [src/lib/queue.ts] *)
(* ===================================================================== *)

Definition enqueueDesignGeneration (d : DesignPayload) : Prog string :=
  job ← call (JobCreate GENERATE_DESIGN PENDING (designRequestId d) (DesignMeta d));
  call (DesignQueueAdd "generate" {| jobId := job_id job; data := d |});;
  setJobStatus (job_id job) "PENDING" 0 (Some "Job queued");;
  mret (job_id job).

Definition enqueueDiagramRendering (d : DiagramPayload) : Prog string :=
  job ← call (JobCreate RENDER_DIAGRAM PENDING (r_designRequestId d) (DiagramMeta d));
  call (DiagramQueueAdd "render" {| r_jobId := job_id job; r_data := d |});;
  setJobStatus (job_id job) "PENDING" 0 (Some "Diagram rendering queued");;
  mret (job_id job).

(* ===================================================================== *)
(** * [src/worker/renderer.ts] *)
(* ===================================================================== *)

Record RenderResult := {
  mermaidSource : json;
  svgContent : option string;
  render_error : option string }.

Definition validTypes : list string :=
  ["flowchart"; "graph"; "sequenceDiagram"; "classDiagram"; "stateDiagram";
   "erDiagram"; "journey"; "gantt"; "pie"; "mindmap"].

(** The body of the [try] of [renderMermaidToSvg].  The parameter is typed
    [string]; on a value that is not a string [source.trim()] throws. *)
Definition render_body (source : json) : Exn + RenderResult :=
  match source with
  | JStr s =>
      if String.eqb (trim s) ""
      then inr {| mermaidSource := source; svgContent := None;
                  render_error := Some "Empty diagram source" |}
      else
        let firstLine := toLowerCase (first_line (trim s)) in
        let hasValidType :=
          existsb (fun type => includes firstLine (toLowerCase type)) validTypes in
        if negb hasValidType
        then inr {| mermaidSource := source; svgContent := None;
                    render_error :=
                      Some "Invalid diagram type. Must start with a valid Mermaid diagram declaration." |}
        else inr {| mermaidSource := source; svgContent := None; render_error := None |}
  | JNull => inl (Error "Cannot read properties of null (reading 'trim')")
  | _ => inl (Error "source.trim is not a function")
  end.

Definition renderMermaidToSvg (source : json) : RenderResult :=
  match render_body source with
  | inr r => r
  | inl error =>
      {| mermaidSource := source; svgContent := None;
         render_error := Some (message_or "Unknown rendering error" error) |}
  end.

(* ===================================================================== *)
(** * [src/worker/generator.ts] *)
(* ===================================================================== *)

Record DesignInput := {
  i_inputType : InputType;
  i_promptText : option string;
  i_repoUrl : option string;
  i_constraints : Constraints;
  i_scaleProfile : ScaleProfile;
  i_detailLevel : option DetailLevel;
  i_suggestions : option (list string);
  i_refinementPrompt : option string;
  i_existingDesign : value }.

Record GeneratedDesign := {
  design : json;
  mermaidDiagram : json }.

Definition is_word (c : ascii) : bool :=
  let n := nat_of_ascii c in
  ((48 <=? n) && (n <=? 57) || (65 <=? n) && (n <=? 90) || (97 <=? n) && (n <=? 122)
   || (n =? 95))%nat.

(** The matches of [/(\w+)\[/g]: the maximal runs of word characters that an
    opening bracket follows; [cur] is the run being read. *)
Fixpoint node_ids (s : string) (cur : string) : list string :=
  match s with
  | EmptyString => []
  | String c r =>
      if is_word c then node_ids r (cur ++ String c EmptyString)
      else if (nat_of_ascii c =? 91)%nat && negb (String.eqb cur "")
      then cur :: node_ids r ""
      else node_ids r ""
  end.

Definition style_of (node : string) : string :=
  let lowerNode := toLowerCase node in
  if includes lowerNode "client" || includes lowerNode "web" || includes lowerNode "mobile"
     || includes lowerNode "user"
  then "style " ++ node ++ " fill:#E8F5E9,stroke:#2E7D32,color:#1B5E20"
  else if includes lowerNode "api" || includes lowerNode "gateway" || includes lowerNode "lb"
     || includes lowerNode "load"
  then "style " ++ node ++ " fill:#E3F2FD,stroke:#1565C0,color:#0D47A1"
  else if includes lowerNode "db" || includes lowerNode "database" || includes lowerNode "postgres"
     || includes lowerNode "mongo"
  then "style " ++ node ++ " fill:#F3E5F5,stroke:#7B1FA2,color:#4A148C"
  else if includes lowerNode "cache" || includes lowerNode "redis"
  then "style " ++ node ++ " fill:#FFEBEE,stroke:#C62828,color:#B71C1C"
  else if includes lowerNode "queue" || includes lowerNode "kafka" || includes lowerNode "rabbit"
  then "style " ++ node ++ " fill:#FFF8E1,stroke:#F9A825,color:#F57F17"
  else if includes lowerNode "service" || includes lowerNode "worker"
  then "style " ++ node ++ " fill:#FFF3E0,stroke:#EF6C00,color:#E65100"
  else "style " ++ node ++ " fill:#ECEFF1,stroke:#546E7A,color:#37474F".

(** [Array.prototype.join] *)
Fixpoint join (sep : string) (l : list string) : string :=
  match l with
  | [] => ""
  | [x] => x
  | x :: r => x ++ sep ++ join sep r
  end.

(** [addDefaultStyles]: the regular expression and the concatenation read
    the diagram as text. *)
Definition addDefaultStyles (diagram : json) : json :=
  let text := to_text diagram in
  let nodes := node_ids text "" in
  let styles := map style_of nodes in
  if (0 <? length styles)%nat
  then JStr (text ++ LF ++ LF ++ "    " ++ join (LF ++ "    ") styles)
  else diagram.

(** A template literal, written with ['] where the source has a double
    quote. *)
Fixpoint requote (s : string) : string :=
  match s with
  | EmptyString => EmptyString
  | String c r =>
      String (if (nat_of_ascii c =? 39)%nat then ascii_of_nat 34 else c) (requote r)
  end.

Definition template (lines : list string) : string := requote (join LF lines).

Definition overviewDiagram : string := template [
    "flowchart TB";
    "    subgraph Clients['👥 Clients']";
    "        Client['🌐 Users']";
    "    end";
    "";
    "    subgraph Backend['⚙️ Backend']";
    "        API['🔌 API']";
    "        Services['📦 Services']";
    "    end";
    "";
    "    subgraph Data['💾 Data']";
    "        DB['🗃️ Database']";
    "        Cache['⚡ Cache']";
    "    end";
    "";
    "    Client --> API";
    "    API --> Services";
    "    Services --> DB";
    "    Services --> Cache";
    "";
    "    style Client fill:#E8F5E9,stroke:#2E7D32,color:#1B5E20";
    "    style API fill:#E3F2FD,stroke:#1565C0,color:#0D47A1";
    "    style Services fill:#FFF3E0,stroke:#EF6C00,color:#E65100";
    "    style DB fill:#F3E5F5,stroke:#7B1FA2,color:#4A148C";
    "    style Cache fill:#FFEBEE,stroke:#C62828,color:#B71C1C" ].

Definition detailedDiagram : string := template [
    "flowchart TB";
    "    subgraph Clients['👥 Client Layer']";
    "        Web['🌐 Web App<br/>Next.js 14 + React 18<br/>Tailwind CSS']";
    "        Mobile['📱 Mobile App<br/>React Native<br/>Expo']";
    "    end";
    "";
    "    subgraph Edge['🌍 Edge Layer']";
    "        CDN['☁️ CloudFront CDN<br/>Edge Caching<br/>WAF Protection']";
    "        DNS['🔗 Route 53<br/>DNS + Health Checks']";
    "    end";
    "";
    "    subgraph Gateway['🚪 API Gateway Layer']";
    "        ALB['⚖️ Application LB<br/>AWS ALB<br/>SSL Termination']";
    "        APIGW['🔌 API Gateway<br/>Express.js + TypeScript<br/>Rate Limiting + Auth']";
    "    end";
    "";
    "    subgraph Services['⚙️ Service Layer']";
    "        Auth['🔐 Auth Service<br/>JWT + OAuth2<br/>Cognito Integration']";
    "        Core['📦 Core Service<br/>NestJS<br/>Domain Logic']";
    "        Worker['👷 Background Worker<br/>BullMQ<br/>Job Processing']";
    "    end";
    "";
    "    subgraph Data['💾 Data Layer']";
    "        Primary['🗃️ PostgreSQL<br/>Amazon Aurora<br/>Multi-AZ']";
    "        Cache['⚡ Redis Cluster<br/>ElastiCache<br/>Session + Cache']";
    "        Queue['📨 Message Queue<br/>Amazon SQS<br/>Async Processing']";
    "        S3['📁 Object Storage<br/>Amazon S3<br/>Files + Backups']";
    "    end";
    "";
    "    subgraph Monitoring['📊 Observability']";
    "        Logs['📝 CloudWatch Logs']";
    "        Metrics['📈 Prometheus + Grafana']";
    "        Traces['🔍 X-Ray Tracing']";
    "    end";
    "";
    "    DNS --> CDN";
    "    CDN --> ALB";
    "    Web --> CDN";
    "    Mobile --> ALB";
    "    ALB --> APIGW";
    "    APIGW -->|'JWT Auth'| Auth";
    "    APIGW -->|'REST/GraphQL'| Core";
    "    Core --> Primary";
    "    Core --> Cache";
    "    Core -->|'Enqueue'| Queue";
    "    Queue -->|'Process'| Worker";
    "    Worker --> Primary";
    "    Worker --> S3";
    "    Auth --> Cache";
    "    Core --> Logs";
    "    Core --> Metrics";
    "    APIGW --> Traces";
    "";
    "    style Web fill:#E8F5E9,stroke:#2E7D32,color:#1B5E20";
    "    style Mobile fill:#E8F5E9,stroke:#2E7D32,color:#1B5E20";
    "    style CDN fill:#ECEFF1,stroke:#546E7A,color:#37474F";
    "    style DNS fill:#ECEFF1,stroke:#546E7A,color:#37474F";
    "    style ALB fill:#E3F2FD,stroke:#1565C0,color:#0D47A1";
    "    style APIGW fill:#E3F2FD,stroke:#1565C0,color:#0D47A1";
    "    style Auth fill:#FFF3E0,stroke:#EF6C00,color:#E65100";
    "    style Core fill:#FFF3E0,stroke:#EF6C00,color:#E65100";
    "    style Worker fill:#FFF3E0,stroke:#EF6C00,color:#E65100";
    "    style Primary fill:#F3E5F5,stroke:#7B1FA2,color:#4A148C";
    "    style Cache fill:#FFEBEE,stroke:#C62828,color:#B71C1C";
    "    style Queue fill:#FFF8E1,stroke:#F9A825,color:#F57F17";
    "    style S3 fill:#F3E5F5,stroke:#7B1FA2,color:#4A148C";
    "    style Logs fill:#E0F7FA,stroke:#00838F,color:#006064";
    "    style Metrics fill:#E0F7FA,stroke:#00838F,color:#006064";
    "    style Traces fill:#E0F7FA,stroke:#00838F,color:#006064" ].

Definition standardDiagram : string := template [
    "flowchart TB";
    "    subgraph Clients['👥 Client Layer']";
    "        Web['🌐 Web App<br/>Next.js']";
    "        Mobile['📱 Mobile<br/>React Native']";
    "    end";
    "";
    "    subgraph Gateway['🚪 API Gateway']";
    "        LB['⚖️ Load Balancer']";
    "        API['🔌 API Server<br/>Express']";
    "    end";
    "";
    "    subgraph Services['⚙️ Services']";
    "        Auth['🔐 Auth<br/>JWT + OAuth']";
    "        Core['📦 Core<br/>Business Logic']";
    "    end";
    "";
    "    subgraph Data['💾 Data Layer']";
    "        DB['🗃️ PostgreSQL<br/>Primary DB']";
    "        Cache['⚡ Redis<br/>Cache']";
    "    end";
    "";
    "    Web --> LB";
    "    Mobile --> LB";
    "    LB --> API";
    "    API --> Auth";
    "    API --> Core";
    "    Auth --> Cache";
    "    Core --> DB";
    "    Core --> Cache";
    "";
    "    style Web fill:#E8F5E9,stroke:#2E7D32,color:#1B5E20";
    "    style Mobile fill:#E8F5E9,stroke:#2E7D32,color:#1B5E20";
    "    style LB fill:#E3F2FD,stroke:#1565C0,color:#0D47A1";
    "    style API fill:#E3F2FD,stroke:#1565C0,color:#0D47A1";
    "    style Auth fill:#FFF3E0,stroke:#EF6C00,color:#E65100";
    "    style Core fill:#FFF3E0,stroke:#EF6C00,color:#E65100";
    "    style DB fill:#F3E5F5,stroke:#7B1FA2,color:#4A148C";
    "    style Cache fill:#FFEBEE,stroke:#C62828,color:#B71C1C" ].

Definition strs (l : list string) : json := JArr (map JStr l).

(** [generateMockDesign]: the deterministic fallback. *)
Definition mockDesign (input : DesignInput) : GeneratedDesign :=
  let language :=
    match or_undefined (preferredLanguage (i_constraints input)) with
    | Some l => l
    | None => "TypeScript"
    end in
  let mustUse := default [] (mustUse (i_constraints input)) in
  let uses (t : string) := existsb (String.eqb t) mustUse in
  let isLargeScale := match i_scaleProfile input with DAU_1M => true | _ => false end in
  let isMediumScale := match i_scaleProfile input with DAU_1K => true | _ => false end in
  let detailLevel := default STANDARD (i_detailLevel input) in
  let design := JObj [
    ("components", JArr [
       JObj [("name", JStr "Web Application");
             ("type", JStr "Frontend");
             ("description", JStr "Modern single-page application with responsive design");
             ("technologies", strs [
                (if String.eqb language "TypeScript" then "React + TypeScript"
                 else "React + " ++ language);
                "Tailwind CSS";
                (if uses "Next.js" then "Next.js" else "Vite")]);
             ("icon", JStr "react");
             ("cloudProvider", JStr "Vercel");
             ("framework", JStr "Next.js")];
       JObj [("name", JStr "API Gateway");
             ("type", JStr "Gateway");
             ("description", JStr "Central API layer handling authentication and routing");
             ("technologies", strs [
                (if uses "Express" then "Express.js" else "Fastify");
                language;
                "JWT Authentication"]);
             ("icon", JStr "nodejs");
             ("cloudProvider", JStr "AWS");
             ("framework", JStr "Express.js")];
       JObj [("name", JStr "Core Service");
             ("type", JStr "Backend");
             ("description", JStr "Business logic implementation with domain patterns");
             ("technologies", strs [language; "Domain Events"; "CQRS"]);
             ("icon", JStr "nodejs");
             ("framework", JStr "NestJS")]]);
    ("dataStores", JArr [
       JObj [("name", JStr "Primary Database");
             ("type", JStr "Relational");
             ("description", JStr "Main data store for structured business data");
             ("technology",
              JStr (match find (fun t => existsb (String.eqb t) ["PostgreSQL"; "MySQL"]) mustUse with
                    | Some t => t
                    | None => "PostgreSQL"
                    end));
             ("icon", JStr "postgresql");
             ("cloudService", JStr (if isLargeScale then "Amazon Aurora" else "Amazon RDS"))];
       JObj [("name", JStr "Cache Layer");
             ("type", JStr "In-Memory");
             ("description", JStr "High-performance caching for sessions and hot data");
             ("technology", JStr "Redis");
             ("icon", JStr "redis");
             ("cloudService", JStr "Amazon ElastiCache")]]);
    ("apis", JArr [
       JObj [("name", JStr "REST API");
             ("type", JStr "REST");
             ("description", JStr "Primary API for client-server communication");
             ("endpoints", strs ["POST /api/auth/login"; "GET /api/resources"; "POST /api/resources"]);
             ("protocol", JStr "HTTPS");
             ("authentication", JStr "JWT")];
       JObj [("name", JStr "WebSocket API");
             ("type", JStr "WebSocket");
             ("description", JStr "Real-time communication for live updates");
             ("endpoints", strs ["wss://api.example.com/ws"]);
             ("protocol", JStr "WSS");
             ("authentication", JStr "JWT")]]);
    ("security", JArr [
       JObj [("category", JStr "Authentication");
             ("measures", strs ["JWT-based auth with refresh tokens"; "OAuth 2.0 support"; "Rate limiting"]);
             ("tools", strs ["Auth0"; "AWS Cognito"])];
       JObj [("category", JStr "Data Protection");
             ("measures", strs ["TLS 1.3 encryption"; "Password hashing with bcrypt"; "Input validation"]);
             ("tools", strs ["AWS KMS"; "HashiCorp Vault"])]]);
    ("scaleChanges", JArr [
       JObj [("category", JStr "Compute");
             ("description",
              JStr (if isLargeScale then "Auto-scaling Kubernetes clusters across regions"
                    else if isMediumScale then "Horizontal pod autoscaling"
                    else "Single instance deployment"));
             ("services", strs (if isLargeScale then ["EKS"; "Fargate"; "CloudFront"] else ["EC2"; "ALB"]))];
       JObj [("category", JStr "Database");
             ("description",
              JStr (if isLargeScale then "Multi-region Aurora with read replicas"
                    else if isMediumScale then "RDS with read replica"
                    else "Single RDS instance"));
             ("services", strs (if isLargeScale then ["Aurora Global"; "DynamoDB Global Tables"] else ["RDS"]))]]);
    ("cloudProvider", JStr "AWS");
    ("architectureStyle", JStr (if isLargeScale then "Microservices" else "Modular Monolith"))] in
  let mermaidDiagram :=
    match detailLevel with
    | OVERVIEW => overviewDiagram
    | DETAILED => detailedDiagram
    | STANDARD => standardDiagram
    end in
  {| design := design; mermaidDiagram := JStr mermaidDiagram |}.

Definition generateMockDesign (input : DesignInput) : Prog GeneratedDesign :=
  mret (mockDesign input).

(** [diagram.includes("style ")]: of a string, of an array, or not a
    function. *)
Definition has_style (diagram : value) : Exn + bool :=
  match diagram with
  | Some (JStr s) => inr (includes s "style ")
  | Some (JArr l) =>
      inr (existsb (fun x => match x with JStr s => String.eqb s "style " | _ => false end) l)
  | _ => inl (Error "diagram.includes is not a function")
  end.

(** The part of the [try] of [generateDesign] that follows the [await]: it
    is synchronous, and throws on an answer it cannot use. *)
Definition read_completion (completion : Answer) : Exn + GeneratedDesign :=
  if negb (truthy_str (content completion))
  then throw (Error "No content in OpenAI response")
  else
    parsed ← parsed completion;
    d ← member (Some parsed) "design";
    if negb (truthy d) then throw (Error "Invalid response structure from OpenAI")
    else
      m ← member (Some parsed) "mermaidDiagram";
      if negb (truthy m) then throw (Error "Invalid response structure from OpenAI")
      else
        styled ← has_style m;
        let diagram := if negb styled then addDefaultStyles (default JNull m) else default JNull m in
        (* console.log: the members read for the log line *)
        components ← member d "components";
        member components "length";;
        dataStores ← member d "dataStores";
        member dataStores "length";;
        apis ← member d "apis";
        member apis "length";;
        member d "cloudProvider";;
        member d "architectureStyle";;
        mret {| design := default JNull d; mermaidDiagram := diagram |}.

(** [generateDesign].  The prompt built by [formatUserPrompt] only reaches
    the provider, whose answer is taken from the world. *)
Definition generateDesign (input : DesignInput) : Prog GeneratedDesign :=
  try_catch
    (completion ← call OpenAIChat;
     lift (read_completion completion))
    (fun _ => generateMockDesign input).

(* ===================================================================== *)
(** * [src/worker/index.ts] *)
(* ===================================================================== *)

(** [updateJobStatus(redis, jobId, status, progress, message)] *)
Definition updateJobStatus (jobId : string) (status : string) (progress : Z)
    (message : option string) : Prog unit :=
  call (RedisHset (job_key jobId)
          [("status", status); ("progress", toString progress); ("message", or_empty message)]
          ["updatedAt"]).

(** What a handler returns to the queue. *)
Record HandlerResult := {
  success : bool;
  designVersionId : option string }.

Definition no_patch : JobPatch :=
  {| set_status := None; set_progress := None; set_error := None;
     set_startedAt := false; set_completedAt := false |}.

(** [(latestVersion?.version || 0) + 1]; on a number [x || 0] is [x]. *)
Definition next_version {A : Type} (ver : A -> Z) (latestVersion : option A) : Z :=
  match latestVersion with
  | Some r => ver r
  | None => 0
  end + 1.

(** The [DesignInput] the handler builds from the job data. *)
Definition design_input (d : DesignPayload) : DesignInput :=
  {| i_inputType := inputType d;
     i_promptText := promptText d;
     i_repoUrl := repoUrl d;
     i_constraints :=
       {| mustUse := Some (default [] (mustUse (constraints d)));
          avoid := Some (default [] (avoid (constraints d)));
          preferredLanguage := preferredLanguage (constraints d) |};
     i_scaleProfile := scaleProfile d;
     i_detailLevel := Some (default STANDARD (detailLevel d));
     i_suggestions := Some (default [] (suggestions d));
     i_refinementPrompt := refinementPrompt d;
     i_existingDesign := existingDesign d |}.

(** The handler of the [design-generation] queue. *)
Definition designWorker (job : GenerateDesignJobData) : Prog HandlerResult :=
  let jobId := jobId job in
  let d := data job in
  let designRequestId := designRequestId d in
  let isRefinement := truthy_str (refinementPrompt d) && truthy (existingDesign d) in
  try_catch
    (let startMessage :=
       if isRefinement then "Starting design refinement..." else "Starting design generation..." in
     updateJobStatus jobId "PROCESSING" 10 (Some startMessage);;
     call (JobUpdate jobId
             {| set_status := Some PROCESSING; set_progress := Some 10; set_error := None;
                set_startedAt := true; set_completedAt := false |});;
     let analyzeMessage :=
       if isRefinement then "Analyzing refinement request..." else "Analyzing requirements..." in
     updateJobStatus jobId "PROCESSING" 30 (Some analyzeMessage);;
     let input := design_input d in
     let genMessage :=
       if isRefinement then "Refining architecture..." else "Generating architecture..." in
     updateJobStatus jobId "PROCESSING" 50 (Some genMessage);;
     result ← generateDesign input;
     latestVersion ← call (DesignVersionFindFirst designRequestId);
     let nextVersion := next_version dv_version latestVersion in
     updateJobStatus jobId "PROCESSING" 70 (Some "Saving design version...");;
     designVersion ← call (DesignVersionCreate designRequestId nextVersion (design result));
     updateJobStatus jobId "PROCESSING" 85 (Some "Rendering diagram...");;
     let renderResult := renderMermaidToSvg (mermaidDiagram result) in
     latestDiagramVersion ← call (DiagramVersionFindFirst designRequestId);
     let nextDiagramVersion := next_version gv_version latestDiagramVersion in
     call (DiagramVersionCreate designRequestId (Some (dv_id designVersion)) nextDiagramVersion
             (mermaidSource renderResult) (svgContent renderResult));;
     updateJobStatus jobId "COMPLETED" 100 (Some "Design generated successfully!");;
     call (JobUpdate jobId
             {| set_status := Some COMPLETED; set_progress := Some 100; set_error := None;
                set_startedAt := false; set_completedAt := true |});;
     call RedisQuit;;
     mret {| success := true; designVersionId := Some (dv_id designVersion) |})
    (fun error =>
       let errorMessage := message_or "Unknown error" error in
       updateJobStatus jobId "FAILED" 0 (Some errorMessage);;
       call (JobUpdate jobId
               {| set_status := Some FAILED; set_progress := None; set_error := Some errorMessage;
                  set_startedAt := false; set_completedAt := true |});;
       call RedisQuit;;
       Throw error).

(** The handler of the [diagram-rendering] queue. *)
Definition diagramWorker (job : RenderDiagramJobData) : Prog HandlerResult :=
  let jobId := r_jobId job in
  let designRequestId := r_designRequestId (r_data job) in
  let mermaidSource0 := r_mermaidSource (r_data job) in
  try_catch
    (updateJobStatus jobId "PROCESSING" 50 (Some "Rendering diagram...");;
     call (JobUpdate jobId
             {| set_status := Some PROCESSING; set_progress := None; set_error := None;
                set_startedAt := true; set_completedAt := false |});;
     let renderResult := renderMermaidToSvg (JStr mermaidSource0) in
     latestVersion ← call (DiagramVersionFindFirst designRequestId);
     let nextVersion := next_version gv_version latestVersion in
     call (DiagramVersionCreate designRequestId None nextVersion
             (mermaidSource renderResult) (svgContent renderResult));;
     updateJobStatus jobId "COMPLETED" 100 (Some "Diagram rendered!");;
     call (JobUpdate jobId
             {| set_status := Some COMPLETED; set_progress := Some 100; set_error := None;
                set_startedAt := false; set_completedAt := true |});;
     call RedisQuit;;
     mret {| success := true; designVersionId := None |})
    (fun error =>
       let errorMessage := message_or "Unknown error" error in
       updateJobStatus jobId "FAILED" 0 (Some errorMessage);;
       call (JobUpdate jobId
               {| set_status := Some FAILED; set_progress := None; set_error := Some errorMessage;
                  set_startedAt := false; set_completedAt := false |});;
       call RedisQuit;;
       Throw error).

(* ===================================================================== *)
(** * [src/server/routers/jobs.ts] and [designs.ts] *)
(* ===================================================================== *)

(** The context of a protected procedure: the authenticated user. *)
Record Context := { userId : string }.

Record StatusResponse := {
  s_id : string;
  s_type : JobType;
  s_status : string;
  s_progress : option Z;
  s_message : option string;
  s_designRequestId : string;
  s_createdAt : Z;
  s_updatedAt : Z;
  s_startedAt : option (option Z);      (* members of the fallback answer only *)
  s_completedAt : option (option Z) }.

(** [jobsRouter.getStatus] *)
Definition getStatus (ctx : Context) (id : string) : Prog StatusResponse :=
  found ← call (JobFindFirst id);
  match found with
  | None => Throw (TRPCError "NOT_FOUND" "Job not found")
  | Some (job, designRequest) =>
      owner ← lift (A := string) (match designRequest with
                    | Some r => inr (rq_userId r)
                    | None => inl (Error "Cannot read properties of null (reading 'userId')")
                    end);
      if negb (String.eqb owner (userId ctx))
      then Throw (TRPCError "FORBIDDEN" "You do not have access to this job")
      else
        redisStatus ← getJobStatus id;
        match redisStatus with
        | Some st =>
            mret {| s_id := job_id job; s_type := job_type job;
                    s_status := st_status st; s_progress := st_progress st;
                    s_message := st_message st;
                    s_designRequestId := job_designRequestId job;
                    s_createdAt := job_createdAt job; s_updatedAt := job_updatedAt job;
                    s_startedAt := None; s_completedAt := None |}
        | None =>
            mret {| s_id := job_id job; s_type := job_type job;
                    s_status := status_text (job_status job);
                    s_progress := Some (job_progress job);
                    s_message := or_undefined (job_error job);
                    s_designRequestId := job_designRequestId job;
                    s_createdAt := job_createdAt job; s_updatedAt := job_updatedAt job;
                    s_startedAt := Some (job_startedAt job);
                    s_completedAt := Some (job_completedAt job) |}
        end
  end.

(** The validated input of [refineDesign]. *)
Record RefineInput := {
  ri_designRequestId : string;
  ri_refinementPrompt : string;
  ri_detailLevel : option DetailLevel;
  ri_suggestions : list string }.

Record RefineResponse := {
  rr_jobId : string;
  rr_message : string }.

(** [designsRouter.refineDesign], the resolver that runs once the
    authentication and rate-limit middleware have let the call through. *)
Definition refineDesign (ctx : Context) (input : RefineInput) : Prog RefineResponse :=
  found ← call (DesignRequestFindFirst (ri_designRequestId input) (userId ctx));
  match found with
  | None => Throw (TRPCError "NOT_FOUND" "Design request not found")
  | Some (request, project, latestVersion) =>
      isTemplate ← lift (A := bool) (match project with
                         | Some p => inr (pj_isTemplate p)
                         | None => inl (Error "Cannot read properties of null (reading 'isTemplate')")
                         end);
      if (isTemplate : bool)
      then Throw (TRPCError "FORBIDDEN" "Cannot refine template designs")
      else
        match latestVersion with
        | None => Throw (TRPCError "BAD_REQUEST" "No existing design version to refine")
        | Some latest =>
            jobId ← enqueueDesignGeneration
              {| designRequestId := rq_id request;
                 inputType := rq_inputType request;
                 promptText := or_undefined (rq_promptText request);
                 repoUrl := or_undefined (rq_repoUrl request);
                 constraints := rq_constraints request;
                 scaleProfile := rq_scaleProfile request;
                 detailLevel := Some (default (rq_detailLevel request) (ri_detailLevel input));
                 suggestions := Some (ri_suggestions input);
                 refinementPrompt := Some (ri_refinementPrompt input);
                 existingDesign := Some (dv_designData latest) |};
            mret {| rr_jobId := jobId; rr_message := "Refinement job enqueued" |}
        end
  end.

(* ===================================================================== *)
(** * Concurrent executions *)
(* ===================================================================== *)

(** A delivery of a queue entry to a worker. *)
Inductive delivery :=
| DesignJob (d : GenerateDesignJobData)
| DiagramJob (d : RenderDiagramJobData).

Definition handler (d : delivery) : Prog HandlerResult :=
  match d with
  | DesignJob j => designWorker j
  | DiagramJob j => diagramWorker j
  end.

(** The executions in flight share the world; a schedule names, move after
    move, the execution that performs its next operation. *)
Definition System : Type := World * list (Prog HandlerResult).

Definition step_at (i : nat) (s : System) : System :=
  match s.2 !! i with
  | Some p => let '(p', w') := step p s.1 in (w', <[i := p']> s.2)
  | None => s
  end.

Definition run_schedule (schedule : list nat) (s : System) : System :=
  foldl (fun (s : System) (i : nat) => step_at i s) s schedule.

Definition start (w : World) (ds : list delivery) : System := (w, map handler ds).

Definition returned {A : Type} (p : Prog A) : bool :=
  match p with
  | Ret _ => true
  | _ => false
  end.

(* ===================================================================== *)
(** * Vocabulary of the properties *)
(* ===================================================================== *)

(** ** All the executions of a program

    [all_runs p Q]: whatever the operations of [p] answer, and whichever of
    them raises, [Q] holds of the operations logged by the execution and of
    its outcome. *)
Fixpoint all_runs {A : Type} (p : Prog A) : (list entry -> Exn + A -> Prop) -> Prop :=
  match p in Prog A return (list entry -> Exn + A -> Prop) -> Prop with
  | Ret a => fun Q => Q [] (inr a)
  | Throw e => fun Q => Q [] (inl e)
  | Call o k => fun Q =>
      (forall e, Q [Raised o e] (inl e)) /\
      (forall x, all_runs (k x) (fun t r => Q (Did o :: t) r))
  | Try body handler k => fun Q =>
      all_runs body (fun t r =>
        match r with
        | inr b => all_runs (k b) (fun t' r' => Q (t ++ t')%list r')
        | inl e =>
            all_runs (handler e) (fun t1 r1 =>
              match r1 with
              | inr b => all_runs (k b) (fun t2 r2 => Q (t ++ t1 ++ t2)%list r2)
              | inl e' => Q (t ++ t1)%list (inl e')
              end)
        end)
  end.

(** The part of the log written since [w]. *)
Definition since (w w' : World) : list entry := drop (length (trace w)) (trace w').

(** ** Status and progress writes *)

Inductive store := Cache | Durable.

Record write := {
  wr_store : store;
  wr_status : option string;
  wr_progress : option Z }.

Fixpoint field (k : string) (fields : list (string * string)) : option string :=
  match fields with
  | [] => None
  | (k', v) :: r => if String.eqb k k' then Some v else field k r
  end.

(** A completed [hset] of a status hash, or a completed [job.update]. *)
Definition write_of (e : entry) : option write :=
  match e with
  | Did o =>
      match o with
      | RedisHset _ fields _ =>
          Some {| wr_store := Cache; wr_status := field "status" fields;
                  wr_progress := field "progress" fields ≫= parseInt |}
      | JobUpdate _ p =>
          Some {| wr_store := Durable; wr_status := status_text <$> set_status p;
                  wr_progress := set_progress p |}
      | _ => None
      end
  | Raised _ _ => None
  end.

Definition writes (t : list entry) : list write := omap write_of t.

Definition status_is (s : string) (x : write) : bool :=
  match wr_status x with
  | Some s' => String.eqb s s'
  | None => false
  end.

Fixpoint nondecreasing (l : list Z) : bool :=
  match l with
  | a :: (b :: _) as r => (a <=? b) && nondecreasing r
  | _ => true
  end.

(** The progress value of every write that carries one is allowed for its
    status: [steps] while PROCESSING, 100 on COMPLETED, 0 on FAILED; no other
    status is written. *)
Definition progress_allowed (steps : list Z) (x : write) : bool :=
  match wr_status x, wr_progress x with
  | Some s, Some p =>
      if String.eqb s "PROCESSING" then existsb (Z.eqb p) steps
      else if String.eqb s "COMPLETED" then p =? 100
      else if String.eqb s "FAILED" then p =? 0
      else false
  | Some s, None =>
      String.eqb s "PROCESSING" || String.eqb s "COMPLETED" || String.eqb s "FAILED"
  | None, _ => false
  end.

(** Statuses are written in the order PROCESSING, then COMPLETED, then
    FAILED: nothing follows a FAILED write but FAILED writes, and no
    PROCESSING write follows a COMPLETED one. *)
Fixpoint status_order (l : list write) : bool :=
  match l with
  | [] => true
  | x :: r =>
      status_order r &&
      (if status_is "FAILED" x then forallb (status_is "FAILED") r
       else if status_is "COMPLETED" x then negb (existsb (status_is "PROCESSING") r)
       else true)
  end.

Definition last_write (st : store) (t : list entry) : option write :=
  last (List.filter (fun x => match wr_store x, st with
                         | Cache, Cache | Durable, Durable => true
                         | _, _ => false
                         end) (writes t)).

Definition is_write (s : string) (p : option Z) (x : option write) : bool :=
  match x with
  | Some x => status_is s x && bool_decide (wr_progress x = p)
  | None => false
  end.

(** The entries of the log that try to mark the job FAILED in the cache. *)
Definition failed_hset (e : entry) : bool :=
  match e with
  | Did o | Raised o _ =>
      match o with
      | RedisHset _ fields _ => bool_decide (field "status" fields = Some "FAILED")
      | _ => false
      end
  end.

(** ** Version allocation in the log *)

Definition design_create (e : entry) : bool :=
  match e with
  | Did o | Raised o _ => match o with DesignVersionCreate _ _ _ => true | _ => false end
  end.

Definition diagram_create (e : entry) : bool :=
  match e with
  | Did o | Raised o _ => match o with DiagramVersionCreate _ _ _ _ _ => true | _ => false end
  end.

Definition version_read (e : entry) : bool :=
  match e with
  | Did o | Raised o _ =>
      match o with
      | DesignVersionFindFirst _ | DiagramVersionFindFirst _ => true
      | _ => false
      end
  end.

Definition raised_create (e : entry) : bool :=
  match e with
  | Raised o _ =>
      match o with
      | DesignVersionCreate _ _ _ | DiagramVersionCreate _ _ _ _ _ => true
      | _ => false
      end
  | Did _ => false
  end.

(** A completed insert into [design_versions] for the request. *)
Definition created (rid : string) (e : entry) : bool :=
  match e with
  | Did o => match o with DesignVersionCreate r _ _ => String.eqb r rid | _ => false end
  | Raised _ _ => false
  end.

(** After the first create that raised, the handler only marks the job
    FAILED: no version is read or created again. *)
Fixpoint no_retry (t : list entry) : bool :=
  match t with
  | [] => true
  | e :: r =>
      if raised_create e
      then forallb (fun e' => negb (version_read e' || design_create e' || diagram_create e')) r
      else no_retry r
  end.

(** Every attempted insert into [diagram_versions] carries a null artifact. *)
Definition null_artifact (e : entry) : bool :=
  match e with
  | Did o | Raised o _ =>
      match o with
      | DiagramVersionCreate _ _ _ _ svg => bool_decide (svg = None)
      | _ => true
      end
  end.

(** ** The progress law of a handler *)

Definition design_steps : list Z := [10; 30; 50; 70; 85].
Definition diagram_steps : list Z := [50].

Definition steps_of (d : delivery) : list Z :=
  match d with
  | DesignJob _ => design_steps
  | DiagramJob _ => diagram_steps
  end.

(** The job of a delivery. *)
Definition job_of (d : delivery) : string :=
  match d with
  | DesignJob j => jobId j
  | DiagramJob j => r_jobId j
  end.

(** An [hset] of the given status that raised. *)
Definition raised_hset (s : string) (e : entry) : bool :=
  match e with
  | Raised o _ =>
      match o with
      | RedisHset _ fields _ => bool_decide (field "status" fields = Some s)
      | _ => false
      end
  | Did _ => false
  end.

Definition unfailed (x : write) : bool := negb (status_is "FAILED" x).

(** The operation, attempted or completed, writes the status of the job
    [id] when it writes a status at all: an [hset] goes to the key of the job
    and a [job.update] to its row. *)
Definition for_job (id : string) (e : entry) : Prop :=
  match e with
  | Did o | Raised o _ =>
      match o with
      | RedisHset key _ _ => key = job_key id
      | JobUpdate i _ => i = id
      | _ => True
      end
  end.

Fixpoint own_writes (id : string) (t : list entry) : Prop :=
  match t with
  | [] => True
  | e :: r => for_job id e /\ own_writes id r
  end.

(** A FAILED write follows a COMPLETED one. *)
Fixpoint reopened (l : list write) : bool :=
  match l with
  | [] => false
  | x :: r => status_is "COMPLETED" x && existsb (status_is "FAILED") r || reopened r
  end.

(** An operation that follows the COMPLETED write of the cache raised: the
    update that marks the row COMPLETED, or [redis.quit()]. *)
Definition raised_late (e : entry) : bool :=
  match e with
  | Raised o _ =>
      match o with
      | JobUpdate _ p => match set_status p with Some COMPLETED => true | _ => false end
      | RedisQuit => true
      | _ => false
      end
  | Did _ => false
  end.

(** The law the handlers follow for the job [id].  Every status write is for
    that job; every value goes with the status it is allowed for; the values
    written while PROCESSING and on COMPLETED never decrease; no PROCESSING
    write follows a COMPLETED or a FAILED one and no COMPLETED write follows a
    FAILED one; a FAILED write follows a COMPLETED one only when the row update
    to COMPLETED or [redis.quit()] raised; a handler that returns has written
    COMPLETED with 100 last in both stores; a handler that raises, unless the
    cache write of its failure path raised too, has written FAILED with 0 last
    in the cache. *)
Definition progress_law (id : string) (steps : list Z) (t : list entry)
    (r : Exn + HandlerResult) : Prop :=
  own_writes id t /\
  forallb (progress_allowed steps) (writes t) = true /\
  status_order (writes t) = true /\
  nondecreasing (omap wr_progress (List.filter unfailed (writes t))) = true /\
  (reopened (writes t) = true -> existsb raised_late t = true) /\
  match r with
  | inr _ =>
      is_write "COMPLETED" (Some 100) (last_write Cache t) = true /\
      is_write "COMPLETED" (Some 100) (last_write Durable t) = true
  | inl _ =>
      existsb (raised_hset "FAILED") t = false ->
      is_write "FAILED" (Some 0) (last_write Cache t) = true
  end.

(** ** Worlds used as examples *)

Definition demo_user : string := "user_demo_001".

Definition no_constraints : Constraints :=
  {| mustUse := None; avoid := None; preferredLanguage := None |}.

Definition req1 : DesignRequestRow :=
  {| rq_id := "req1"; rq_title := "Chat"; rq_inputType := PROMPT;
     rq_promptText := Some "Build a chat app"; rq_repoUrl := None;
     rq_scaleProfile := DAU_1K; rq_detailLevel := STANDARD;
     rq_constraints := no_constraints;
     rq_projectId := "p1"; rq_userId := demo_user |}.

Definition project1 : ProjectRow :=
  {| pj_id := "p1"; pj_name := "Demo"; pj_userId := demo_user; pj_isTemplate := false |}.

(** One project with one design request, nothing generated yet, the provider
    unreachable and the infrastructure sound. *)
Definition world0 : World :=
  mkWorld ∅ (<["req1" := req1]> ∅) (<["p1" := project1]> ∅) [] [] ∅ ∅ [] [] [] [] 0 1000 [].

(** The payload of [createRequest] for [req1]. *)
Definition payload1 : DesignPayload :=
  {| designRequestId := "req1"; inputType := PROMPT;
     promptText := Some "Build a chat app"; repoUrl := None;
     constraints := no_constraints; scaleProfile := DAU_1K;
     detailLevel := Some STANDARD; suggestions := Some [];
     refinementPrompt := None; existingDesign := None |}.

(** [world0] after [enqueueDesignGeneration payload1]: job [c0] is PENDING. *)
Definition world1 : World := (run (enqueueDesignGeneration payload1) world0).2.

Definition job1 : GenerateDesignJobData := {| jobId := "c0"; data := payload1 |}.

(** In [world1_storage_down] the eighth operation from now, the insert of
    the design version by [designWorker job1], meets an unavailable store. *)
Definition world1_storage_down : World :=
  with_faults (fun _ => [None; None; None; None; None; None; None;
                         Some (Error "Can't reach database server")]) world1.

(** In [world1_quit_fails] the fourteenth operation from now, the
    [redis.quit()] that ends the [try] block of [designWorker job1], raises. *)
Definition world1_quit_fails : World :=
  with_faults (fun _ => (replicate 13 None ++ [Some (Error "Connection is closed.")])%list) world1.

(** ** Version allocation under concurrency *)

(** The number of design versions of a request. *)
Definition count (rid : string) (w : World) : nat := length (design_versions_of rid w).

Definition counts (w : World) : string -> nat := fun rid => count rid w.

(** The versions of every request, in insertion order, are 1, 2, ..., N. *)
Definition gapless (w : World) : Prop :=
  forall rid, map dv_version (design_versions_of rid w) = seqZ 1 (Z.of_nat (count rid w)).

Definition grows (n n' : string -> nat) : Prop := forall rid, (n rid <= n' rid)%nat.

(** An insert asks for a version between 1 and one more than the versions
    there are. *)
Definition allocates {X : Type} (o : op X) (n : string -> nat) : Prop :=
  match o with
  | DesignVersionCreate rid v _ => 1 <= v <= Z.of_nat (n rid) + 1
  | _ => True
  end.

(** What reading the latest version can answer when there are [n] of them. *)
Definition answers {X : Type} (o : op X) (n : string -> nat) : X -> Prop :=
  match o in op X return X -> Prop with
  | DesignVersionFindFirst rid => fun x =>
      match x with
      | Some r => 1 <= dv_version r <= Z.of_nat (n rid)
      | None => True
      end
  | _ => fun _ => True
  end.

(** A program in flight allocates safely: each insert it may still issue
    asks for a version it derived from an earlier read, whatever was inserted
    by others since. *)
Fixpoint allocation_safe {A : Type} (p : Prog A) : (string -> nat) -> Prop :=
  match p with
  | Ret _ | Throw _ => fun _ => True
  | Call o k => fun n =>
      allocates o n /\
      forall n' x, grows n n' -> answers o n' x -> allocation_safe (k x) n'
  | Try body handler k => fun n =>
      allocation_safe body n /\
      (forall e n', grows n n' -> allocation_safe (handler e) n') /\
      (forall b n', grows n n' -> allocation_safe (k b) n')
  end.

(** The inserts into [design_versions] completed for a request. *)
Definition creations (rid : string) (t : list entry) : nat :=
  length (List.filter (created rid) t).

(** The generation jobs of a request that reached COMPLETED. *)
Definition completed_generations (rid : string) (w : World) : nat :=
  length (List.filter
            (fun kv => match job_type kv.2, job_status kv.2 with
                       | GENERATE_DESIGN, COMPLETED => String.eqb (job_designRequestId kv.2) rid
                       | _, _ => false
                       end)
            (map_to_list (jobs w))).

(** [world1] after the first generation: [req1] has version 1. *)
Definition world2 : World := (run (designWorker job1) world1).2.

Definition ctx1 : Context := {| userId := demo_user |}.

Definition refine_a : RefineInput :=
  {| ri_designRequestId := "req1"; ri_refinementPrompt := "Add a cache";
     ri_detailLevel := None; ri_suggestions := [] |}.

Definition refine_b : RefineInput :=
  {| ri_designRequestId := "req1"; ri_refinementPrompt := "Use a message queue";
     ri_detailLevel := None; ri_suggestions := [] |}.

(** Two refinements of [req1] requested back-to-back: jobs [c3] and [c4]. *)
Definition world3 : World :=
  (run (refineDesign ctx1 refine_b) (run (refineDesign ctx1 refine_a) world2).2).2.

Definition refinements : list delivery :=
  map (fun e => DesignJob e.2) (drop 1 (designQueue world3)).

(** Both executions read the latest design version before either inserts. *)
Definition racing_inserts : list nat :=
  (replicate 8 0%nat ++ replicate 8 1%nat ++ replicate 30 0%nat ++ replicate 30 1%nat)%list.

(** Both executions insert their design version, then both read the latest
    diagram version before either inserts its diagram. *)
Definition racing_diagrams : list nat :=
  (replicate 9 0%nat ++ replicate 11 1%nat ++ replicate 30 0%nat ++ replicate 30 1%nat)%list.

(** Between two worlds the log was extended, and the design versions of
    every request grew by the inserts the extension completed. *)
Definition advances (w w' : World) : Prop :=
  exists t, trace w' = (trace w ++ t)%list /\
            forall rid, count rid w' = (count rid w + creations rid t)%nat.

Definition pool_safe (s : System) : Prop :=
  gapless s.1 /\ Forall (fun p => allocation_safe p (counts s.1)) s.2.

(** [gapless], checked on the requests that have versions. *)
Definition gapless_on (rids : list string) (w : World) : bool :=
  forallb (fun rid => bool_decide (map dv_version (design_versions_of rid w)
                                   = seqZ 1 (Z.of_nat (count rid w)))) rids.

(** ** Queue entries and job rows *)

(** Every entry of the design queue names a job that has its row. *)
Definition queue_sound (w : World) : Prop :=
  forall name j, (name, j) ∈ designQueue w -> is_Some (jobs w !! jobId j).

(** The infrastructure lets the next operation through. *)
Definition next_sound (w : World) : Prop :=
  match faults w with
  | Some _ :: _ => False
  | _ => True
  end.

(** An attempt to create a Job row or to push on a queue. *)
Definition enqueues (e : entry) : bool :=
  match e with
  | Did o | Raised o _ =>
      match o with
      | JobCreate _ _ _ _ | DesignQueueAdd _ _ | DiagramQueueAdd _ _ => true
      | _ => false
      end
  end.

Definition no_version_error : Exn :=
  TRPCError "BAD_REQUEST" "No existing design version to refine".

(** ** Properties of every operation of a program *)

Fixpoint all_ops {A : Type} (P : forall X, op X -> Prop) (p : Prog A) : Prop :=
  match p with
  | Ret _ | Throw _ => True
  | Call o k => P _ o /\ forall x, all_ops P (k x)
  | Try body handler k =>
      all_ops P body /\ (forall e, all_ops P (handler e)) /\ (forall b, all_ops P (k b))
  end.

(** The operation inserts no rendered artifact. *)
Definition null_svg (X : Type) (o : op X) : Prop :=
  match o with
  | DiagramVersionCreate _ _ _ _ svg => svg = None
  | _ => True
  end.

(** The diagram versions that were not in [w0] have no rendered artifact. *)
Definition artifacts_null (w0 w : World) : Prop :=
  forall row, row ∈ diagram_versions w -> row ∈ diagram_versions w0 \/ gv_svgContent row = None.

(** ** The law of version conflicts *)

Definition raises {A : Type} (r : Exn + A) : bool :=
  match r with
  | inl _ => true
  | inr _ => false
  end.

Definition completed (e : entry) : bool :=
  match e with
  | Did _ => true
  | Raised _ _ => false
  end.

(** The first create that raised: its exception and the rest of the log. *)
Fixpoint first_conflict (t : list entry) : option (Exn * list entry) :=
  match t with
  | [] => None
  | e :: r =>
      match e with
      | Raised o x => if raised_create e then Some (x, r) else first_conflict r
      | Did _ => first_conflict r
      end
  end.

(** After the first create that raised, was a version read or a create
    attempted again? *)
Definition retried (t : list entry) : bool :=
  match first_conflict t with
  | Some (_, rest) => existsb (fun e => version_read e || design_create e || diagram_create e) rest
  | None => false
  end.

(** An attempt to mark the job [id] FAILED in the cache. *)
Definition marks_failed (id : string) (e : entry) : Prop :=
  match e with
  | Did o | Raised o _ =>
      match o with
      | RedisHset key fields _ =>
          key = job_key id /\ field "status" fields = Some "FAILED"
      | _ => False
      end
  end.

(** The completed cache write FAILED / 0 / [message] for the job [id]. *)
Definition cache_failed (id message : string) (e : entry) : Prop :=
  match e with
  | Did o =>
      match o with
      | RedisHset key fields _ =>
          key = job_key id /\ field "status" fields = Some "FAILED" /\
          field "progress" fields = Some "0" /\ field "message" fields = Some message
      | _ => False
      end
  | Raised _ _ => False
  end.

(** The completed update that marks the row of the job [id] FAILED with the
    error [message]. *)
Definition row_failed (id message : string) (e : entry) : Prop :=
  match e with
  | Did o =>
      match o with
      | JobUpdate i p => i = id /\ set_status p = Some FAILED /\ set_error p = Some message
      | _ => False
      end
  | Raised _ _ => False
  end.

Definition quit_done (e : entry) : Prop :=
  match e with
  | Did o => match o with RedisQuit => True | _ => False end
  | Raised _ _ => False
  end.

(** The failure path of a handler for the job [id] after the exception [x],
    when its three operations complete. *)
Definition failure_path (id : string) (x : Exn) (rest : list entry) : Prop :=
  match rest with
  | [a; b; c] =>
      cache_failed id (message_or "Unknown error" x) a /\
      row_failed id (message_or "Unknown error" x) b /\
      quit_done c
  | _ => False
  end.

(** What a handler does for the job [id] with a create that raises: each
    table sees at most one insert attempt per execution; nothing is read or
    inserted again after the failure; the next operation is the attempt to mark
    the job FAILED in the cache; the handler raises; and when the operations
    that follow the failure complete, they are the failure path of the job and
    the handler raises the exception of the create. *)
Definition conflict_law (id : string) (t : list entry) (r : Exn + HandlerResult) : Prop :=
  (length (List.filter design_create t) <=? 1)%nat = true /\
  (length (List.filter diagram_create t) <=? 1)%nat = true /\
  retried t = false /\
  match first_conflict t with
  | Some (x, rest) =>
      match rest with
      | e' :: _ => marks_failed id e'
      | [] => False
      end /\
      raises r = true /\
      (forallb completed rest = true -> failure_path id x rest /\ r = inl x)
  | None => True
  end.

Definition status_pair (r : Exn + StatusResponse) : option (string * option Z) :=
  match r with
  | inr s => Some (s_status s, s_progress s)
  | inl _ => None
  end.

(** ** What a completed execution leaves *)

Definition status_fields (h : gmap string string) : option string * option string :=
  (h !! "status", h !! "progress").

(** The job is COMPLETED with progress 100 in the Job row and in the cache. *)
Definition job_completed (jobId : string) (w : World) : Prop :=
  (exists row, jobs w !! jobId = Some row /\ job_status row = COMPLETED /\ job_progress row = 100) /\
  (exists h, cache w !! job_key jobId = Some h /\
             status_fields h = (Some "COMPLETED", Some "100")).

(** The structural arrays of a design. *)
Definition structural_arrays : list string :=
  ["components"; "dataStores"; "apis"; "security"; "scaleChanges"].

Definition has_array (d : json) (k : string) : bool :=
  match member (Some d) k with
  | inr (Some (JArr _)) => true
  | _ => false
  end.

Definition arrays_present (d : json) : bool := forallb (has_array d) structural_arrays.

(** Neither [undefined] nor [null]. *)
Definition defined (v : value) : bool :=
  match v with
  | None | Some JNull => false
  | Some _ => true
  end.

Definition has_member (d : json) (k : string) : bool :=
  match member (Some d) k with
  | inr v => defined v
  | inl _ => false
  end.

Definition components_of (d : json) : list json :=
  match member (Some d) "components" with
  | inr (Some (JArr l)) => l
  | _ => []
  end.

(** The diagram of the fallback design. *)
Definition mock_diagram (input : DesignInput) : string :=
  match default STANDARD (i_detailLevel input) with
  | OVERVIEW => overviewDiagram
  | DETAILED => detailedDiagram
  | STANDARD => standardDiagram
  end.

(** An answer of the provider whose design has neither [security] nor
    [scaleChanges]. *)
Definition sparse_answer : Answer :=
  {| content := Some (requote
       "{'design':{'components':[],'dataStores':[],'apis':[]},'mermaidDiagram':'flowchart TB'}");
     parsed := inr (JObj [("design", JObj [("components", JArr []);
                                            ("dataStores", JArr []);
                                            ("apis", JArr [])]);
                          ("mermaidDiagram", JStr "flowchart TB")]) |}.

Definition world1_sparse : World := with_openai (fun _ => [sparse_answer]) world1.

(** ** What [generateDesign] takes from the provider *)

(** The member [k] of an object, when it is there and not [null]. *)
Definition present (d : json) (k : string) : bool :=
  match d with
  | JObj ms => defined (assoc k ms)
  | _ => false
  end.

(** A diagram the code can use: a string that is not empty, or an array. *)
Definition text_or_list (m : json) : bool :=
  match m with
  | JStr s => negb (String.eqb s "")
  | JArr _ => true
  | _ => false
  end.

(** The diagram has the text [style ] in it (a string) or as an element (an
    array). *)
Definition styled (m : json) : bool :=
  match m with
  | JStr s => includes s "style "
  | JArr l => existsb (fun x => match x with JStr s => String.eqb s "style " | _ => false end) l
  | _ => false
  end.

(** The design [generateDesign] takes from an answer, if any: the content
    is not empty and parses as an object; its [design] is an object whose
    [components], [dataStores] and [apis] are there and not [null]; its
    [mermaidDiagram] is a non-empty string or an array.  The design is taken as
    it is, the diagram with the default styles when it has none. *)
Definition provider_design (a : Answer) : option GeneratedDesign :=
  match content a, parsed a with
  | Some c, inr (JObj ms) =>
      match assoc "design" ms, assoc "mermaidDiagram" ms with
      | Some d, Some m =>
          if negb (String.eqb c "") && present d "components" && present d "dataStores"
             && present d "apis" && text_or_list m
          then Some {| design := d;
                       mermaidDiagram := if styled m then m else addDefaultStyles m |}
          else None
      | _, _ => None
      end
  | _, _ => None
  end.

(** An answer whose diagram is a number. *)
Definition numeric_diagram_answer : Answer :=
  {| content := Some (requote
       "{'design':{'components':[],'dataStores':[],'apis':[]},'mermaidDiagram':5}");
     parsed := inr (JObj [("design", JObj [("components", JArr []);
                                            ("dataStores", JArr []);
                                            ("apis", JArr [])]);
                          ("mermaidDiagram", JNum 5)]) |}.

(** ** The failure path of a handler *)

(** A write to the Job row that marks it FAILED leaves its progress as it
    is. *)
Definition failed_row_keeps_progress (x : write) : bool :=
  match wr_store x with
  | Durable => if status_is "FAILED" x then bool_decide (wr_progress x = None) else true
  | Cache => true
  end.

(** The world the handler leaves when the insert of the design version
    raised. *)
Definition world1_failed : World := (run (designWorker job1) world1_storage_down).2.

(** The status, the progress and the message of a job in the cache. *)
Definition cached (jobId : string) (w : World)
    : option (option string * option string * option string) :=
  (fun h => (h !! "status", h !! "progress", h !! "message")) <$> cache w !! job_key jobId.

(** The status, the progress and the error of a job in its row. *)
Definition stored (jobId : string) (w : World) : option (JobStatus * Z * option string) :=
  (fun row => (job_status row, job_progress row, job_error row)) <$> jobs w !! jobId.

(** ** The declaration of a diagram *)

(** The source begins with a recognized declaration: the first line of the
    trimmed source, in lower case, starts with a diagram type. *)
Definition begins_with_declaration (source : string) : bool :=
  existsb (fun type => String.prefix (toLowerCase type) (toLowerCase (first_line (trim source))))
    validTypes.

(** The test of the renderer: the first line contains a diagram type. *)
Definition contains_declaration (source : string) : bool :=
  existsb (fun type => includes (toLowerCase (first_line (trim source))) (toLowerCase type))
    validTypes.

Definition diagram_payload1 : DiagramPayload :=
  {| r_designRequestId := "req1"; r_mermaidSource := "not a graph" |}.

(** A diagram job for a source that does not begin with a declaration. *)
Definition world1_diagram : World := (run (enqueueDiagramRendering diagram_payload1) world0).2.

Definition diagram_job1 : RenderDiagramJobData := {| r_jobId := "c0"; r_data := diagram_payload1 |}.

(** ** Numbers as text *)

(** The text starts with a decimal digit. *)
Definition starts_with_digit (s : string) : Prop :=
  exists k r, (k < 10)%nat /\ s = String (ascii_of_nat (48 + k)) r.

(** ** What programs leave alone *)

(** The stored data: everything but the oracles, the clock and the log. *)
Definition same_data (w0 w : World) : Prop :=
  jobs w = jobs w0 /\ design_requests w = design_requests w0 /\ projects w = projects w0 /\
  design_versions w = design_versions w0 /\ diagram_versions w = diagram_versions w0 /\
  cache w = cache w0 /\ ttl w = ttl w0 /\
  designQueue w = designQueue w0 /\ diagramQueue w = diagramQueue w0.

(** The operation only reads. *)
Definition reads (X : Type) (o : op X) : Prop :=
  match o with
  | RedisHgetall _ | JobFindFirst _ | DesignRequestFindFirst _ _
  | DesignVersionFindFirst _ | DiagramVersionFindFirst _ => True
  | _ => False
  end.

(** The operation neither creates a Job row, nor pushes on a queue, nor sets
    an expiry. *)
Definition worker_op (X : Type) (o : op X) : Prop :=
  match o with
  | JobCreate _ _ _ _ | DesignQueueAdd _ _ | DiagramQueueAdd _ _ | RedisExpire _ _ => False
  | _ => True
  end.

(** The columns of a Job row that say which job it is. *)
Definition job_identity (row : JobRow) : string * JobType * string * JobPayload * Z :=
  (job_id row, job_type row, job_designRequestId row, job_metadata row, job_createdAt row).

(** What no handler changes: the queues, the expiries, the requests, the
    projects, the set of Job rows and the identity of each. *)
Definition worker_frame (w0 w : World) : Prop :=
  designQueue w = designQueue w0 /\ diagramQueue w = diagramQueue w0 /\
  ttl w = ttl w0 /\ design_requests w = design_requests w0 /\ projects w = projects w0 /\
  job_identity <$> jobs w = job_identity <$> jobs w0.

(** The caller may see the job: it exists and its request is the caller's. *)
Definition visible (ctx : Context) (id : string) (w : World) : Prop :=
  exists row rq,
    jobs w !! id = Some row /\
    design_requests w !! job_designRequestId row = Some rq /\
    rq_userId rq = userId ctx.

(** ** The connection of a handler *)

(** An attempt to close the Redis connection. *)
Definition is_quit (e : entry) : bool :=
  match e with
  | Did o | Raised o _ => match o with RedisQuit => true | _ => false end
  end.

Definition has_quit (e : entry) : bool := is_quit e && completed e.

(** The connection is closed at most once, by the last operation of the
    execution, and it is closed when the handler returns; closing is tried
    a second time only when the first attempt raised. *)
Definition quit_law (t : list entry) (r : Exn + HandlerResult) : Prop :=
  (length (List.filter has_quit t) <=? 1)%nat = true /\
  (length (List.filter is_quit t) <=? 2)%nat = true /\
  (existsb has_quit t = true -> has_quit <$> last t = Some true) /\
  (raises r = false -> has_quit <$> last t = Some true).

(** ** Enqueued jobs *)

(** The Job row that [db.job.create] inserts for an enqueued job. *)
Definition new_job (type : JobType) (rid : string) (metadata : JobPayload) (w : World) : JobRow :=
  {| job_id := cuid (seed w); job_type := type; job_status := PENDING;
     job_progress := 0; job_designRequestId := rid;
     job_metadata := metadata; job_error := None;
     job_createdAt := now w; job_updatedAt := now w;
     job_startedAt := None; job_completedAt := None |}.

(** * [src/worker/generator.ts]: [refineDesign] *)

Module Generator.

(** [refineDesign(existingDesign, refinementPrompt, detailLevel = "STANDARD")] *)
Definition refineDesign (existingDesign : json) (refinementPrompt : string)
    (detailLevel : option DetailLevel) : Prog GeneratedDesign :=
  generateDesign
    {| i_inputType := PROMPT;
       i_promptText := Some "";
       i_repoUrl := None;
       i_constraints := {| mustUse := None; avoid := None; preferredLanguage := None |};
       i_scaleProfile := DAU_1K;
       i_detailLevel := Some (default STANDARD detailLevel);
       i_suggestions := None;
       i_refinementPrompt := Some refinementPrompt;
       i_existingDesign := Some existingDesign |}.

End Generator.

(** ** What the fallback design reads *)

(** The members of the input that [generateMockDesign] reads. *)
Definition mock_inputs (input : DesignInput)
    : option string * list string * ScaleProfile * DetailLevel :=
  (or_undefined (preferredLanguage (i_constraints input)),
   default [] (mustUse (i_constraints input)),
   i_scaleProfile input,
   default STANDARD (i_detailLevel input)).

(** The [technology] of each data store of a design. *)
Definition store_technologies (d : json) : list string :=
  match member (Some d) "dataStores" with
  | inr (Some (JArr l)) =>
      omap (fun s => match member (Some s) "technology" with
                     | inr (Some (JStr t)) => Some t
                     | _ => None
                     end) l
  | _ => []
  end.

(** ** Other callers of [refineDesign] *)

(** A signed-in user who owns nothing. *)
Definition ctx_other : Context := {| userId := "user_other" |}.

Definition template1 : ProjectRow :=
  {| pj_id := "p1"; pj_name := "Template"; pj_userId := demo_user; pj_isTemplate := true |}.

(** [world0] with its project turned into a template. *)
Definition world0_template : World :=
  mkWorld ∅ (<["req1" := req1]> ∅) (<["p1" := template1]> ∅) [] [] ∅ ∅ [] [] [] [] 0 1000 [].

(* ===================================================================== *)
(** * [src/lib/redis.ts]: [checkRateLimit], and its middleware in
      [src/server/trpc.ts] *)
(* ===================================================================== *)

Module RateLimit.

(** The sorted sets of the Redis server: for each key the score of every
    member, and the time (in milliseconds) at which the key expires.  A
    command is run at the time [t] of the server; the five commands of one
    call run at the time the call read from [Date.now()]. *)
Record Store := mkStore {
  zsets : gmap string (gmap string Z);
  deadline : gmap string Z }.

Definition drop_key (key : string) (st : Store) : Store :=
  mkStore (delete key (zsets st)) (delete key (deadline st)).

(** A key whose time has passed is gone when it is next looked at. *)
Definition due (t : Z) (key : string) (st : Store) : bool :=
  match deadline st !! key with
  | Some d => d <? t
  | None => false
  end.

Definition expired (t : Z) (key : string) (st : Store) : Store :=
  if due t key st then drop_key key st else st.

Definition zset (key : string) (st : Store) : gmap string Z := default ∅ (zsets st !! key).

(** A sorted set that becomes empty is removed with its expiry. *)
Definition put (key : string) (set : gmap string Z) (st : Store) : Store :=
  if decide (set = ∅) then drop_key key st
  else mkStore (<[key := set]> (zsets st)) (deadline st).

(** [ZREMRANGEBYSCORE key min max] *)
Definition zremrangebyscore (t : Z) (key : string) (min max : Z) (st : Store) : Store :=
  let st := expired t key st in
  put key (filter (fun ms => ~ (min <= ms.2 <= max)) (zset key st)) st.

(** [ZCARD key] *)
Definition zcard (t : Z) (key : string) (st : Store) : Z * Store :=
  let st := expired t key st in
  (Z.of_nat (size (zset key st)), st).

(** The order of a sorted set: by score, then by member. *)
Definition lower (a b : string * Z) : bool :=
  (a.2 <? b.2) || ((a.2 =? b.2) && String.leb a.1 b.1).

Definition lowest (l : list (string * Z)) : option (string * Z) :=
  foldr (fun x acc =>
           match acc with
           | Some y => if lower x y then Some x else Some y
           | None => Some x
           end) None l.

(** [ZRANGE key 0 0 WITHSCORES]: the first member and its score, as text (the
    server writes an integer score below 2^52 in full). *)
Definition zrange_first (t : Z) (key : string) (st : Store) : list string * Store :=
  let st := expired t key st in
  (match lowest (map_to_list (zset key st)) with
   | Some (member, score) => [member; toString score]
   | None => []
   end, st).

(** [ZADD key score member] *)
Definition zadd (t : Z) (key : string) (score : Z) (member : string) (st : Store) : Store :=
  let st := expired t key st in
  mkStore (<[key := <[member := score]> (zset key st)]> (zsets st)) (deadline st).

(** [EXPIRE key seconds]; a timeout that is not positive deletes the key. *)
Definition expire (t : Z) (key : string) (seconds : Z) (st : Store) : Store :=
  let st := expired t key st in
  match zsets st !! key with
  | Some _ =>
      if seconds <=? 0 then drop_key key st
      else mkStore (zsets st) (<[key := t + seconds * 1000]> (deadline st))
  | None => st
  end.

Record Result := {
  allowed : bool;
  remaining : Z;
  resetAt : option Z }.        (* [None] is [NaN] *)

Definition rate_key (userId : string) : string := "rate_limit:" ++ userId.

(** [Math.ceil(a / b)] for integers and a positive [b]. *)
Definition ceil_div (a b : Z) : Z := - ((- a) / b).

(** The member added for a request: [`${now}-${Math.random()}`]. *)
Definition member_of (now : Z) (random : string) : string := toString now ++ "-" ++ random.

(** [checkRateLimit(userId, limit, windowMs)]; [now] is what [Date.now()]
    returns and [random] the text of what [Math.random()] returns. *)
Definition checkRateLimit (userId : string) (limit windowMs : Z) (now : Z) (random : string)
    (st : Store) : Result * Store :=
  let key := rate_key userId in
  let windowStart := now - windowMs in
  let st := zremrangebyscore now key 0 windowStart st in
  let '(count, st) := zcard now key st in
  if limit <=? count
  then
    let '(oldestEntry, st) := zrange_first now key st in
    let resetAt :=
      if (1 <? length oldestEntry)%nat
      then (fun oldest => oldest + windowMs) <$> parseInt (nth 1 oldestEntry "")
      else Some (now + windowMs) in
    ({| allowed := false; remaining := 0; resetAt := resetAt |}, st)
  else
    let st := zadd now key now (member_of now random) st in
    let st := expire now key (ceil_div windowMs 1000) st in
    ({| allowed := true; remaining := limit - count - 1; resetAt := Some (now + windowMs) |}, st).

(** [enforceRateLimit] of [trpc.ts]: the user id of the context when the
    request goes on to the resolver; [now'] is the second reading of the
    clock, for the message. *)
Definition enforceRateLimit (userId : option string) (now : Z) (random : string) (now' : Z)
    (st : Store) : (Exn + string) * Store :=
  match or_undefined userId with
  | None =>
      (inl (TRPCError "UNAUTHORIZED" "You must be logged in to perform this action"), st)
  | Some user =>
      let '(rateLimit, st) := checkRateLimit user 10 60000 now random st in
      if negb (allowed rateLimit)
      then
        let seconds :=
          match resetAt rateLimit with
          | Some r => toString (ceil_div (r - now') 1000)
          | None => "NaN"
          end in
        (inl (TRPCError "TOO_MANY_REQUESTS"
                ("Rate limit exceeded. Try again in " ++ seconds ++ " seconds")), st)
      else (inr user, st)
  end.

(** The requests of one user, one after the other: each with what it read
    from the clock and from [Math.random()].  The result lists the times of
    the requests that were let through. *)
Fixpoint serve (userId : string) (limit windowMs : Z) (requests : list (Z * string))
    (st : Store) : list Z * Store :=
  match requests with
  | [] => ([], st)
  | (now, random) :: rest =>
      let '(r, st1) := checkRateLimit userId limit windowMs now random st in
      let '(passed, st2) := serve userId limit windowMs rest st1 in
      (if allowed r then now :: passed else passed, st2)
  end.

(** The requests let through whose time lies in the window that ends at [t]:
    after [t - windowMs], up to [t]. *)
Definition in_window (windowMs t : Z) (times : list Z) : list Z :=
  List.filter (fun n => (t - windowMs <? n) && (n <=? t)) times.

(** The clock never goes back. *)
Fixpoint ascending (times : list Z) : Prop :=
  match times with
  | [] => True
  | a :: r => Forall (fun b => a <= b) r /\ ascending r
  end.

(** What a call finds for the user: the members that have not expired and
    are not pruned. *)
Definition live (userId : string) (windowMs now : Z) (st : Store) : gmap string Z :=
  filter (fun ms => ~ (0 <= ms.2 <= now - windowMs))
    (zset (rate_key userId) (expired now (rate_key userId) st)).

(** The store remembers the requests [log] (time and member) that were let
    through before [t]: those still in the window are in the sorted set with
    their time as score, and the key does not expire before they leave the
    window. *)
Definition remembers (userId : string) (windowMs : Z) (log : list (Z * string)) (t : Z)
    (st : Store) : Prop :=
  (forall n m, (n, m) ∈ log -> n <= t) /\
  (forall n m, (n, m) ∈ log -> t - windowMs < n -> zset (rate_key userId) st !! m = Some n) /\
  (forall d, deadline st !! rate_key userId = Some d ->
             forall n m, (n, m) ∈ log -> n + windowMs <= d).

End RateLimit.

(* ===================================================================== *)
(** * Properties *)
(* ===================================================================== *)

(** Case analysis on the innermost scrutinee of the goal. *)
Ltac case_split :=
  match goal with
  | |- context [match ?x with _ => _ end] =>
      lazymatch x with
      | context [match _ with _ => _ end] => fail
      | _ => destruct x eqn:?; simpl
      end
  end.

(** ** The log of an execution *)

Lemma perform_trace {X : Type} (o : op X) (w : World) :
  trace (perform o w).2 = trace w.
Proof.
  destruct o; simpl; try reflexivity;
    repeat match goal with
           | |- context [match ?x with _ => _ end] => destruct x; simpl
           end; reflexivity.
Qed.

Lemma exec_trace {X : Type} (o : op X) (w : World) :
  trace (exec o w).2 = (trace w ++ [outcome o (exec o w).1])%list.
Proof.
  unfold exec.
  pose proof (perform_trace o (with_faults (drop 1) w)) as Hp.
  destruct (perform o (with_faults (drop 1) w)) as [r w'].
  destruct (faults w) as [|[e|] rest]; simpl in *; now rewrite ?Hp.
Qed.

(** Soundness of [all_runs]: it speaks of every execution from every world. *)
Lemma all_runs_sound {A : Type} (p : Prog A) :
  forall (Q : list entry -> Exn + A -> Prop) (w : World),
    all_runs p Q ->
    exists t, trace (run p w).2 = (trace w ++ t)%list /\ Q t (run p w).1.
Proof.
  induction p as [A a|A e|A X o k IH|A B body IHb handler IHh k IHk]; intros Q w H; simpl in *.
  - exists []. now rewrite app_nil_r.
  - exists []. now rewrite app_nil_r.
  - destruct H as [Hraise Hcont].
    pose proof (exec_trace o w) as Ht.
    destruct (exec o w) as [[e|x] w'] eqn:E; simpl in *.
    + exists [Raised o e]. auto.
    + destruct (IH x _ w' (Hcont x)) as (t & Ht' & HQ).
      exists (Did o :: t). split; [|exact HQ].
      rewrite Ht', Ht. now rewrite <- app_assoc.
  - destruct (IHb _ w H) as (t & Ht & HQ).
    destruct (run body w) as [[e|b] w1]; simpl in *.
    + destruct (IHh e _ w1 HQ) as (t1 & Ht1 & HQ1).
      destruct (run (handler e) w1) as [[e'|b] w2]; simpl in *.
      * exists (t ++ t1)%list. split; [|exact HQ1].
        rewrite Ht1, Ht. now rewrite <- app_assoc.
      * destruct (IHk b _ w2 HQ1) as (t2 & Ht2 & HQ2).
        exists (t ++ t1 ++ t2)%list. split; [|exact HQ2].
        rewrite Ht2, Ht1, Ht. now rewrite <- !app_assoc.
    + destruct (IHk b _ w1 HQ) as (t' & Ht' & HQ').
      exists (t ++ t')%list. split; [|exact HQ'].
      rewrite Ht', Ht. now rewrite <- app_assoc.
Qed.

Lemma all_runs_since {A : Type} (p : Prog A) (Q : list entry -> Exn + A -> Prop) (w : World) :
  all_runs p Q -> Q (since w (run p w).2) (run p w).1.
Proof.
  intros H. destruct (all_runs_sound p Q w H) as (t & Ht & HQ).
  unfold since. rewrite Ht, drop_app_length. exact HQ.
Qed.

Lemma all_runs_mono {A : Type} (p : Prog A) :
  forall (Q Q' : list entry -> Exn + A -> Prop),
    (forall t r, Q t r -> Q' t r) -> all_runs p Q -> all_runs p Q'.
Proof.
  induction p as [A a|A e|A X o k IH|A B body IHb handler IHh k IHk]; intros Q Q' HQ H; simpl in *.
  - auto.
  - auto.
  - destruct H as [Hraise Hcont]. split; [auto|].
    intros x. eapply IH; [|apply Hcont]. simpl. auto.
  - eapply IHb; [|exact H]. simpl. intros t [e|b] Ht.
    + eapply IHh; [|exact Ht]. simpl. intros t1 [e'|b] Ht1; [auto|].
      eapply IHk; [|exact Ht1]. simpl. auto.
    + eapply IHk; [|exact Ht]. simpl. auto.
Qed.

(** Sequencing: the executions of [p] followed by those of [f]. *)
Lemma all_runs_bind {A B : Type} (p : Prog A) :
  forall (f : A -> Prog B) (Q : list entry -> Exn + B -> Prop),
    all_runs p (fun t r =>
      match r with
      | inl e => Q t (inl e)
      | inr a => all_runs (f a) (fun t' r' => Q (t ++ t')%list r')
      end) ->
    all_runs (bind p f) Q.
Proof.
  induction p as [A a|A e|A X o k IH|A C body IHb handler IHh k IHk]; intros f Q H; simpl in *.
  - exact H.
  - exact H.
  - destruct H as [Hraise Hcont]. split; [exact Hraise|].
    intros x. apply IH. eapply all_runs_mono; [|apply Hcont].
    simpl. intros t [e|a]; auto.
  - eapply all_runs_mono; [|exact H]. simpl. intros t [e|c] Ht.
    + eapply all_runs_mono; [|exact Ht]. simpl. intros t1 [e'|c] Ht1; [exact Ht1|].
      apply IHk. eapply all_runs_mono; [|exact Ht1]. simpl.
      intros t2 [e2|a]; [auto|].
      apply all_runs_mono. intros t3 r3. now rewrite <- !app_assoc.
    + apply IHk. eapply all_runs_mono; [|exact Ht]. simpl.
      intros t2 [e2|a]; [auto|].
      apply all_runs_mono. intros t3 r3. now rewrite <- !app_assoc.
Qed.

(** ** Tactics for [all_runs] *)

Lemma generateDesign_runs (input : DesignInput) :
  all_runs (generateDesign input) (fun t r =>
    (exists g, r = inr g) /\ (t = [Did OpenAIChat] \/ exists e, t = [Raised OpenAIChat e])).
Proof.
  unfold generateDesign, try_catch, generateMockDesign. simpl. split.
  - intros e. simpl. eauto.
  - intros x. unfold mbind, Prog_bind, mret, Prog_ret, lift. simpl.
    repeat case_split; eauto.
Qed.

(** Walks through every execution of a handler; [leaf] closes the property of
    a finished execution. *)
Ltac explore leaf :=
  simpl;
  lazymatch goal with
  | |- all_runs (bind (generateDesign _) _) _ =>
      apply all_runs_bind; eapply all_runs_mono; [|apply generateDesign_runs];
      intros ? ? [[? ->] [->|[? ->]]]; explore leaf
  | |- all_runs _ _ => fail "stuck"
  | |- _ /\ _ => split; explore leaf
  | |- forall _, _ => intro; explore leaf
  | |- _ => leaf
  end.

Ltac by_computation :=
  vm_compute; repeat split; try reflexivity; try (intros H; discriminate H).

Ltac unfold_handler :=
  unfold handler, designWorker, diagramWorker, try_catch, updateJobStatus;
  unfold mbind, Prog_bind, mret, Prog_ret, call.

(** ** Progress and status of a handler execution (C8) *)

Section HandlerLaws.

#[local] Opaque generateDesign.

Lemma handler_progress (d : delivery) :
  all_runs (handler d) (progress_law (job_of d) (steps_of d)).
Proof.
  destruct d; unfold_handler;
    explore ltac:(unfold progress_law; vm_compute; repeat split; intros;
                  first [reflexivity | congruence]).
Qed.

End HandlerLaws.

(** C8: a job marked COMPLETED can still be marked FAILED.  In every
    execution of either handler, from every world and under every failure of
    the infrastructure, every status write is for the handler's own job,
    intermediate values go with PROCESSING only, COMPLETED goes with 100 and
    FAILED with 0, the values written while PROCESSING and on COMPLETED never
    decrease, no PROCESSING write follows a terminal one, and the last write
    is COMPLETED/100 when the handler returns and FAILED/0 in the cache when
    it raises.  The terminal state is not final, though: the update of the row
    and [redis.quit()] are awaited inside the [try] block after COMPLETED/100
    was written, and when one of them raises the catch block writes FAILED/0
    over it; a FAILED write follows a COMPLETED one in no other execution.
    When [redis.quit()] raises in [designWorker job1], the statuses written are
    six PROCESSING, two COMPLETED and two FAILED, the cache ends FAILED/0, the
    row FAILED with progress 100, and the design version stays stored. *)
Theorem completed_is_not_final :
  (forall d w,
     progress_law (job_of d) (steps_of d) (since w (run (handler d) w).2) (run (handler d) w).1) /\
  (let r := run (designWorker job1) world1_quit_fails in
   r.1 = inl (Error "Connection is closed.") /\
   omap wr_status (writes (since world1_quit_fails r.2))
   = ["PROCESSING"; "PROCESSING"; "PROCESSING"; "PROCESSING"; "PROCESSING"; "PROCESSING";
      "COMPLETED"; "COMPLETED"; "FAILED"; "FAILED"] /\
   omap wr_progress (writes (since world1_quit_fails r.2)) = [10; 10; 30; 50; 70; 85; 100; 100; 0] /\
   cached "c0" r.2 = Some (Some "FAILED", Some "0", Some "Connection is closed.") /\
   stored "c0" r.2 = Some (FAILED, 100, Some "Connection is closed.") /\
   length (design_versions r.2) = 1%nat).
Proof.
  split.
  - intros d w.
    apply (all_runs_since (handler d) (progress_law (job_of d) (steps_of d))), handler_progress.
  - vm_compute. repeat split; reflexivity.
Qed.

(** ** Version numbers under concurrent executions (C1) *)

Lemma grows_refl n : grows n n.
Proof. intros rid. lia. Qed.

Lemma grows_trans n1 n2 n3 : grows n1 n2 -> grows n2 n3 -> grows n1 n3.
Proof. intros H1 H2 rid. specialize (H1 rid). specialize (H2 rid). lia. Qed.

Lemma allocation_safe_mono {A : Type} (p : Prog A) :
  forall n n', grows n n' -> allocation_safe p n -> allocation_safe p n'.
Proof.
  induction p as [A a|A e|A X o k IH|A B body IHb handler IHh k IHk]; intros n n' Hg H; simpl in *.
  - exact I.
  - exact I.
  - destruct H as [Hpre Hk]. split.
    + destruct o; simpl in *; try exact I. specialize (Hg rid). lia.
    + intros n'' x Hg' Hx. apply Hk; [eapply grows_trans; eassumption|exact Hx].
  - destruct H as (Hb & Hh & Hk). split; [eapply IHb; eassumption|]. split.
    + intros e n'' Hg'. apply Hh. eapply grows_trans; eassumption.
    + intros b n'' Hg'. apply Hk. eapply grows_trans; eassumption.
Qed.

Lemma allocation_safe_bind {A B : Type} (p : Prog A) :
  forall (f : A -> Prog B) n,
    allocation_safe p n ->
    (forall a n', grows n n' -> allocation_safe (f a) n') ->
    allocation_safe (bind p f) n.
Proof.
  induction p as [A a|A e|A X o k IH|A C body IHb handler IHh k IHk]; intros f n H Hf; simpl in *.
  - apply Hf, grows_refl.
  - exact I.
  - destruct H as [Hpre Hk]. split; [exact Hpre|].
    intros n' x Hg Hx. apply IH; [now apply Hk|].
    intros a n'' Hg'. apply Hf. eapply grows_trans; eassumption.
  - destruct H as (Hb & Hh & Hk). split; [exact Hb|]. split; [exact Hh|].
    intros b n' Hg. apply IHk; [now apply Hk|].
    intros a n'' Hg'. apply Hf. eapply grows_trans; eassumption.
Qed.

Lemma latest_elem_of {A : Type} (ver : A -> Z) (l : list A) (y : A) :
  latest ver l = Some y -> y ∈ l.
Proof.
  revert y. induction l as [|x r IH]; intros y; simpl; [discriminate|].
  destruct (latest ver r) as [z|].
  - destruct (ver x <? ver z); intros [= <-]; [right; now apply IH|left].
  - intros [= <-]. left.
Qed.

Lemma latest_max {A : Type} (ver : A -> Z) (l : list A) (x : A) :
  x ∈ l -> exists y, latest ver l = Some y /\ ver x <= ver y.
Proof.
  induction l as [|a r IH]; intros Hx; [now apply elem_of_nil in Hx|].
  apply elem_of_cons in Hx. simpl.
  destruct (latest ver r) as [z|] eqn:E.
  - destruct (ver a <? ver z) eqn:Hlt.
    + exists z. split; [reflexivity|]. destruct Hx as [->|Hx]; [lia|].
      destruct (IH Hx) as (y & [= <-] & Hy). exact Hy.
    + exists a. split; [reflexivity|]. destruct Hx as [->|Hx]; [lia|].
      destruct (IH Hx) as (y & [= <-] & Hy). lia.
  - exists a. split; [reflexivity|]. destruct Hx as [->|Hx]; [lia|].
    destruct (IH Hx) as (y & Hy & _). discriminate Hy.
Qed.

Lemma gapless_version_range (w : World) (rid : string) (r : DesignVersionRow) :
  gapless w -> r ∈ design_versions_of rid w -> 1 <= dv_version r <= Z.of_nat (count rid w).
Proof.
  intros Hg Hr.
  assert (Hin : dv_version r ∈ map dv_version (design_versions_of rid w)).
  { apply list_elem_of_In, in_map, list_elem_of_In, Hr. }
  rewrite Hg in Hin. apply elem_of_seqZ in Hin. lia.
Qed.

Lemma gapless_taken (w : World) (rid : string) (v : Z) :
  gapless w -> 1 <= v <= Z.of_nat (count rid w) ->
  existsb (fun r => String.eqb (dv_designRequestId r) rid && (dv_version r =? v))
    (design_versions w) = true.
Proof.
  intros Hg Hv.
  assert (Hin : v ∈ map dv_version (design_versions_of rid w)).
  { rewrite Hg. apply elem_of_seqZ. lia. }
  apply list_elem_of_In, in_map_iff in Hin. destruct Hin as (r & Hr & Hin).
  apply list_elem_of_In, list_elem_of_filter in Hin. destruct Hin as [Hrid Hin].
  apply existsb_exists. exists r. split; [now apply list_elem_of_In|].
  rewrite Hrid, String.eqb_refl, Hr, Z.eqb_refl. reflexivity.
Qed.

(** What an operation does to [design_versions]. *)
Lemma exec_design_versions {X : Type} (o : op X) (w : World) :
  match o in op X return Exn + X -> Prop with
  | DesignVersionCreate rid v d => fun r =>
      match r with
      | inl _ => design_versions (exec o w).2 = design_versions w
      | inr row =>
          design_versions (exec o w).2 = (design_versions w ++ [row])%list /\
          dv_designRequestId row = rid /\ dv_version row = v /\
          existsb (fun r => String.eqb (dv_designRequestId r) rid && (dv_version r =? v))
            (design_versions w) = false
      end
  | _ => fun _ => design_versions (exec o w).2 = design_versions w
  end (exec o w).1.
Proof.
  unfold exec.
  destruct (faults w) as [|[e|] rest]; destruct o; simpl; try reflexivity;
    repeat case_split; auto.
Qed.

Lemma exec_answers {X : Type} (o : op X) (w : World) (x : X) :
  gapless w -> (exec o w).1 = inr x -> answers o (counts w) x.
Proof.
  intros Hg. unfold exec.
  destruct o; simpl; try (intros; exact I).
  assert (H : forall w0, design_versions w0 = design_versions w ->
           latest dv_version (design_versions_of rid w0) = x ->
           match x with
           | Some r => 1 <= dv_version r <= Z.of_nat (counts w rid)
           | None => True
           end).
  { intros w0 Hw0 Hx. destruct x as [r|]; [|exact I].
    apply latest_elem_of in Hx. unfold design_versions_of in Hx. rewrite Hw0 in Hx.
    now apply gapless_version_range. }
  destruct (faults w) as [|[e|] rest]; simpl.
  - intros [= Hx]. now apply (H (with_faults (drop 1) w)).
  - discriminate.
  - intros [= Hx]. now apply (H (with_faults (drop 1) w)).
Qed.

Lemma created_outcome {X : Type} (o : op X) (r : Exn + X) (rid : string) :
  created rid (outcome o r) =
  match o, r with
  | DesignVersionCreate rid' _ _, inr _ => String.eqb rid' rid
  | _, _ => false
  end.
Proof. destruct o, r; reflexivity. Qed.

(** One operation keeps the versions gapless and counted by the log. *)
Lemma exec_gapless {X : Type} (o : op X) (w : World) (r : Exn + X) (w' : World) :
  exec o w = (r, w') -> gapless w -> allocates o (counts w) ->
  gapless w' /\
  forall rid, count rid w' = (count rid w + creations rid [outcome o r])%nat.
Proof.
  intros E Hg Hpre.
  pose proof (exec_design_versions o w) as He. rewrite E in He. simpl in He.
  assert (Hsame : design_versions w' = design_versions w ->
                  (forall rid, created rid (outcome o r) = false) ->
                  gapless w' /\
                  forall rid, count rid w' = (count rid w + creations rid [outcome o r])%nat).
  { intros Hdv Hc. split.
    - intros rid. unfold count, design_versions_of. rewrite Hdv. apply Hg.
    - intros rid. unfold count, design_versions_of, creations. rewrite Hdv. simpl.
      rewrite Hc. simpl. lia. }
  destruct o;
    try (apply Hsame; [exact He|intros; rewrite created_outcome; now destruct r]).
  destruct r as [e|row].
  - apply Hsame; [exact He|reflexivity].
  - simpl in Hpre. destruct He as (Hdv & Hrid & Hver & Hfree).
    assert (Hv : version = Z.of_nat (count rid w) + 1).
    { destruct (Z.eq_dec version (Z.of_nat (count rid w) + 1)) as [|Hne]; [assumption|].
      rewrite gapless_taken in Hfree; [discriminate|exact Hg|unfold counts in Hpre; lia]. }
    assert (Hof : forall rid', design_versions_of rid' w' =
              (design_versions_of rid' w ++ if decide (rid = rid') then [row] else [])%list).
    { intros rid'. unfold design_versions_of. rewrite Hdv, filter_app.
      f_equal. destruct (decide (rid = rid')) as [<-|Hne].
      - now rewrite filter_cons_True.
      - rewrite filter_cons_False; [reflexivity|]. now rewrite Hrid. }
    split.
    + intros rid'. unfold count. rewrite Hof.
      destruct (decide (rid = rid')) as [<-|Hne]; [|rewrite app_nil_r; apply Hg].
      rewrite length_app, map_app, Hg. simpl length.
      rewrite Nat.add_1_r, seqZ_S. simpl. now rewrite Hver, Hv, Z.add_comm.
    + intros rid'. unfold count, creations. rewrite Hof, length_app. simpl.
      destruct (decide (rid = rid')) as [<-|Hne].
      * now rewrite String.eqb_refl.
      * apply String.eqb_neq in Hne. now rewrite Hne.
Qed.

Lemma creations_app (rid : string) (t1 t2 : list entry) :
  creations rid (t1 ++ t2) = (creations rid t1 + creations rid t2)%nat.
Proof. unfold creations. now rewrite List.filter_app, length_app. Qed.

Lemma advances_refl (w : World) : advances w w.
Proof.
  exists []. split; [now rewrite app_nil_r|]. intros rid. unfold creations. simpl. lia.
Qed.

Lemma advances_trans (w1 w2 w3 : World) :
  advances w1 w2 -> advances w2 w3 -> advances w1 w3.
Proof.
  intros (t1 & Ht1 & Hc1) (t2 & Ht2 & Hc2). exists (t1 ++ t2)%list. split.
  - now rewrite Ht2, Ht1, <- app_assoc.
  - intros rid. rewrite Hc2, Hc1, creations_app. lia.
Qed.

Lemma advances_grows (w w' : World) : advances w w' -> grows (counts w) (counts w').
Proof. intros (t & _ & Hc) rid. unfold counts. rewrite Hc. lia. Qed.

Lemma answers_mono {X : Type} (o : op X) (n n' : string -> nat) (x : X) :
  grows n n' -> answers o n x -> answers o n' x.
Proof.
  intros Hg. destruct o; simpl; auto.
  destruct x as [r|]; [|auto]. specialize (Hg rid). lia.
Qed.

(** One move of a program in flight keeps the versions gapless and the
    program safe. *)
Lemma step_safe {A : Type} (p : Prog A) :
  forall w, gapless w -> allocation_safe p (counts w) ->
    gapless (step p w).2 /\ advances w (step p w).2 /\
    allocation_safe (step p w).1 (counts (step p w).2).
Proof.
  induction p as [A a|A e|A X o k IH|A B body IHb handler IHh k IHk]; intros w Hg H.
  - simpl. auto using advances_refl.
  - simpl. auto using advances_refl.
  - simpl in H. destruct H as [Hpre Hk]. simpl.
    pose proof (exec_trace o w) as Ht.
    pose proof (exec_answers o w) as Ha.
    destruct (exec o w) as [r w'] eqn:E. simpl in Ht, Ha.
    destruct (exec_gapless o w r w' E Hg Hpre) as [Hg' Hc].
    assert (Hadv : advances w w') by (exists [outcome o r]; auto).
    destruct r as [e|x]; simpl; (split; [exact Hg'|]); (split; [exact Hadv|]); [exact I|].
    apply Hk; [now apply advances_grows|].
    eapply answers_mono; [apply advances_grows, Hadv|]. now apply Ha.
  - simpl in H. destruct H as (Hb & Hh & Hk).
    specialize (IHb w Hg Hb). destruct IHb as (Hg' & Hadv & Hb').
    destruct body as [B b|B e|B X o kb|B C body' handler' kb]; simpl.
    + split; [exact Hg|]. split; [apply advances_refl|]. apply Hk, grows_refl.
    + split; [exact Hg|]. split; [apply advances_refl|].
      apply allocation_safe_bind; [apply Hh, grows_refl|exact Hk].
    + split; [exact Hg'|]. split; [exact Hadv|]. simpl. split; [exact Hb'|]. split.
      * intros e n' Hn. apply Hh. eapply grows_trans; [apply advances_grows, Hadv|exact Hn].
      * intros b n' Hn. apply Hk. eapply grows_trans; [apply advances_grows, Hadv|exact Hn].
    + split; [exact Hg'|]. split; [exact Hadv|]. simpl. split; [exact Hb'|]. split.
      * intros e n' Hn. apply Hh. eapply grows_trans; [apply advances_grows, Hadv|exact Hn].
      * intros b n' Hn. apply Hk. eapply grows_trans; [apply advances_grows, Hadv|exact Hn].
Qed.

Lemma pool_lookup {A : Type} (P : A -> Prop) (l : list A) (i : nat) (x : A) :
  Forall P l -> l !! i = Some x -> P x.
Proof.
  intros H. revert i. induction H as [|y l Hy Hl IH]; intros [|i]; simpl; try discriminate.
  - now intros [= <-].
  - apply IH.
Qed.

Lemma pool_insert {A : Type} (P : A -> Prop) (l : list A) (i : nat) (x : A) :
  Forall P l -> P x -> Forall P (<[i := x]> l).
Proof.
  intros H Hx. revert i. induction H as [|y l Hy Hl IH]; intros [|i]; simpl; constructor; auto.
Qed.

Lemma step_at_safe (i : nat) (s : System) :
  pool_safe s -> pool_safe (step_at i s) /\ advances s.1 (step_at i s).1.
Proof.
  intros [Hg Hpool]. unfold step_at.
  destruct (s.2 !! i) as [p|] eqn:Hi; [|split; [exact (conj Hg Hpool)|apply advances_refl]].
  assert (Hp : allocation_safe p (counts s.1)).
  { exact (pool_lookup _ _ _ _ Hpool Hi). }
  destruct (step_safe p s.1 Hg Hp) as (Hg' & Hadv & Hp').
  destruct (step p s.1) as [p' w'] eqn:E. simpl in *.
  split; [|exact Hadv]. split; [exact Hg'|]. simpl.
  apply pool_insert; [|exact Hp'].
  eapply List.Forall_impl; [|exact Hpool].
  intros q Hq. eapply allocation_safe_mono; [apply advances_grows, Hadv|exact Hq].
Qed.

Lemma run_schedule_safe (schedule : list nat) :
  forall s, pool_safe s ->
    pool_safe (run_schedule schedule s) /\ advances s.1 (run_schedule schedule s).1.
Proof.
  induction schedule as [|i rest IH]; intros s Hs; simpl.
  - split; [exact Hs|apply advances_refl].
  - destruct (step_at_safe i s Hs) as [Hs' Hadv].
    destruct (IH _ Hs') as [Hs'' Hadv'].
    split; [exact Hs''|]. eapply advances_trans; eassumption.
Qed.

Lemma generateDesign_safe (input : DesignInput) (n : string -> nat) :
  allocation_safe (generateDesign input) n.
Proof.
  unfold generateDesign, try_catch, generateMockDesign.
  unfold mbind, Prog_bind, mret, Prog_ret, lift. simpl.
  split; [|split; intros; exact I]. split; [exact I|].
  intros n' x _ _. repeat case_split; exact I.
Qed.

Ltac safe_walk leaf :=
  simpl;
  lazymatch goal with
  | |- allocation_safe (bind (generateDesign _) _) _ =>
      apply allocation_safe_bind; [apply generateDesign_safe|intros ? ? ?; safe_walk leaf]
  | |- allocation_safe _ _ => fail "stuck"
  | |- True => exact I
  | |- _ /\ _ => split; safe_walk leaf
  | |- forall _, _ => intro; safe_walk leaf
  | |- _ => leaf
  end.

Ltac version_bound :=
  unfold next_version in *;
  try lazymatch goal with
      | |- context [Z.of_nat (_ ?rid)] =>
          repeat match goal with
                 | H : grows _ _ |- _ => specialize (H rid)
                 end
      end;
  repeat match goal with
         | x : option DesignVersionRow |- _ => destruct x
         end;
  simpl in *; lia.

Section HandlerAllocation.

#[local] Opaque generateDesign.

(** Every insert of a handler asks for the version after the latest it
    read. *)
Lemma handler_safe (d : delivery) (n : string -> nat) : allocation_safe (handler d) n.
Proof.
  destruct d; unfold_handler; safe_walk version_bound.
Qed.

End HandlerAllocation.

Lemma no_versions (rid : string) (l : list DesignVersionRow) :
  rid ∉ map dv_designRequestId l ->
  filter (fun r => dv_designRequestId r = rid) l = [].
Proof.
  induction l as [|r l IH]; intros Hout; [reflexivity|].
  simpl in Hout. rewrite not_elem_of_cons in Hout. destruct Hout as [Hne Hout].
  rewrite filter_cons_False by (intros Heq; apply Hne; now rewrite Heq). now apply IH.
Qed.

Lemma gapless_check (w : World) :
  gapless_on (map dv_designRequestId (design_versions w)) w = true -> gapless w.
Proof.
  intros H rid. unfold gapless_on in H. rewrite forallb_forall in H.
  destruct (decide (rid ∈ map dv_designRequestId (design_versions w))) as [Hin|Hout].
  - apply list_elem_of_In in Hin. apply H in Hin. now apply bool_decide_eq_true in Hin.
  - unfold count, design_versions_of. now rewrite no_versions.
Qed.

Lemma start_safe (w : World) (ds : list delivery) : gapless w -> pool_safe (start w ds).
Proof.
  intros Hg. split; [exact Hg|]. simpl.
  induction ds as [|d ds IH]; simpl; constructor; [apply handler_safe|exact IH].
Qed.

(** C1, as stated, fails on the count: two refinements of [req1] both
    insert their design version (2 and 3), then race on the diagram; the loser
    is FAILED, and its design version stays.  Three versions exist for two
    generations that succeeded. *)
Lemma versions_outnumber_successes :
  let s := run_schedule racing_diagrams (start world3 refinements) in
  forallb finished s.2 = true /\
  map dv_version (design_versions_of "req1" s.1) = [1; 2; 3] /\
  completed_generations "req1" s.1 = 2%nat /\
  map dv_version (design_versions_of "req1" s.1)
    <> seqZ 1 (Z.of_nat (completed_generations "req1" s.1)).
Proof.
  vm_compute. repeat split. discriminate.
Qed.

(** C1, amended: whatever the deliveries and however their operations
    interleave, the design versions of every request, in insertion order, are
    1, 2, ..., N, where N counts the inserts into [design_versions] that
    completed for the request (those of executions that failed afterwards
    included): each completed insert carried the version after the latest,
    none repeats and none is skipped. *)
Theorem versions_gapless (ds : list delivery) (schedule : list nat) (w0 : World) (rid : string) :
  gapless w0 ->
  let w := (run_schedule schedule (start w0 ds)).1 in
  map dv_version (design_versions_of rid w)
  = seqZ 1 (Z.of_nat (count rid w0 + creations rid (since w0 w))).
Proof.
  intros Hg w.
  destruct (run_schedule_safe schedule (start w0 ds) (start_safe w0 ds Hg))
    as [[Hg' _] (t & Ht & Hc)].
  fold w in Hg', Ht, Hc. simpl in Ht, Hc.
  unfold since. rewrite Ht, drop_app_length, <- Hc. apply Hg'.
Qed.

Lemma versions_gapless_witness :
  gapless world3 /\
  map dv_version
    (design_versions_of "req1" (run_schedule racing_inserts (start world3 refinements)).1)
  = seqZ 1 (Z.of_nat (count "req1" world3 +
       creations "req1"
         (since world3 (run_schedule racing_inserts (start world3 refinements)).1))).
Proof.
  assert (H : gapless world3) by (apply gapless_check; vm_compute; reflexivity).
  split; [exact H|].
  exact (versions_gapless refinements racing_inserts world3 "req1" H).
Defined.

(** ** Equations of [run] and [exec] *)

Lemma run_call {X : Type} (o : op X) (w : World) : run (call o) w = exec o w.
Proof. unfold call. simpl. now destruct (exec o w) as [[e|x] w']. Qed.

Lemma run_bind {A B : Type} (p : Prog A) :
  forall (f : A -> Prog B) (w : World),
    run (bind p f) w =
    match run p w with
    | (inl e, w') => (inl e, w')
    | (inr a, w') => run (f a) w'
    end.
Proof.
  induction p as [A a|A e|A X o k IH|A C body IHb handler IHh k IHk]; intros f w; simpl.
  - reflexivity.
  - reflexivity.
  - destruct (exec o w) as [[e|x] w']; [reflexivity|apply IH].
  - destruct (run body w) as [[e|c] w1].
    + destruct (run (handler e) w1) as [[e'|c] w2]; [reflexivity|apply IHk].
    + apply IHk.
Qed.

Lemma run_try_catch {A : Type} (body : Prog A) (handler : Exn -> Prog A) (w : World) :
  run (try_catch body handler) w =
  match run body w with
  | (inl e, w') => run (handler e) w'
  | (inr a, w') => (inr a, w')
  end.
Proof.
  unfold try_catch. simpl. destruct (run body w) as [[e|a] w1]; [|reflexivity].
  now destruct (run (handler e) w1) as [[e'|a] w2].
Qed.

(** An operation that completed was let through and performed. *)
Lemma exec_inr {X : Type} (o : op X) (w : World) (x : X) (w' : World) :
  exec o w = (inr x, w') ->
  exists w1, perform o (with_faults (drop 1) w) = (inr x, w1) /\ w' = logged (Did o) w1.
Proof.
  unfold exec. destruct (faults w) as [|[e|] rest];
    destruct (perform o (with_faults (drop 1) w)) as [[e'|x'] w1]; simpl;
    intros [= <- <-] || discriminate; eauto.
Qed.

(** An operation that raised had no effect beyond what [perform] does on a
    failure. *)
Lemma exec_inl {X : Type} (o : op X) (w : World) (e : Exn) (w' : World) :
  exec o w = (inl e, w') ->
  exists w1, w' = logged (Raised o e) w1 /\
    ((exists rest, faults w = Some e :: rest) /\ w1 = with_faults (drop 1) w \/
     perform o (with_faults (drop 1) w) = (inl e, w1)).
Proof.
  unfold exec. destruct (faults w) as [|[e0|] rest];
    destruct (perform o (with_faults (drop 1) w)) as [[e'|x'] w1]; simpl;
    intros [= <- <-] || discriminate; eauto 6.
Qed.

(** With a sound infrastructure, an operation is what it performs. *)
Lemma exec_sound {X : Type} (o : op X) (w : World) :
  faults w = [] ->
  exec o w = ((perform o (with_faults (drop 1) w)).1,
              logged (outcome o (perform o (with_faults (drop 1) w)).1)
                     (perform o (with_faults (drop 1) w)).2).
Proof.
  intros H. unfold exec. rewrite H.
  now destruct (perform o (with_faults (drop 1) w)).
Qed.

(** ** [enqueueDesignGeneration] (C5) *)

Ltac unfold_prog :=
  unfold enqueueDesignGeneration, setJobStatus, getJobStatus, refineDesign, getStatus;
  unfold mbind, Prog_bind, mret, Prog_ret.

(** Runs the next operation of the program in hypothesis [H]. *)
Ltac next_op H E :=
  rewrite ?run_bind, run_call in H;
  match type of H with
  | context [exec ?o ?w] => destruct (exec o w) as [[?e|?x] ?w] eqn:E
  end.

Lemma enqueue_success (d : DesignPayload) (w : World) (id : string) (w' : World) :
  run (enqueueDesignGeneration d) w = (inr id, w') ->
  jobs w !! id = None /\
  (exists row,
     jobs w' = <[id := row]> (jobs w) /\
     job_id row = id /\ job_type row = GENERATE_DESIGN /\ job_status row = PENDING /\
     job_progress row = 0 /\ job_designRequestId row = designRequestId d /\
     job_metadata row = DesignMeta d) /\
  designQueue w' = (designQueue w ++ [("generate", {| jobId := id; data := d |})])%list /\
  (exists h,
     cache w' !! job_key id = Some h /\ h !! "status" = Some "PENDING" /\
     h !! "progress" = Some "0" /\ h !! "message" = Some "Job queued") /\
  ttl w' !! job_key id = Some 86400 /\
  since w w' =
    [Did (JobCreate GENERATE_DESIGN PENDING (designRequestId d) (DesignMeta d));
     Did (DesignQueueAdd "generate" {| jobId := id; data := d |});
     Did (RedisHset (job_key id)
            [("status", "PENDING"); ("progress", "0"); ("message", "Job queued")]
            ["updatedAt"]);
     Did (RedisExpire (job_key id) 86400)].
Proof.
  unfold_prog. intros H.
  next_op H E1; [discriminate H|].
  next_op H E2; [discriminate H|].
  next_op H E3; [discriminate H|].
  next_op H E4; [discriminate H|].
  simpl in H. injection H as <- <-.
  apply exec_inr in E1, E2, E3, E4.
  destruct E1 as (w1' & P1 & ->), E2 as (w2' & P2 & ->), E3 as (w3' & P3 & ->),
    E4 as (w4' & P4 & ->).
  simpl in P1, P2, P3, P4.
  destruct (design_requests w !! designRequestId d); [|discriminate P1].
  destruct (jobs w !! cuid (seed w)) eqn:Hfree; [discriminate P1|].
  injection P1 as <- <-. injection P2 as ? <-. injection P3 as ? <-.
  simpl in P4. rewrite lookup_insert_eq in P4. injection P4 as ? <-. simpl.
  split; [exact Hfree|].
  split; [eexists; split; [reflexivity|]; repeat split; reflexivity|].
  split; [reflexivity|].
  split;
    [eexists; split; [apply lookup_insert_eq|]; unfold hset_fields; simpl;
     repeat split; rewrite ?lookup_insert_ne by discriminate; apply lookup_insert_eq|].
  split; [apply lookup_insert_eq|].
  unfold since; simpl. rewrite <- !app_assoc, drop_app_length. reflexivity.
Qed.

Lemma perform_create_fails (d : DesignPayload) (w : World) (e : Exn) (w1 : World) :
  perform (JobCreate GENERATE_DESIGN PENDING (designRequestId d) (DesignMeta d)) w = (inl e, w1) ->
  w1 = with_seed S w.
Proof.
  simpl. repeat case_split; now intros [= <- <-].
Qed.

Lemma enqueue_create_fails (d : DesignPayload) (w : World) (e : Exn) (w1 : World) :
  exec (JobCreate GENERATE_DESIGN PENDING (designRequestId d) (DesignMeta d)) w = (inl e, w1) ->
  run (enqueueDesignGeneration d) w = (inl e, w1) /\
  designQueue w1 = designQueue w /\ jobs w1 = jobs w /\ cache w1 = cache w /\
  forallb (fun x => match x with Did _ => false | Raised _ _ => true end) (since w w1) = true.
Proof.
  intros E. unfold_prog. rewrite run_bind, run_call, E.
  split; [reflexivity|].
  apply exec_inl in E. destruct E as (w0 & -> & [[_ ->]|E]).
  - unfold since. simpl. rewrite drop_app_length. auto.
  - apply perform_create_fails in E. subst w0.
    unfold since. simpl. rewrite drop_app_length. auto.
Qed.

(** Operations never remove a job row, and only [DesignQueueAdd] adds to the
    design queue. *)
Lemma exec_queue_sound {X : Type} (o : op X) (w : World) :
  queue_sound w ->
  match o with
  | DesignQueueAdd _ j => is_Some (jobs w !! jobId j)
  | _ => True
  end ->
  queue_sound (exec o w).2 /\
  forall k, is_Some (jobs w !! k) -> is_Some (jobs (exec o w).2 !! k).
Proof.
  intros Hq Hpre. unfold queue_sound, exec.
  assert (Hins : forall (i0 : string) (row : JobRow),
             (forall nm jb, (nm, jb) ∈ designQueue w ->
                            is_Some (<[i0 := row]> (jobs w) !! jobId jb)) /\
             (forall k0, is_Some (jobs w !! k0) -> is_Some (<[i0 := row]> (jobs w) !! k0))).
  { intros i0 row.
    assert (Hk : forall k0, is_Some (jobs w !! k0) -> is_Some (<[i0 := row]> (jobs w) !! k0)).
    { intros k0 Hk0. destruct (decide (i0 = k0)) as [<-|Hne];
        [rewrite lookup_insert_eq; eauto|now rewrite lookup_insert_ne by exact Hne]. }
    split; [|exact Hk]. intros nm jb Hin. apply Hk. now apply (Hq nm jb). }
  destruct (faults w) as [|[e|] rest]; destruct o; simpl; repeat case_split; simpl;
    try (split; [exact Hq|intros k0 Hk0; exact Hk0]);
    try (apply Hins).
  all: split; [|intros k0 Hk0; exact Hk0].
  all: intros nm jb Hin; apply elem_of_app in Hin; destruct Hin as [Hin|Hin];
    [now apply (Hq nm jb)|].
  all: apply list_elem_of_singleton in Hin; injection Hin as -> ->; exact Hpre.
Qed.

Lemma enqueue_queue_sound (d : DesignPayload) (w : World) :
  queue_sound w -> queue_sound (run (enqueueDesignGeneration d) w).2.
Proof.
  intros Hq. unfold_prog.
  rewrite run_bind, run_call.
  pose proof (exec_queue_sound
                (JobCreate GENERATE_DESIGN PENDING (designRequestId d) (DesignMeta d)) w Hq I)
    as [Hq1 _].
  destruct (exec (JobCreate GENERATE_DESIGN PENDING (designRequestId d) (DesignMeta d)) w)
    as [[e|job] w1] eqn:E1; [exact Hq1|]. simpl in Hq1.
  assert (Hjob : is_Some (jobs w1 !! job_id job)).
  { apply exec_inr in E1. destruct E1 as (w1' & P1 & ->). simpl in P1.
    destruct (design_requests w !! designRequestId d); [|discriminate P1].
    destruct (jobs w !! cuid (seed w)); [discriminate P1|].
    injection P1 as <- <-. simpl. rewrite lookup_insert_eq. eauto. }
  rewrite run_bind, run_call.
  pose proof (exec_queue_sound
                (DesignQueueAdd "generate" {| jobId := job_id job; data := d |}) w1 Hq1 Hjob)
    as [Hq2 _].
  destruct (exec (DesignQueueAdd "generate" {| jobId := job_id job; data := d |}) w1)
    as [[e|[]] w2]; [exact Hq2|]. simpl in Hq2.
  rewrite !run_bind, run_call.
  match goal with
  | |- context [exec ?o w2] =>
      pose proof (exec_queue_sound o w2 Hq2 I) as [Hq3 _];
      destruct (exec o w2) as [[e|[]] w3]; [exact Hq3|]; simpl in Hq3
  end.
  rewrite run_call.
  match goal with
  | |- context [exec ?o w3] =>
      pose proof (exec_queue_sound o w3 Hq3 I) as [Hq4 _];
      destruct (exec o w3) as [[e|[]] w4]; exact Hq4
  end.
Qed.

Lemma enqueue_returns (d : DesignPayload) (w : World) :
  faults w = [] -> is_Some (design_requests w !! designRequestId d) ->
  jobs w !! cuid (seed w) = None ->
  (run (enqueueDesignGeneration d) w).1 = inr (cuid (seed w)).
Proof.
  intros Hf [r Hr] Hid. unfold_prog. unfold call. simpl.
  rewrite exec_sound by exact Hf. simpl. rewrite Hr, Hid. simpl.
  rewrite exec_sound by (simpl; now rewrite Hf). simpl.
  rewrite exec_sound by (simpl; now rewrite Hf). simpl.
  rewrite exec_sound by (simpl; now rewrite Hf). reflexivity.
Qed.

(** C5: [enqueueDesignGeneration] creates exactly one Job row, PENDING
    with progress 0 and the payload as metadata, then pushes one queue entry
    carrying the job id and the payload, then seeds the Status Cache with
    PENDING, 0 and the queued message (kept 24 hours), and returns the job id; it
    does return when the store and the cache work; when the creation of the Job
    row fails, the operation fails with that error before any queue push; and
    no queue entry ever names a job without a row. *)
Theorem enqueueDesignGeneration_spec (d : DesignPayload) (w : World) :
  (forall id w',
     run (enqueueDesignGeneration d) w = (inr id, w') ->
     jobs w !! id = None /\
     (exists row,
        jobs w' = <[id := row]> (jobs w) /\
        job_id row = id /\ job_type row = GENERATE_DESIGN /\ job_status row = PENDING /\
        job_progress row = 0 /\ job_designRequestId row = designRequestId d /\
        job_metadata row = DesignMeta d) /\
     designQueue w' = (designQueue w ++ [("generate", {| jobId := id; data := d |})])%list /\
     (exists h,
        cache w' !! job_key id = Some h /\ h !! "status" = Some "PENDING" /\
        h !! "progress" = Some "0" /\ h !! "message" = Some "Job queued") /\
     ttl w' !! job_key id = Some 86400 /\
     since w w' =
       [Did (JobCreate GENERATE_DESIGN PENDING (designRequestId d) (DesignMeta d));
        Did (DesignQueueAdd "generate" {| jobId := id; data := d |});
        Did (RedisHset (job_key id)
               [("status", "PENDING"); ("progress", "0"); ("message", "Job queued")]
               ["updatedAt"]);
        Did (RedisExpire (job_key id) 86400)]) /\
  (faults w = [] -> is_Some (design_requests w !! designRequestId d) ->
   jobs w !! cuid (seed w) = None ->
   (run (enqueueDesignGeneration d) w).1 = inr (cuid (seed w))) /\
  (forall e w1,
     exec (JobCreate GENERATE_DESIGN PENDING (designRequestId d) (DesignMeta d)) w = (inl e, w1) ->
     run (enqueueDesignGeneration d) w = (inl e, w1) /\
     designQueue w1 = designQueue w /\ jobs w1 = jobs w /\ cache w1 = cache w /\
     forallb (fun x => match x with Did _ => false | Raised _ _ => true end) (since w w1) = true) /\
  (queue_sound w -> queue_sound (run (enqueueDesignGeneration d) w).2).
Proof.
  split; [intros id w'; apply enqueue_success|].
  split; [apply enqueue_returns|].
  split; [intros e w1; apply enqueue_create_fails|].
  apply enqueue_queue_sound.
Qed.

Lemma enqueueDesignGeneration_spec_witness :
  (run (enqueueDesignGeneration payload1) world0).1 = inr "c0" /\ queue_sound world1.
Proof.
  destruct (enqueueDesignGeneration_spec payload1 world0) as (_ & Hret & _ & Hq).
  split.
  - apply Hret; [reflexivity|exists req1; reflexivity|reflexivity].
  - apply Hq. intros name j Hin. vm_compute in Hin. inversion Hin.
Defined.

(** ** [refineDesign] without a prior version (C7) *)

(** C7: when the request has no DesignVersion, [refineDesign] fails, and
    it creates no Job row, pushes nothing on a queue and leaves the cache as it
    was: the only operation it performs is the lookup of the request; and when
    that lookup is let through and finds the caller's request in a project that
    is not a template, the error is "No existing design version to refine". *)
Theorem refine_requires_version (ctx : Context) (input : RefineInput) (w : World) :
  design_versions_of (ri_designRequestId input) w = [] ->
  let r := run (refineDesign ctx input) w in
  (exists e, r.1 = inl e) /\
  jobs r.2 = jobs w /\ designQueue r.2 = designQueue w /\ cache r.2 = cache w /\
  existsb enqueues (since w r.2) = false /\
  forall request project,
    next_sound w ->
    design_requests w !! ri_designRequestId input = Some request ->
    rq_userId request = userId ctx ->
    projects w !! rq_projectId request = Some project ->
    pj_isTemplate project = false ->
    r.1 = inl no_version_error /\
    since w r.2 = [Did (DesignRequestFindFirst (ri_designRequestId input) (userId ctx))].
Proof.
  intros Hnone r. subst r. unfold_prog. rewrite run_bind, run_call.
  destruct (exec (DesignRequestFindFirst (ri_designRequestId input) (userId ctx)) w)
    as [[e|found] w1] eqn:E.
  - apply exec_inl in E.
    destruct E as (w0 & -> & [[[rest Hf] ->]|P]); [|simpl in P; discriminate P].
    simpl. unfold since. simpl. rewrite drop_app_length. simpl.
    split; [eauto|]. do 4 (split; [reflexivity|]).
    intros request project Hs. unfold next_sound in Hs. now rewrite Hf in Hs.
  - apply exec_inr in E. destruct E as (w0 & P & ->). simpl in P.
    unfold design_versions_of in *. simpl in P. rewrite Hnone in P. simpl in P.
    injection P as <- <-.
    destruct (design_requests w !! ri_designRequestId input) as [request|] eqn:Hreq.
    + destruct (String.eqb (rq_userId request) (userId ctx)) eqn:Huser.
      * destruct (projects w !! rq_projectId request) as [project|] eqn:Hproj.
        -- destruct (pj_isTemplate project) eqn:Htpl; simpl; unfold since; simpl;
             rewrite drop_app_length; simpl.
           ++ split; [eauto|]. do 4 (split; [reflexivity|]).
              intros request' project' _ [= <-] _ Hp' Ht'. congruence.
           ++ split; [eauto|]. do 4 (split; [reflexivity|]).
              intros request' project' _ _ _ _ _. split; reflexivity.
        -- simpl. unfold since. simpl. rewrite drop_app_length. simpl.
           split; [eauto|]. do 4 (split; [reflexivity|]).
           intros request' project' _ [= <-] _ Hp' _. congruence.
      * simpl. unfold since. simpl. rewrite drop_app_length. simpl.
        split; [eauto|]. do 4 (split; [reflexivity|]).
        intros request' project' _ [= <-] Hu _ _.
        rewrite Hu, String.eqb_refl in Huser. discriminate Huser.
    + simpl. unfold since. simpl. rewrite drop_app_length. simpl.
      split; [eauto|]. do 4 (split; [reflexivity|]).
      intros request' project' _ Hr'. discriminate Hr'.
Qed.

Lemma refine_requires_version_witness :
  design_versions_of "req1" world1 = [] /\
  (run (refineDesign ctx1 refine_a) world1).1 = inl no_version_error /\
  jobs (run (refineDesign ctx1 refine_a) world1).2 = jobs world1 /\
  designQueue (run (refineDesign ctx1 refine_a) world1).2 = designQueue world1.
Proof.
  assert (H : design_versions_of (ri_designRequestId refine_a) world1 = []) by reflexivity.
  destruct (refine_requires_version ctx1 refine_a world1 H) as (_ & Hj & Hq & _ & _ & Hr).
  split; [exact H|]. split; [|split; [exact Hj|exact Hq]].
  apply (Hr req1 project1); reflexivity || exact I.
Defined.

(** ** Version conflicts (C2) *)

Section ConflictLaw.

#[local] Opaque generateDesign.

Lemma handler_conflicts (d : delivery) : all_runs (handler d) (conflict_law (job_of d)).
Proof.
  destruct d; unfold_handler;
    explore ltac:(unfold conflict_law; vm_compute; repeat split; intros;
                  first [reflexivity | congruence]).
Qed.

End ConflictLaw.

(** C2, as stated, fails: two refinements read version 1 as the latest;
    the first inserts version 2; the insert of the second violates the unique
    index and the handler, without reading or inserting again, marks its job
    FAILED and raises the violation to the queue. *)
Lemma conflict_is_not_retried :
  let s := run_schedule racing_inserts (start world3 refinements) in
  s.2 !! 1%nat = Some (Throw (P2002 "`design_request_id`,`version`")) /\
  job_status <$> jobs s.1 !! "c4" = Some FAILED /\
  job_error <$> jobs s.1 !! "c4"
    = Some (Some "Unique constraint failed on the fields: (`design_request_id`,`version`)") /\
  retried (since world3 s.1) = false /\
  length (List.filter design_create (since world3 s.1)) = 2%nat.
Proof.
  vm_compute. repeat split.
Qed.

(** C2, amended: a handler does not retry a version allocation.  In every
    execution of either handler each version table sees at most one insert
    attempt; when an insert raises (a uniqueness violation included), no version
    is read or inserted again, the next operation is the attempt to mark the
    handler's own job FAILED in the cache, and the handler raises to the
    queue.  When the operations after the failure complete, they are exactly
    the cache write FAILED/0 with the message of the exception for that job,
    the update that marks its row FAILED with that message, and
    [redis.quit()]; the handler then raises the exception of the insert. *)
Theorem handler_conflict_law (d : delivery) (w : World) :
  conflict_law (job_of d) (since w (run (handler d) w).2) (run (handler d) w).1.
Proof.
  apply (all_runs_since (handler d) (conflict_law (job_of d))), handler_conflicts.
Qed.

(** ** Rendered artifacts (C10) *)

Lemma render_svg_null (source : json) : svgContent (renderMermaidToSvg source) = None.
Proof.
  unfold renderMermaidToSvg, render_body.
  destruct source; simpl; try reflexivity.
  destruct (String.eqb (trim s) ""); [reflexivity|].
  now destruct (negb _).
Qed.

Lemma all_ops_bind {A B : Type} (P : forall X, op X -> Prop) (p : Prog A) :
  forall f : A -> Prog B,
    all_ops P p -> (forall a, all_ops P (f a)) -> all_ops P (bind p f).
Proof.
  induction p as [A a|A e|A X o k IH|A C body IHb handler IHh k IHk]; intros f H Hf; simpl in *.
  - apply Hf.
  - exact I.
  - destruct H as [Ho Hk]. split; [exact Ho|]. intros x. now apply IH.
  - destruct H as (Hb & Hh & Hk). split; [exact Hb|]. split; [exact Hh|].
    intros b. now apply IHk.
Qed.

Lemma step_all_ops {A : Type} (P : forall X, op X -> Prop) (p : Prog A) (w : World) :
  all_ops P p -> all_ops P (step p w).1.
Proof.
  revert w. induction p as [A a|A e|A X o k IH|A B body IHb handler IHh k IHk];
    intros w H; simpl in *.
  - exact I.
  - exact I.
  - destruct H as [Ho Hk]. destruct (exec o w) as [[e|x] w']; simpl; [exact I|apply Hk].
  - destruct H as (Hb & Hh & Hk). specialize (IHb w Hb).
    destruct body as [B b|B e|B X o kb|B C body' handler' kb]; simpl.
    + apply Hk.
    + apply all_ops_bind; [apply Hh|exact Hk].
    + split; [exact IHb|]. split; [exact Hh|exact Hk].
    + split; [exact IHb|]. split; [exact Hh|exact Hk].
Qed.

Lemma exec_artifacts {X : Type} (o : op X) (w0 w : World) :
  null_svg X o -> artifacts_null w0 w -> artifacts_null w0 (exec o w).2.
Proof.
  intros Ho Hw. unfold artifacts_null, exec.
  destruct (faults w) as [|[e|] rest]; destruct o; simpl in *; repeat case_split; simpl;
    try exact Hw.
  all: intros row Hin; apply elem_of_app in Hin; destruct Hin as [Hin|Hin];
    [now apply Hw|].
  all: apply list_elem_of_singleton in Hin; subst row; right; exact Ho.
Qed.

Lemma step_artifacts {A : Type} (p : Prog A) (w0 : World) :
  forall w, all_ops null_svg p -> artifacts_null w0 w -> artifacts_null w0 (step p w).2.
Proof.
  induction p as [A a|A e|A X o k IH|A B body IHb handler IHh k IHk]; intros w H Hw; simpl in *.
  - exact Hw.
  - exact Hw.
  - destruct H as [Ho _]. pose proof (exec_artifacts o w0 w Ho Hw) as He.
    now destruct (exec o w) as [[e|x] w'].
  - destruct H as (Hb & _ & _). specialize (IHb w Hb Hw).
    now destruct body.
Qed.

Lemma run_artifacts {A : Type} (p : Prog A) (w0 : World) :
  forall w, all_ops null_svg p -> artifacts_null w0 w -> artifacts_null w0 (run p w).2.
Proof.
  induction p as [A a|A e|A X o k IH|A B body IHb handler IHh k IHk]; intros w H Hw; simpl in *.
  - exact Hw.
  - exact Hw.
  - destruct H as [Ho Hk]. pose proof (exec_artifacts o w0 w Ho Hw) as He.
    destruct (exec o w) as [[e|x] w']; [exact He|]. now apply IH.
  - destruct H as (Hb & Hh & Hk). specialize (IHb w Hb Hw).
    destruct (run body w) as [[e|b] w1]; simpl in IHb.
    + specialize (IHh e w1 (Hh e) IHb).
      destruct (run (handler e) w1) as [[e'|b] w2]; [exact IHh|]. now apply IHk.
    + now apply IHk.
Qed.

Lemma run_schedule_artifacts (schedule : list nat) (w0 : World) :
  forall s, Forall (all_ops null_svg) s.2 -> artifacts_null w0 s.1 ->
    artifacts_null w0 (run_schedule schedule s).1.
Proof.
  induction schedule as [|i rest IH]; intros s Hp Hw; simpl; [exact Hw|].
  apply IH; unfold step_at.
  - destruct (s.2 !! i) as [p|] eqn:Hi; [|exact Hp].
    pose proof (step_all_ops null_svg p s.1 (pool_lookup _ _ _ _ Hp Hi)) as Hp'.
    destruct (step p s.1) as [p' w']. simpl. now apply pool_insert.
  - destruct (s.2 !! i) as [p|] eqn:Hi; [|exact Hw].
    pose proof (step_artifacts p w0 s.1 (pool_lookup _ _ _ _ Hp Hi) Hw) as Hw'.
    now destruct (step p s.1) as [p' w'].
Qed.

Lemma generateDesign_null_svg (input : DesignInput) : all_ops null_svg (generateDesign input).
Proof.
  unfold generateDesign, try_catch, generateMockDesign.
  unfold mbind, Prog_bind, mret, Prog_ret, lift. simpl.
  split; [|split; intros; exact I]. split; [exact I|].
  intros x. repeat case_split; exact I.
Qed.

Ltac ops_walk leaf :=
  simpl;
  lazymatch goal with
  | |- all_ops _ (bind (generateDesign _) _) =>
      apply all_ops_bind; [apply generateDesign_null_svg|intro; ops_walk leaf]
  | |- all_ops _ _ => fail "stuck"
  | |- True => exact I
  | |- _ /\ _ => split; ops_walk leaf
  | |- forall _, _ => intro; ops_walk leaf
  | |- _ => leaf
  end.

Section HandlerArtifacts.

#[local] Opaque generateDesign renderMermaidToSvg.

Lemma handler_null_svg (d : delivery) : all_ops null_svg (handler d).
Proof.
  destruct d; unfold_handler; ops_walk ltac:(apply render_svg_null).
Qed.

End HandlerArtifacts.

(** C10: [renderMermaidToSvg] returns a null [svgContent] for every
    source, valid or not; so every DiagramVersion a worker persists, in one
    execution or in any interleaving of executions, has no rendered artifact. *)
Theorem diagrams_never_rendered :
  (forall source : json, svgContent (renderMermaidToSvg source) = None) /\
  (forall (d : delivery) (w : World) (row : DiagramVersionRow),
     row ∈ diagram_versions (run (handler d) w).2 ->
     row ∈ diagram_versions w \/ gv_svgContent row = None) /\
  (forall (ds : list delivery) (schedule : list nat) (w : World) (row : DiagramVersionRow),
     row ∈ diagram_versions (run_schedule schedule (start w ds)).1 ->
     row ∈ diagram_versions w \/ gv_svgContent row = None).
Proof.
  split; [exact render_svg_null|]. split.
  - intros d w. apply (run_artifacts (handler d) w w (handler_null_svg d)).
    intros row Hin. now left.
  - intros ds schedule w. apply (run_schedule_artifacts schedule w (start w ds)).
    + simpl. induction ds as [|d ds IH]; simpl; constructor;
        [apply handler_null_svg|exact IH].
    + intros row Hin. now left.
Qed.

Lemma diagrams_never_rendered_witness :
  Forall (fun row => gv_svgContent row = None)
    (diagram_versions (run_schedule racing_diagrams (start world3 refinements)).1).
Proof.
  destruct diagrams_never_rendered as (_ & _ & H).
  apply Forall_forall. intros row Hin.
  destruct (H refinements racing_diagrams world3 row Hin) as [Hold|Hnew]; [|exact Hnew].
  revert Hold. clear Hin. revert row. apply Forall_forall.
  vm_compute. repeat constructor.
Defined.

(** ** Executions on a sound infrastructure *)

Lemma latest_next_free {A : Type} (ver : A -> Z) (key : A -> string) (rid : string) (l : list A) :
  existsb (fun r => String.eqb (key r) rid &&
                    (ver r =? next_version ver (latest ver (filter (fun r => key r = rid) l)))) l
  = false.
Proof.
  apply not_true_is_false. intros H. apply existsb_exists in H.
  destruct H as (r & Hin & Hr). apply andb_true_iff in Hr. destruct Hr as [Hk Hv].
  apply String.eqb_eq in Hk. apply Z.eqb_eq in Hv.
  assert (Hf : r ∈ filter (fun r => key r = rid) l).
  { apply list_elem_of_filter. split; [exact Hk|now apply list_elem_of_In]. }
  destruct (latest_max ver _ r Hf) as (y & Hy & Hle).
  rewrite Hy in Hv. unfold next_version in Hv. lia.
Qed.

Lemma render_source (source : json) : mermaidSource (renderMermaidToSvg source) = source.
Proof.
  unfold renderMermaidToSvg, render_body.
  destruct source; simpl; try reflexivity.
  destruct (String.eqb (trim s) ""); [reflexivity|].
  now destruct (negb _).
Qed.

Lemma mock_diagram_string (input : DesignInput) :
  mermaidDiagram (mockDesign input) = JStr (mock_diagram input).
Proof. unfold mockDesign, mock_diagram. simpl. now destruct (default STANDARD _). Qed.

Lemma hset_status (status progress message : string) (t : Z) (h : gmap string string) :
  status_fields
    (hset_fields [("status", status); ("progress", progress); ("message", message)]
       ["updatedAt"] t h)
  = (Some status, Some progress).
Proof.
  unfold status_fields, hset_fields. simpl.
  rewrite !lookup_insert_ne by discriminate. rewrite lookup_insert_eq.
  rewrite !lookup_insert_ne by discriminate. now rewrite lookup_insert_eq.
Qed.

Lemma exec_performs {X : Type} (o : op X) (w : World) (r : Exn + X) (w1 : World) :
  faults w = [] -> perform o (with_faults (drop 1) w) = (r, w1) ->
  exec o w = (r, logged (outcome o r) w1).
Proof. intros Hf Hp. unfold exec. now rewrite Hf, Hp. Qed.

Lemma run_bind_inr {A B : Type} (p : Prog A) (f : A -> Prog B) (w : World) (a : A) (w1 : World) :
  run p w = (inr a, w1) -> run (bind p f) w = run (f a) w1.
Proof. intros H. now rewrite run_bind, H. Qed.

Lemma generateDesign_fallback (input : DesignInput) (w : World) :
  faults w = [] -> openai w = [] ->
  run (generateDesign input) w
  = (inr (mockDesign input),
     logged (Raised OpenAIChat (Error "Connection error.")) (with_faults (drop 1) w)).
Proof.
  intros Hf Hai. unfold generateDesign. rewrite run_try_catch.
  unfold mbind, Prog_bind. rewrite run_bind, run_call.
  rewrite (exec_performs OpenAIChat w (inl (Error "Connection error.")) (with_faults (drop 1) w) Hf).
  - reflexivity.
  - simpl. now rewrite Hai.
Qed.


Section SoundRuns.

#[local] Opaque mockDesign renderMermaidToSvg cuid toString job_key hset_fields generateDesign.

(** The world reached in [Hrun] becomes a new variable, with what is known
    of its fields from those of the world [wk] before. *)
Ltac snapshot Hrun wk :=
  lazymatch goal with
  | Hf : faults wk = [], Hai : openai wk = _, Hreq : design_requests wk !! ?rid = Some ?rq,
    Hjobs : jobs wk = _, Hcache : cache wk = _, Hdvs : design_versions wk = _,
    Hgvs : diagram_versions wk = _, Hseed : seed wk = _ |- _ =>
    lazymatch type of Hrun with
    | run _ ?W = _ =>
      let tj := eval simpl in (jobs W) in
      let tc := eval simpl in (cache W) in
      let td := eval simpl in (design_versions W) in
      let tg := eval simpl in (diagram_versions W) in
      let ts := eval simpl in (seed W) in
      let ta := eval simpl in (openai W) in
      let Hf' := fresh "Hf" in
      let Hai' := fresh "Hai" in
      let Hreq' := fresh "Hreq" in
      let Hjobs' := fresh "Hjobs" in
      let Hcache' := fresh "Hcache" in
      let Hdvs' := fresh "Hdvs" in
      let Hgvs' := fresh "Hgvs" in
      let Hseed' := fresh "Hseed" in
      assert (Hf' : faults W = []) by (simpl; rewrite Hf; reflexivity);
      assert (Hai' : openai W = ta) by reflexivity;
      assert (Hreq' : design_requests W !! rid = Some rq) by (simpl; exact Hreq);
      assert (Hjobs' : jobs W = tj) by reflexivity;
      assert (Hcache' : cache W = tc) by reflexivity;
      assert (Hdvs' : design_versions W = td) by reflexivity;
      assert (Hgvs' : diagram_versions W = tg) by reflexivity;
      assert (Hseed' : seed W = ts) by reflexivity;
      rewrite ?Hai in Hai'; rewrite ?Hjobs in Hjobs'; rewrite ?Hcache in Hcache';
      rewrite ?Hseed, ?Hdvs in Hdvs'; rewrite ?Hseed, ?Hgvs in Hgvs';
      rewrite ?Hseed in Hseed';
      rewrite ?insert_insert_eq in Hjobs';
      rewrite ?lookup_insert_eq, ?insert_insert_eq in Hcache';
      clear Hf Hai Hreq Hjobs Hcache Hdvs Hgvs Hseed;
      let w' := fresh "w" in
      remember W as w' eqn:Hw' in *; clear Hw'
    end
  end.

(** One operation on a sound infrastructure: the execution in [Hrun] advances
    past it; [tac] settles what the operation checks. *)
Ltac op_step Hrun tac :=
  lazymatch type of Hrun with
  | run _ ?wk = _ =>
    lazymatch goal with
    | Hf : faults wk = [], Hreq : design_requests wk !! _ = Some _,
      Hjobs : jobs wk = _, Hdvs : design_versions wk = _,
      Hgvs : diagram_versions wk = _, Hseed : seed wk = _ |- _ =>
      erewrite run_bind_inr in Hrun;
      [ | rewrite run_call; apply exec_performs;
          [ exact Hf
          | simpl; unfold design_versions_of, diagram_versions_of; simpl;
            rewrite ?Hreq, ?Hjobs, ?Hdvs, ?Hgvs, ?Hseed; tac; reflexivity ] ];
      cbv beta in Hrun; snapshot Hrun wk
    end
  end.

Lemma designWorker_completes (job : GenerateDesignJobData) (w : World)
    (j : JobRow) (rq : DesignRequestRow) :
  faults w = [] -> openai w = [] ->
  jobs w !! jobId job = Some j ->
  design_requests w !! designRequestId (data job) = Some rq ->
  existsb (fun r => String.eqb (dv_id r) (cuid (seed w))) (design_versions w) = false ->
  existsb (fun r => String.eqb (gv_id r) (cuid (S (seed w)))) (diagram_versions w) = false ->
  exists w' t1 t2,
    run (designWorker job) w
    = (inr {| success := true; designVersionId := Some (cuid (seed w)) |}, w') /\
    job_completed (jobId job) w' /\
    design_versions w'
    = (design_versions w ++
       [{| dv_id := cuid (seed w);
           dv_version := next_version dv_version
                           (latest dv_version (design_versions_of (designRequestId (data job)) w));
           dv_designRequestId := designRequestId (data job);
           dv_designData := design (mockDesign (design_input (data job)));
           dv_createdAt := t1 |}])%list /\
    diagram_versions w'
    = (diagram_versions w ++
       [{| gv_id := cuid (S (seed w));
           gv_version := next_version gv_version
                           (latest gv_version (diagram_versions_of (designRequestId (data job)) w));
           gv_designRequestId := designRequestId (data job);
           gv_designVersionId := Some (cuid (seed w));
           gv_mermaidSource := mock_diagram (design_input (data job));
           gv_svgContent := None;
           gv_createdAt := t2 |}])%list.
Proof.
  intros Hf Hai Hj Hreq Hid1 Hid2.
  destruct (run (designWorker job) w) as [res wf] eqn:Hrun.
  unfold designWorker in Hrun. rewrite run_try_catch in Hrun.
  match type of Hrun with context [run ?b w] => destruct (run b w) as [rb wb] eqn:Hb end.
  unfold updateJobStatus, mbind, Prog_bind in Hb.
  assert (Hjobs : jobs w = jobs w) by reflexivity.
  assert (Hcache : cache w = cache w) by reflexivity.
  assert (Hdvs : design_versions w = design_versions w) by reflexivity.
  assert (Hgvs : diagram_versions w = diagram_versions w) by reflexivity.
  assert (Hseed : seed w = seed w) by reflexivity.
  op_step Hb idtac.
  op_step Hb ltac:(rewrite Hj).
  op_step Hb idtac.
  op_step Hb idtac.
  erewrite run_bind_inr in Hb; [|apply generateDesign_fallback; assumption].
  cbv beta in Hb. snapshot Hb w3.
  op_step Hb idtac.
  op_step Hb idtac.
  op_step Hb ltac:(simpl; rewrite Hid1, latest_next_free).
  op_step Hb idtac.
  rewrite render_source, mock_diagram_string, render_svg_null in Hb.
  op_step Hb idtac.
  op_step Hb ltac:(simpl; rewrite existsb_app; simpl; rewrite String.eqb_refl, orb_true_r; simpl;
                   rewrite Hid2, latest_next_free).
  op_step Hb idtac.
  op_step Hb ltac:(rewrite lookup_insert_eq).
  op_step Hb idtac.
  simpl in Hb. injection Hb as <- <-. injection Hrun as <- <-.
  eexists. eexists. eexists. split; [reflexivity|].
  split; [split|split].
  - eexists. split; [match goal with H : jobs _ = _ |- _ => rewrite H end; apply lookup_insert_eq|]. split; reflexivity.
  - eexists. split; [match goal with H : cache _ = _ |- _ => rewrite H end; apply lookup_insert_eq|]. apply hset_status.
  - match goal with H : design_versions _ = _ |- _ => rewrite H end. reflexivity.
  - match goal with H : diagram_versions _ = _ |- _ => rewrite H end. reflexivity.
Qed.

Lemma diagramWorker_completes (job : RenderDiagramJobData) (w : World)
    (j : JobRow) (rq : DesignRequestRow) :
  faults w = [] ->
  jobs w !! r_jobId job = Some j ->
  design_requests w !! r_designRequestId (r_data job) = Some rq ->
  existsb (fun r => String.eqb (gv_id r) (cuid (seed w))) (diagram_versions w) = false ->
  exists w' t,
    run (diagramWorker job) w = (inr {| success := true; designVersionId := None |}, w') /\
    job_completed (r_jobId job) w' /\
    diagram_versions w'
    = (diagram_versions w ++
       [{| gv_id := cuid (seed w);
           gv_version :=
             next_version gv_version
               (latest gv_version (diagram_versions_of (r_designRequestId (r_data job)) w));
           gv_designRequestId := r_designRequestId (r_data job);
           gv_designVersionId := None;
           gv_mermaidSource := r_mermaidSource (r_data job);
           gv_svgContent := None;
           gv_createdAt := t |}])%list.
Proof.
  intros Hf Hj Hreq Hid.
  destruct (run (diagramWorker job) w) as [res wf] eqn:Hrun.
  unfold diagramWorker in Hrun. rewrite run_try_catch in Hrun.
  match type of Hrun with context [run ?b w] => destruct (run b w) as [rb wb] eqn:Hb end.
  unfold updateJobStatus, mbind, Prog_bind in Hb.
  assert (Hai : openai w = openai w) by reflexivity.
  assert (Hjobs : jobs w = jobs w) by reflexivity.
  assert (Hcache : cache w = cache w) by reflexivity.
  assert (Hdvs : design_versions w = design_versions w) by reflexivity.
  assert (Hgvs : diagram_versions w = diagram_versions w) by reflexivity.
  assert (Hseed : seed w = seed w) by reflexivity.
  op_step Hb idtac.
  op_step Hb ltac:(rewrite Hj).
  rewrite render_source, render_svg_null in Hb.
  op_step Hb idtac.
  op_step Hb ltac:(simpl; rewrite Hid, latest_next_free).
  op_step Hb idtac.
  op_step Hb ltac:(rewrite lookup_insert_eq).
  op_step Hb idtac.
  simpl in Hb. injection Hb as <- <-. injection Hrun as <- <-.
  eexists. eexists. split; [reflexivity|].
  split; [split|].
  - eexists. split; [match goal with H : jobs _ = _ |- _ => rewrite H end; apply lookup_insert_eq|]. split; reflexivity.
  - eexists. split; [match goal with H : cache _ = _ |- _ => rewrite H end; apply lookup_insert_eq|]. apply hset_status.
  - match goal with H : diagram_versions _ = _ |- _ => rewrite H end. reflexivity.
Qed.
End SoundRuns.

(** ** The result of [generateDesign] (C6) *)

Lemma member_defined (v : value) (k : string) (x : value) :
  member v k = inr x -> defined v = true.
Proof. destruct v as [[]|]; simpl; intros H; reflexivity || discriminate H. Qed.

(** [generateDesign] is what it does on the answer of the provider. *)
Lemma generateDesign_run (input : DesignInput) (w : World) :
  run (generateDesign input) w =
  match exec OpenAIChat w with
  | (inl _, w1) => (inr (mockDesign input), w1)
  | (inr a, w1) =>
      match read_completion a with
      | inr g => (inr g, w1)
      | inl _ => (inr (mockDesign input), w1)
      end
  end.
Proof.
  unfold generateDesign. rewrite run_try_catch. unfold mbind, Prog_bind.
  rewrite run_bind, run_call.
  destruct (exec OpenAIChat w) as [[e|a] w1]; [reflexivity|].
  now destruct (read_completion a).
Qed.

(** A design read from an answer has the three members whose length the
    code logs. *)
Lemma read_completion_members (a : Answer) (g : GeneratedDesign) :
  read_completion a = inr g ->
  has_member (design g) "components" = true /\
  has_member (design g) "dataStores" = true /\
  has_member (design g) "apis" = true.
Proof.
  unfold read_completion, throw, mbind, Exn_bind, mret, Exn_ret.
  destruct (negb (truthy_str (content a))); [discriminate|].
  destruct (parsed a) as [e|p]; [discriminate|].
  destruct (member (Some p) "design") as [e|d]; [discriminate|].
  destruct (negb (truthy d)) eqn:Hd; [discriminate|].
  destruct (member (Some p) "mermaidDiagram") as [e|m]; [discriminate|].
  destruct (negb (truthy m)); [discriminate|].
  destruct (has_style m) as [e|styled]; [discriminate|].
  destruct (member d "components") as [e|c] eqn:Hc; [discriminate|].
  destruct (member c "length") as [e|cl] eqn:Hcl; [discriminate|].
  destruct (member d "dataStores") as [e|s] eqn:Hs; [discriminate|].
  destruct (member s "length") as [e|sl] eqn:Hsl; [discriminate|].
  destruct (member d "apis") as [e|i] eqn:Hi; [discriminate|].
  destruct (member i "length") as [e|il] eqn:Hil; [discriminate|].
  destruct (member d "cloudProvider") as [e|?]; [discriminate|].
  destruct (member d "architectureStyle") as [e|?]; [discriminate|].
  intros [= <-]. simpl.
  destruct d as [d|]; [|discriminate Hd]. simpl. unfold has_member.
  rewrite Hc, Hs, Hi.
  apply member_defined in Hcl, Hsl, Hil. auto.
Qed.

Lemma mockDesign_arrays (input : DesignInput) :
  arrays_present (design (mockDesign input)) = true /\
  length (components_of (design (mockDesign input))) = 3%nat.
Proof. split; reflexivity. Qed.

Lemma provider_design_read (a : Answer) (g : GeneratedDesign) :
  provider_design a = Some g -> read_completion a = inr g.
Proof.
  destruct a as [c p].
  unfold provider_design, read_completion, throw, mbind, Exn_bind, mret, Exn_ret.
  cbn [content parsed]. intros H.
  destruct c as [c|]; [|discriminate H].
  destruct p as [e|v]; [discriminate H|].
  destruct v as [| | | | |ms]; try discriminate H.
  cbn [member].
  destruct (assoc "design" ms) as [d|]; [|discriminate H].
  destruct (assoc "mermaidDiagram" ms) as [m|]; [|discriminate H].
  destruct (negb (String.eqb c "")) eqn:Hc; [|discriminate H].
  destruct (present d "components") eqn:H1; [|discriminate H].
  destruct (present d "dataStores") eqn:H2; [|discriminate H].
  destruct (present d "apis") eqn:H3; [|discriminate H].
  destruct (text_or_list m) eqn:Hm; [|discriminate H].
  injection H as <-.
  cbn [truthy_str]. rewrite Hc. cbn [negb].
  destruct d as [| | | | |ds]; try discriminate H1.
  cbn [truthy negb member present] in *.
  assert (Hlen : forall v, defined v = true -> exists x, member v "length" = inr x).
  { intros [[]|]; simpl; intros Hv; try discriminate Hv; eauto. }
  destruct (Hlen _ H1) as [x1 ->], (Hlen _ H2) as [x2 ->], (Hlen _ H3) as [x3 ->].
  destruct m as [| | |s|l|]; try discriminate Hm; cbn [truthy has_style styled default from_option id].
  - cbn [text_or_list] in Hm. rewrite Hm. cbn [negb]. now destruct (includes s "style ").
  - cbn [negb]. now destruct (existsb _ l).
Qed.

Lemma read_provider_design (a : Answer) (g : GeneratedDesign) :
  read_completion a = inr g -> provider_design a = Some g.
Proof.
  destruct a as [c p].
  unfold provider_design, read_completion, throw, mbind, Exn_bind, mret, Exn_ret.
  cbn [content parsed]. intros H.
  destruct c as [c|]; [|discriminate H].
  cbn [truthy_str] in H.
  destruct (negb (String.eqb c "")) eqn:Hc; [|discriminate H]. cbn [negb] in H.
  destruct p as [e|v]; [discriminate H|].
  destruct v as [| | | | |ms]; try discriminate H.
  cbn [member] in H.
  destruct (assoc "design" ms) as [d|]; [|discriminate H].
  destruct (truthy (Some d)) eqn:Hd; [|discriminate H]. cbn [negb] in H.
  destruct (assoc "mermaidDiagram" ms) as [m|]; [|discriminate H].
  destruct (truthy (Some m)) eqn:Hm; [|discriminate H]. cbn [negb] in H.
  destruct (has_style (Some m)) as [e|st] eqn:Hst; [discriminate H|].
  assert (Hlen : forall v x, member v "length" = inr x -> defined v = true).
  { intros [[]|] x; simpl; intros Hv; try discriminate Hv; reflexivity. }
  destruct d as [| | | | |ds]; try (simpl in H; discriminate H).
  cbn [member] in H.
  destruct (member (assoc "components" ds) "length") as [e|x1] eqn:H1; [discriminate H|].
  destruct (member (assoc "dataStores" ds) "length") as [e|x2] eqn:H2; [discriminate H|].
  destruct (member (assoc "apis" ds) "length") as [e|x3] eqn:H3; [discriminate H|].
  injection H as <-.
  cbn [present]. rewrite (Hlen _ _ H1), (Hlen _ _ H2), (Hlen _ _ H3). cbn [andb].
  destruct m as [| | |s|l|]; try discriminate Hst; cbn [has_style] in Hst; injection Hst as <-;
    cbn [text_or_list styled default from_option id].
  - cbn [truthy] in Hm. rewrite Hm. now destruct (includes s "style ").
  - now destruct (existsb _ l).
Qed.

(** [read_completion] returns the design described by [provider_design] and
    throws on every other answer. *)
Lemma read_completion_spec (a : Answer) :
  match provider_design a with
  | Some g => read_completion a = inr g
  | None => exists e, read_completion a = inl e
  end.
Proof.
  destruct (provider_design a) as [g|] eqn:Hp; [now apply provider_design_read|].
  destruct (read_completion a) as [e|g] eqn:Hr; [eauto|].
  apply read_provider_design in Hr. congruence.
Qed.

(** C6, as stated, fails: the provider answers with a design that has
    neither [security] nor [scaleChanges]; [generateDesign] returns that design
    unchanged, the handler stores it and the job is COMPLETED. *)
Lemma provider_design_lacks_arrays :
  let r := run (designWorker job1) world1_sparse in
  (exists g, (run (generateDesign (design_input payload1)) world1_sparse).1 = inr g /\
             arrays_present (design g) = false) /\
  r.1 = inr {| success := true; designVersionId := Some "c1" |} /\
  stored "c0" r.2 = Some (COMPLETED, 100, None) /\
  (arrays_present ∘ dv_designData) <$> design_versions r.2 = [false].
Proof.
  split; [eexists; split|]; vm_compute; repeat split; reflexivity.
Qed.

(** C6, amended: [generateDesign] always returns a design and never
    raises.  It returns the design of the provider when the call succeeds and
    the answer is usable ([provider_design]): the content is not empty and
    parses as an object, whose [design] is an object with [components],
    [dataStores] and [apis] present and not [null] (of any type; nothing else
    is checked), and whose [mermaidDiagram] is a non-empty string or an array;
    the design is returned as it is, the diagram as it is when it includes
    [style ] and passed through [addDefaultStyles] otherwise.  In every other
    case, a diagram of another type included, it returns the fallback design,
    which has all the structural arrays and three components.  With the provider unreachable
    and the rest of the infrastructure sound, the handler stores the fallback
    design and the job is COMPLETED. *)
Theorem generateDesign_total (input : DesignInput) (w : World) :
  run (generateDesign input) w
  = (inr match (exec OpenAIChat w).1 with
         | inr a => default (mockDesign input) (provider_design a)
         | inl _ => mockDesign input
         end,
     (exec OpenAIChat w).2) /\
  (forall a g, provider_design a = Some g ->
     exists ms m,
       parsed a = inr (JObj ms) /\
       assoc "design" ms = Some (design g) /\
       assoc "mermaidDiagram" ms = Some m /\
       mermaidDiagram g = (if styled m then m else addDefaultStyles m) /\
       has_member (design g) "components" = true /\
       has_member (design g) "dataStores" = true /\
       has_member (design g) "apis" = true) /\
  (forall a ms m,
     parsed a = inr (JObj ms) -> assoc "mermaidDiagram" ms = Some m ->
     text_or_list m = false -> provider_design a = None) /\
  arrays_present (design (mockDesign input)) = true /\
  length (components_of (design (mockDesign input))) = 3%nat /\
  (forall job j rq,
     input = design_input (data job) ->
     faults w = [] -> openai w = [] ->
     jobs w !! jobId job = Some j ->
     design_requests w !! designRequestId (data job) = Some rq ->
     existsb (fun r => String.eqb (dv_id r) (cuid (seed w))) (design_versions w) = false ->
     existsb (fun r => String.eqb (gv_id r) (cuid (S (seed w)))) (diagram_versions w) = false ->
     exists w' dv,
       run (designWorker job) w
       = (inr {| success := true; designVersionId := Some (dv_id dv) |}, w') /\
       job_completed (jobId job) w' /\
       design_versions w' = (design_versions w ++ [dv])%list /\
       dv_designData dv = design (mockDesign input)).
Proof.
  split; [|split; [|split; [|split; [|split]]]].
  - rewrite generateDesign_run.
    destruct (exec OpenAIChat w) as [[e|a] w1]; [reflexivity|]. cbn [fst snd].
    pose proof (read_completion_spec a) as Hr.
    destruct (provider_design a) as [g|]; [now rewrite Hr|].
    destruct Hr as [e ->]. reflexivity.
  - intros [c p] g. unfold provider_design. cbn [content parsed]. intros H.
    destruct c as [c|]; [|discriminate H].
    destruct p as [e|[| | | | |ms]]; try discriminate H.
    destruct (assoc "design" ms) as [d|] eqn:Hd; [|discriminate H].
    destruct (assoc "mermaidDiagram" ms) as [m|] eqn:Hm; [|discriminate H].
    destruct (negb (String.eqb c "")); [|discriminate H].
    destruct (present d "components") eqn:H1; [|discriminate H].
    destruct (present d "dataStores") eqn:H2; [|discriminate H].
    destruct (present d "apis") eqn:H3; [|discriminate H].
    destruct (text_or_list m); [|discriminate H].
    injection H as <-. exists ms, m. cbn [design mermaidDiagram].
    destruct d as [| | | | |ds]; try discriminate H1.
    unfold has_member. cbn [member present] in *. auto 10.
  - intros [c p] ms m. unfold provider_design. cbn [content parsed]. intros -> -> ->.
    destruct c; [|reflexivity]. destruct (assoc "design" ms); [|reflexivity].
    now rewrite andb_false_r.
  - reflexivity.
  - reflexivity.
  - intros job j rq -> Hf Hai Hj Hrq Hid1 Hid2.
    destruct (designWorker_completes job w j rq Hf Hai Hj Hrq Hid1 Hid2)
      as (w' & t1 & t2 & Hrun & Hdone & Hdv & _).
    eexists w', _. split; [|split; [exact Hdone|split; [exact Hdv|reflexivity]]]. exact Hrun.
Qed.

(** The job of [world1], whose provider is unreachable, is COMPLETED with the
    fallback design; the design of [sparse_answer] is taken as it is; an
    answer whose diagram is a number is not used. *)
Lemma generateDesign_total_witness :
  (exists w' dv,
     run (designWorker job1) world1
     = (inr {| success := true; designVersionId := Some (dv_id dv) |}, w') /\
     job_completed (jobId job1) w' /\
     design_versions w' = (design_versions world1 ++ [dv])%list /\
     dv_designData dv = design (mockDesign (design_input payload1))) /\
  (exists g, provider_design sparse_answer = Some g /\
             has_member (design g) "components" = true) /\
  provider_design numeric_diagram_answer = None.
Proof.
  destruct (generateDesign_total (design_input payload1) world1)
    as (_ & Hg & Hm & _ & _ & H).
  split; [|split].
  - eapply (H job1 _ req1); reflexivity.
  - eexists. split; [reflexivity|].
    destruct (Hg sparse_answer _ eq_refl) as (ms & m & _ & _ & _ & _ & Hc & _). exact Hc.
  - eapply (Hm numeric_diagram_answer); reflexivity.
Defined.

(** ** The failure path (C3) *)

Section FailurePath.

#[local] Opaque generateDesign.

Lemma handler_failed_rows (d : delivery) :
  all_runs (handler d) (fun t _ => forallb failed_row_keeps_progress (writes t) = true).
Proof.
  destruct d; unfold_handler; explore ltac:(by_computation).
Qed.

End FailurePath.

(** C3: the exception is caught once, the cache is marked FAILED with
    progress 0 and the message, and the exception is raised again; the Job
    row is marked FAILED with the message, but its progress is not reset.  In
    no execution of a handler does the update that marks the row FAILED carry
    a progress; when the insert of the design version raises, the row keeps the
    progress 10 of its first update. *)
Theorem failure_keeps_row_progress :
  (forall d w,
     forallb failed_row_keeps_progress (writes (since w (run (handler d) w).2)) = true) /\
  (let r := run (designWorker job1) world1_storage_down in
   r.1 = inl (Error "Can't reach database server") /\
   length (List.filter failed_hset (since world1_storage_down r.2)) = 1%nat /\
   cached "c0" r.2 = Some (Some "FAILED", Some "0", Some "Can't reach database server") /\
   stored "c0" r.2 = Some (FAILED, 10, Some "Can't reach database server")).
Proof.
  split.
  - intros d w.
    apply (all_runs_since (handler d)
             (fun t _ => forallb failed_row_keeps_progress (writes t) = true)),
          handler_failed_rows.
  - vm_compute. repeat split; reflexivity.
Qed.

(** ** The two branches of [getStatus] (C4) *)

Lemma getStatus_completed (ctx : Context) (id : string) (w : World)
    (row : JobRow) (rq : DesignRequestRow) :
  faults w = [] ->
  jobs w !! id = Some row ->
  design_requests w !! job_designRequestId row = Some rq ->
  rq_userId rq = userId ctx ->
  job_completed id w ->
  status_pair (run (getStatus ctx id) w).1 = Some ("COMPLETED", Some 100) /\
  status_pair (run (getStatus ctx id) (evict (job_key id) w)).1 = Some ("COMPLETED", Some 100).
Proof.
  intros Hf Hj Hrq Hu [(row' & Hj' & Hst & Hpr) (h & Hh & Hfields)].
  rewrite Hj in Hj'. injection Hj' as <-.
  unfold status_fields in Hfields. injection Hfields as Hs Hp.
  unfold getStatus, getJobStatus, mbind, Prog_bind.
  split.
  - rewrite run_bind, run_call, exec_sound by exact Hf. simpl.
    rewrite Hj, Hrq. simpl. rewrite Hu, String.eqb_refl. simpl.
    unfold exec. simpl. rewrite Hf. simpl. rewrite Hh. simpl. rewrite Hs, Hp. reflexivity.
  - rewrite run_bind, run_call, exec_sound by exact Hf. simpl.
    rewrite Hj, Hrq. simpl. rewrite Hu, String.eqb_refl. simpl.
    unfold exec. simpl. rewrite Hf. simpl. rewrite lookup_delete_eq. simpl.
    rewrite Hst, Hpr. reflexivity.
Qed.

(** C4: for a COMPLETED job the two branches agree on COMPLETED and 100.
    For the FAILED job of [world1_failed] they do not: the cache branch
    answers progress 0 and, once the cache has forgotten the job, the fallback
    answers the 10 that the Job row kept. *)
Theorem getStatus_branches :
  (forall ctx id w row rq,
     faults w = [] ->
     jobs w !! id = Some row ->
     design_requests w !! job_designRequestId row = Some rq ->
     rq_userId rq = userId ctx ->
     job_completed id w ->
     status_pair (run (getStatus ctx id) w).1 = Some ("COMPLETED", Some 100) /\
     status_pair (run (getStatus ctx id) (evict (job_key id) w)).1
     = Some ("COMPLETED", Some 100)) /\
  stored "c0" world1_failed = Some (FAILED, 10, Some "Can't reach database server") /\
  status_pair (run (getStatus ctx1 "c0") world1_failed).1 = Some ("FAILED", Some 0) /\
  status_pair (run (getStatus ctx1 "c0") (evict (job_key "c0") world1_failed)).1
  = Some ("FAILED", Some 10).
Proof.
  split; [exact getStatus_completed|].
  vm_compute. repeat split; reflexivity.
Qed.

(** The completed job of [world2] is COMPLETED at 100 on both branches. *)
Lemma getStatus_branches_witness :
  status_pair (run (getStatus ctx1 "c0") world2).1 = Some ("COMPLETED", Some 100) /\
  status_pair (run (getStatus ctx1 "c0") (evict (job_key "c0") world2)).1
  = Some ("COMPLETED", Some 100).
Proof.
  destruct getStatus_branches as [H _].
  let v := eval vm_compute in (jobs world2 !! "c0") in
  lazymatch v with Some ?row => apply (H ctx1 "c0" world2 row req1) end;
    try (vm_compute; reflexivity).
  unfold job_completed. split.
  - let v := eval vm_compute in (jobs world2 !! "c0") in
    lazymatch v with Some ?row => exists row end.
    vm_compute. repeat split; reflexivity.
  - let v := eval vm_compute in (cache world2 !! job_key "c0") in
    lazymatch v with Some ?h => exists h end.
    vm_compute. repeat split; reflexivity.
Defined.

(** ** The renderer (C9) *)

Lemma prefix_includes (s sub : string) : String.prefix sub s = true -> includes s sub = true.
Proof. intros H. destruct s; simpl in *; now rewrite H. Qed.

Lemma begins_contains (source : string) :
  begins_with_declaration source = true -> contains_declaration source = true.
Proof.
  unfold begins_with_declaration, contains_declaration.
  rewrite !existsb_exists. intros (type & Hin & Hp).
  exists type. split; [exact Hin|]. now apply prefix_includes.
Qed.

Lemma begins_not_empty (source : string) :
  begins_with_declaration source = true -> String.eqb (trim source) "" = false.
Proof.
  unfold begins_with_declaration. destruct (String.eqb_spec (trim source) "") as [->|]; [|reflexivity].
  vm_compute. intros H. discriminate H.
Qed.

Lemma render_error_of (source : string) :
  render_error (renderMermaidToSvg (JStr source)) =
  if String.eqb (trim source) "" then Some "Empty diagram source"
  else if contains_declaration source then None
  else Some "Invalid diagram type. Must start with a valid Mermaid diagram declaration.".
Proof.
  unfold renderMermaidToSvg, render_body, contains_declaration.
  destruct (String.eqb (trim source) ""); [reflexivity|].
  now destruct (existsb _ validTypes).
Qed.

(** C9: the renderer never throws and never renders: its result carries the
    source it was given and a null artifact.  An empty source and a source
    whose first line contains no diagram type get an error, a source that
    begins with a declaration gets none, and the handler stores the source of
    a diagram job with a null artifact and completes the job whatever the
    source is.  But the test is containment, not a prefix: [not a graph] does
    not begin with a declaration and is accepted without an error. *)
Theorem renderer_accepts_contained_type :
  (forall source,
     mermaidSource (renderMermaidToSvg source) = source /\
     svgContent (renderMermaidToSvg source) = None) /\
  (forall source, trim source = "" ->
     render_error (renderMermaidToSvg (JStr source)) = Some "Empty diagram source") /\
  (forall source, trim source <> "" -> contains_declaration source = false ->
     render_error (renderMermaidToSvg (JStr source))
     = Some "Invalid diagram type. Must start with a valid Mermaid diagram declaration.") /\
  (forall source, begins_with_declaration source = true ->
     render_error (renderMermaidToSvg (JStr source)) = None) /\
  (forall job w j rq,
     faults w = [] ->
     jobs w !! r_jobId job = Some j ->
     design_requests w !! r_designRequestId (r_data job) = Some rq ->
     existsb (fun r => String.eqb (gv_id r) (cuid (seed w))) (diagram_versions w) = false ->
     exists w' gv,
       run (diagramWorker job) w = (inr {| success := true; designVersionId := None |}, w') /\
       job_completed (r_jobId job) w' /\
       diagram_versions w' = (diagram_versions w ++ [gv])%list /\
       gv_mermaidSource gv = r_mermaidSource (r_data job) /\
       gv_svgContent gv = None) /\
  (begins_with_declaration "not a graph" = false /\
   render_error (renderMermaidToSvg (JStr "not a graph")) = None).
Proof.
  split; [|split; [|split; [|split; [|split]]]].
  - intros source. split; [apply render_source|apply render_svg_null].
  - intros source H. now rewrite render_error_of, H.
  - intros source H Hc. rewrite render_error_of, Hc.
    now destruct (String.eqb_spec (trim source) "").
  - intros source H.
    now rewrite render_error_of, (begins_not_empty source H), (begins_contains source H).
  - intros job w j rq Hf Hj Hrq Hid.
    destruct (diagramWorker_completes job w j rq Hf Hj Hrq Hid) as (w' & t & Hrun & Hdone & Hgv).
    eexists w', _. split; [exact Hrun|]. split; [exact Hdone|].
    split; [exact Hgv|]. split; reflexivity.
  - vm_compute. split; reflexivity.
Qed.

(** The diagram job of [world1_diagram], whose source is [not a graph],
    is COMPLETED with the source stored and no artifact. *)
Lemma renderer_accepts_contained_type_witness :
  exists w' gv,
    run (diagramWorker diagram_job1) world1_diagram
    = (inr {| success := true; designVersionId := None |}, w') /\
    job_completed "c0" w' /\
    diagram_versions w' = (diagram_versions world1_diagram ++ [gv])%list /\
    gv_mermaidSource gv = "not a graph" /\
    gv_svgContent gv = None.
Proof.
  destruct renderer_accepts_contained_type as (_ & _ & _ & _ & H & _).
  let v := eval vm_compute in (jobs world1_diagram !! "c0") in
  lazymatch v with Some ?row => apply (H diagram_job1 world1_diagram row req1) end;
    vm_compute; reflexivity.
Defined.

(** ** Numbers as text *)

Lemma digit_code (k : nat) : (k < 10)%nat -> nat_of_ascii (ascii_of_nat (48 + k)) = (48 + k)%nat.
Proof. intros H. apply nat_ascii_embedding. lia. Qed.

Lemma digit_of_mod (n : Z) :
  nat_of_ascii (ascii_of_nat (48 + Z.to_nat (n mod 10))) = (48 + Z.to_nat (n mod 10))%nat.
Proof. apply digit_code. pose proof (Z.mod_pos_bound n 10). lia. Qed.

Lemma parse_digit (n : Z) (acc : string) (a : option Z) :
  parse_digits (String (ascii_of_nat (48 + Z.to_nat (n mod 10))) acc) a
  = parse_digits acc (Some (10 * default 0 a + n mod 10)).
Proof.
  pose proof (Z.mod_pos_bound n 10 ltac:(lia)) as Hm.
  cbn [parse_digits]. cbv zeta. rewrite digit_of_mod.
  replace ((48 <=? 48 + Z.to_nat (n mod 10))%nat && (48 + Z.to_nat (n mod 10) <=? 57)%nat)
    with true.
  - f_equal. f_equal. lia.
  - symmetry. apply andb_true_iff. split; apply Nat.leb_le; lia.
Qed.

(** Reading the digits written for [n] gives [n] back. *)
Lemma parse_digits_of (fuel : nat) :
  forall (n : Z) (acc : string),
    0 <= n < 2 ^ Z.of_nat fuel -> (1 <= fuel)%nat ->
    parse_digits (digits_of fuel n acc) None = parse_digits acc (Some n).
Proof.
  induction fuel as [|fuel IH]; intros n acc Hn Hf; [lia|].
  rewrite Nat2Z.inj_succ, Z.pow_succ_r in Hn by lia.
  cbn [digits_of]. destruct (n <? 10) eqn:Hlt.
  - apply Z.ltb_lt in Hlt. rewrite parse_digit. cbn [default from_option id].
    rewrite Z.mod_small by lia. reflexivity.
  - apply Z.ltb_ge in Hlt.
    assert (Hq : 1 <= n / 10 < 2 ^ Z.of_nat fuel).
    { split; [apply Z.div_le_lower_bound; lia|apply Z.div_lt_upper_bound; lia]. }
    rewrite IH.
    + rewrite parse_digit. cbn [default from_option id]. f_equal. f_equal.
      pose proof (Z.div_mod n 10 ltac:(lia)). lia.
    + lia.
    + destruct fuel; [simpl in Hq; lia|lia].
Qed.

(** The text of a number starts with a digit... *)
Lemma digits_of_head (fuel : nat) :
  forall (n : Z) (acc : string),
    (1 <= fuel)%nat \/ starts_with_digit acc -> starts_with_digit (digits_of fuel n acc).
Proof.
  induction fuel as [|fuel IH]; intros n acc H.
  - destruct H as [H|H]; [lia|exact H].
  - assert (Hd : starts_with_digit (String (ascii_of_nat (48 + Z.to_nat (n mod 10))) acc)).
    { exists (Z.to_nat (n mod 10)), acc. split; [|reflexivity].
      pose proof (Z.mod_pos_bound n 10 ltac:(lia)). lia. }
    cbn [digits_of]. destruct (n <? 10); [exact Hd|]. apply IH. now right.
Qed.

Lemma bytes_of_string (s : string) : bytes (map nat_of_ascii (list_ascii_of_string s)) = s.
Proof.
  unfold bytes. rewrite map_map.
  rewrite (map_ext _ (fun c => c)) by apply ascii_nat_embedding.
  rewrite map_id. apply string_of_list_ascii_of_string.
Qed.

(** ... or a minus sign: neither is white space. *)
Lemma strip_any_other (ps : list (list nat)) (c : nat) (r : list nat) :
  Forall (fun p => match p with a :: _ => a <> c | [] => False end) ps ->
  strip_any ps (c :: r) = None.
Proof.
  induction 1 as [|p ps Hp _ IH]; [reflexivity|].
  destruct p as [|a p]; [contradiction|].
  cbn [strip_any strip_prefix].
  destruct (Nat.eqb_spec a c) as [Heq|_]; [contradiction|exact IH].
Qed.

Lemma strip_any_none (c : nat) (r : list nat) :
  (33 <= c <= 193)%nat -> strip_any white_space (c :: r) = None.
Proof.
  intros H. apply strip_any_other. unfold white_space.
  repeat (constructor; [lia|]). constructor.
Qed.

Lemma strip_all_none (fuel : nat) (c : nat) (r : list nat) :
  (33 <= c <= 193)%nat -> strip_all fuel white_space (c :: r) = c :: r.
Proof. intros H. destruct fuel; cbn [strip_all]; [reflexivity|]. now rewrite strip_any_none. Qed.

Lemma strip_leading (s : string) (a : ascii) (r : string) :
  s = String a r -> (33 <= nat_of_ascii a <= 193)%nat ->
  bytes (strip_all (length (map nat_of_ascii (list_ascii_of_string s))) white_space
           (map nat_of_ascii (list_ascii_of_string s))) = s.
Proof.
  intros -> H. cbn [list_ascii_of_string map].
  rewrite strip_all_none by exact H.
  apply (bytes_of_string (String a r)).
Qed.

Lemma parseInt_unsigned (s : string) :
  starts_with_digit s -> parseInt s = parse_digits s None.
Proof.
  intros (k & r & Hk & Hs). unfold parseInt.
  rewrite (strip_leading s _ r Hs) by (rewrite digit_code by exact Hk; lia).
  subst s.
  do 10 (destruct k as [|k]; [reflexivity|]). lia.
Qed.

Lemma parseInt_negative (s : string) :
  starts_with_digit s -> parseInt ("-" ++ s) = Z.opp <$> parse_digits s None.
Proof.
  intros _. unfold parseInt.
  rewrite (strip_leading ("-" ++ s) "-"%char s eq_refl);
    [reflexivity|change (nat_of_ascii "-") with 45%nat; lia].
Qed.

(** [parseInt(n.toString())] is [n].  (JavaScript writes an integer in full
    below 10^21.) *)
Lemma parseInt_toString (n : Z) : parseInt (toString n) = Some n.
Proof.
  assert (Hfuel : forall m, 0 <= m -> 0 <= m < 2 ^ Z.of_nat (S (Z.to_nat (Z.log2 m)))).
  { intros m Hm. split; [exact Hm|].
    rewrite Nat2Z.inj_succ, Z2Nat.id by apply Z.log2_nonneg.
    destruct (Z.eq_dec m 0) as [->|Hne]; [reflexivity|].
    apply Z.log2_spec. lia. }
  unfold toString. destruct (n <? 0) eqn:Hneg.
  - apply Z.ltb_lt in Hneg.
    rewrite parseInt_negative by (apply digits_of_head; left; lia).
    rewrite parse_digits_of by (try apply Hfuel; lia).
    simpl. f_equal. lia.
  - apply Z.ltb_ge in Hneg.
    rewrite parseInt_unsigned by (apply digits_of_head; left; lia).
    now rewrite parse_digits_of by (try apply Hfuel; lia).
Qed.

Lemma toString_not_empty (n : Z) : toString n <> "".
Proof.
  unfold toString. destruct (n <? 0); [discriminate|].
  destruct (digits_of_head (S (Z.to_nat (Z.log2 n))) n "" ltac:(left; lia)) as (k & r & _ & ->).
  discriminate.
Qed.

(** ** The status record of a job ([setJobStatus], [getJobStatus]) *)

Lemma hset_message (status progress message : string) (t : Z) (h : gmap string string) :
  hset_fields [("status", status); ("progress", progress); ("message", message)]
    ["updatedAt"] t h !! "message" = Some message.
Proof.
  unfold hset_fields. simpl.
  rewrite !lookup_insert_ne by discriminate. now rewrite lookup_insert_eq.
Qed.

Lemma or_undefined_or_empty (message : option string) :
  or_undefined (Some (or_empty message)) = or_undefined message.
Proof. now destruct message as [[|c r]|]. Qed.

Lemma or_undefined_some (s : string) : s <> "" -> or_undefined (Some s) = Some s.
Proof. destruct s; [contradiction|reflexivity]. Qed.

(** [setJobStatus] on a sound infrastructure: the four fields are written,
    the others kept, and the key is given 24 hours. *)
Lemma setJobStatus_run (jobId status : string) (progress : Z) (message : option string)
    (w : World) :
  faults w = [] ->
  run (setJobStatus jobId status progress message) w
  = (inr tt,
     let fields := [("status", status); ("progress", toString progress);
                    ("message", or_empty message)] in
     logged (Did (RedisExpire (job_key jobId) 86400))
       (with_ttl (fun t => <[job_key jobId := 86400]> t)
          (with_faults (drop 1)
             (logged (Did (RedisHset (job_key jobId) fields ["updatedAt"]))
                (with_cache
                   (fun c => <[job_key jobId :=
                                 hset_fields fields ["updatedAt"] (now w)
                                   (default ∅ (c !! job_key jobId))]> c)
                   (with_faults (drop 1) w)))))).
Proof.
  intros Hf. unfold setJobStatus, mbind, Prog_bind.
  erewrite run_bind_inr;
    [|rewrite run_call; apply exec_performs; [exact Hf|reflexivity]].
  rewrite run_call.
  erewrite exec_performs;
    [|simpl; now rewrite Hf|simpl; rewrite lookup_insert_eq; reflexivity].
  reflexivity.
Qed.

Lemma setJobStatus_sound (jobId status : string) (progress : Z) (message : option string)
    (w : World) :
  faults w = [] ->
  exists w',
    run (setJobStatus jobId status progress message) w = (inr tt, w') /\
    faults w' = [] /\
    cache w' = <[job_key jobId :=
                   hset_fields [("status", status); ("progress", toString progress);
                                ("message", or_empty message)] ["updatedAt"] (now w)
                     (default ∅ (cache w !! job_key jobId))]> (cache w) /\
    ttl w' = <[job_key jobId := 86400]> (ttl w).
Proof.
  intros Hf. rewrite setJobStatus_run by exact Hf.
  eexists. split; [reflexivity|]. simpl. rewrite Hf. auto.
Qed.

Lemma getJobStatus_sound (jobId : string) (w : World) :
  faults w = [] ->
  (run (getJobStatus jobId) w).1 =
  let data := default ∅ (cache w !! job_key jobId) in
  inr (match or_undefined (data !! "status") with
       | None => None
       | Some status =>
           Some {| st_status := status;
                   st_progress := parseInt (default "0" (or_undefined (data !! "progress")));
                   st_message := or_undefined (data !! "message") |}
       end).
Proof.
  intros Hf. unfold getJobStatus, mbind, Prog_bind, mret, Prog_ret.
  erewrite run_bind_inr;
    [|rewrite run_call; apply exec_performs; [exact Hf|reflexivity]].
  cbv zeta. now destruct (or_undefined _).
Qed.

(** What [getJobStatus] reads after [setJobStatus]. *)
Lemma set_then_get (jobId status : string) (progress : Z) (message : option string) (w : World) :
  faults w = [] ->
  (run (setJobStatus jobId status progress message;; getJobStatus jobId) w).1
  = match or_undefined (Some status) with
    | Some s => inr (Some {| st_status := s; st_progress := Some progress;
                             st_message := or_undefined message |})
    | None => inr None
    end.
Proof.
  intros Hf.
  destruct (setJobStatus_sound jobId status progress message w Hf) as (w' & Hrun & Hf' & Hc & _).
  unfold mbind, Prog_bind. rewrite (run_bind_inr _ _ _ _ _ Hrun).
  rewrite getJobStatus_sound by exact Hf'. rewrite Hc, lookup_insert_eq.
  cbn [default from_option id].
  pose proof (hset_status status (toString progress) (or_empty message) (now w)
                (default ∅ (cache w !! job_key jobId))) as Hs.
  unfold status_fields in Hs. injection Hs as Hs Hp.
  rewrite Hs, Hp, hset_message.
  rewrite (or_undefined_some (toString progress)) by apply toString_not_empty.
  cbn [default from_option id]. rewrite parseInt_toString, or_undefined_or_empty.
  now destruct (or_undefined (Some status)).
Qed.

(** X1: on a sound infrastructure a status written by [setJobStatus] is
    read back by [getJobStatus]: the same status text (when it is not
    empty), the same progress (an integer that [toString] writes in full),
    and the message, an empty one read back as absent. *)
Theorem status_round_trip (jobId status : string) (progress : Z) (message : option string)
    (w : World) :
  faults w = [] -> status <> "" -> Z.abs progress < 10 ^ 21 ->
  (run (setJobStatus jobId status progress message;; getJobStatus jobId) w).1
  = inr (Some {| st_status := status; st_progress := Some progress;
                 st_message := or_undefined message |}).
Proof.
  intros Hf Hs _. rewrite set_then_get by exact Hf.
  now rewrite or_undefined_some by exact Hs.
Qed.

Lemma status_round_trip_witness :
  (run (setJobStatus "c0" "PROCESSING" 30 (Some "Analyzing requirements...");;
        getJobStatus "c0") world1).1
  = inr (Some {| st_status := "PROCESSING"; st_progress := Some 30;
                 st_message := Some "Analyzing requirements..." |}).
Proof.
  apply (status_round_trip "c0" "PROCESSING" 30 (Some "Analyzing requirements...") world1);
    [reflexivity|discriminate|reflexivity].
Defined.

(** X2: [getJobStatus] answers [null] for a job that has no hash in the
    cache, for one whose hash was evicted, and for one whose status was
    written as the empty text. *)
Theorem getJobStatus_unknown (jobId : string) (w : World) :
  faults w = [] ->
  (cache w !! job_key jobId = None -> (run (getJobStatus jobId) w).1 = inr None) /\
  (run (getJobStatus jobId) (evict (job_key jobId) w)).1 = inr None /\
  (forall progress message,
     (run (setJobStatus jobId "" progress message;; getJobStatus jobId) w).1 = inr None).
Proof.
  intros Hf.
  assert (Hnone : forall w0, faults w0 = [] -> cache w0 !! job_key jobId = None ->
                             (run (getJobStatus jobId) w0).1 = inr None).
  { intros w0 Hf0 Hc.
    rewrite getJobStatus_sound by exact Hf0. now rewrite Hc. }
  split; [apply Hnone, Hf|]. split.
  - apply Hnone; [exact Hf|]. simpl. apply lookup_delete_eq.
  - intros progress message.
    now rewrite set_then_get by exact Hf.
Qed.

Lemma getJobStatus_unknown_witness :
  (run (getJobStatus "c0") (evict (job_key "c0") world1)).1 = inr None.
Proof.
  destruct (getJobStatus_unknown "c0" world1 eq_refl) as (_ & H & _). exact H.
Defined.

(** ** Invariants of programs *)

Section Invariants.

Variable P : forall X, op X -> Prop.
Variable Inv : World -> Prop.
Hypothesis exec_keeps : forall X (o : op X) (w : World), P X o -> Inv w -> Inv (exec o w).2.

Lemma run_keeps {A : Type} (p : Prog A) :
  forall w, all_ops P p -> Inv w -> Inv (run p w).2.
Proof.
  induction p as [A a|A e|A X o k IH|A B body IHb handler IHh k IHk]; intros w H Hw; simpl in *.
  - exact Hw.
  - exact Hw.
  - destruct H as [Ho Hk]. pose proof (exec_keeps X o w Ho Hw) as He.
    destruct (exec o w) as [[e|x] w']; [exact He|]. now apply IH.
  - destruct H as (Hb & Hh & Hk). specialize (IHb w Hb Hw).
    destruct (run body w) as [[e|b] w1]; simpl in IHb.
    + specialize (IHh e w1 (Hh e) IHb).
      destruct (run (handler e) w1) as [[e'|b] w2]; [exact IHh|]. now apply IHk.
    + now apply IHk.
Qed.

Lemma step_keeps {A : Type} (p : Prog A) :
  forall w, all_ops P p -> Inv w -> Inv (step p w).2.
Proof.
  induction p as [A a|A e|A X o k IH|A B body IHb handler IHh k IHk]; intros w H Hw; simpl in *.
  - exact Hw.
  - exact Hw.
  - destruct H as [Ho _]. pose proof (exec_keeps X o w Ho Hw) as He.
    now destruct (exec o w) as [[e|x] w'].
  - destruct H as (Hb & _ & _). specialize (IHb w Hb Hw).
    now destruct body.
Qed.

Lemma run_schedule_keeps (schedule : list nat) :
  forall s, Forall (all_ops P) s.2 -> Inv s.1 -> Inv (run_schedule schedule s).1.
Proof.
  induction schedule as [|i rest IH]; intros s Hp Hw; simpl; [exact Hw|].
  apply IH; unfold step_at.
  - destruct (s.2 !! i) as [p|] eqn:Hi; [|exact Hp].
    pose proof (step_all_ops P p s.1 (pool_lookup _ _ _ _ Hp Hi)) as Hp'.
    destruct (step p s.1) as [p' w']. simpl. now apply pool_insert.
  - destruct (s.2 !! i) as [p|] eqn:Hi; [|exact Hw].
    pose proof (step_keeps p s.1 (pool_lookup _ _ _ _ Hp Hi) Hw) as Hw'.
    now destruct (step p s.1) as [p' w'].
Qed.

End Invariants.

(** ** [getStatus] reads only, and answers the owner only *)

Lemma exec_reads {X : Type} (o : op X) (w0 w : World) :
  reads X o -> same_data w0 w -> same_data w0 (exec o w).2.
Proof.
  intros Ho Hw. unfold same_data, exec.
  destruct (faults w) as [|[e|] rest]; destruct o; simpl in *; try contradiction; exact Hw.
Qed.

Lemma getJobStatus_reads (jobId : string) : all_ops reads (getJobStatus jobId).
Proof.
  unfold getJobStatus, mbind, Prog_bind, mret, Prog_ret, call. simpl.
  split; [exact I|]. intros data. now destruct (or_undefined _).
Qed.

Lemma getStatus_reads (ctx : Context) (id : string) : all_ops reads (getStatus ctx id).
Proof.
  unfold getStatus, mbind, Prog_bind, mret, Prog_ret, call, lift. simpl.
  split; [exact I|]. intros [[job [rq|]]|]; simpl; try exact I.
  destruct (negb _); [exact I|].
  unfold getJobStatus, mbind, Prog_bind, mret, Prog_ret, call. simpl.
  split; [exact I|]. intros data. now destruct (or_undefined _).
Qed.

Lemma getStatus_data (ctx : Context) (id : string) (w : World) :
  same_data w (run (getStatus ctx id) w).2.
Proof.
  apply (run_keeps reads (same_data w)).
  - intros X o w1. apply exec_reads.
  - apply getStatus_reads.
  - repeat split.
Qed.

(** An answer means that the job is visible to the caller. *)
Lemma getStatus_answer (ctx : Context) (id : string) (w : World) (s : StatusResponse) :
  (run (getStatus ctx id) w).1 = inr s ->
  exists row rq,
    jobs w !! id = Some row /\
    design_requests w !! job_designRequestId row = Some rq /\
    rq_userId rq = userId ctx /\
    s_id s = job_id row /\ s_type s = job_type row /\
    s_designRequestId s = job_designRequestId row.
Proof.
  unfold getStatus, mbind, Prog_bind, mret, Prog_ret. intros H.
  rewrite run_bind, run_call in H.
  destruct (exec (JobFindFirst id) w) as [[e|found] w1] eqn:E; [discriminate H|].
  apply exec_inr in E. destruct E as (w1' & E & ->). simpl in E.
  injection E as <- <-.
  destruct (jobs w !! id) as [row|] eqn:Hrow; [|discriminate H].
  destruct (design_requests w !! job_designRequestId row) as [rq|] eqn:Hrq; [|discriminate H].
  cbn [lift bind] in H.
  destruct (String.eqb_spec (rq_userId rq) (userId ctx)) as [Hu|Hu]; [|discriminate H].
  cbn [negb] in H. exists row, rq.
  split; [first [reflexivity|assumption]|]. split; [first [reflexivity|assumption]|].
  split; [exact Hu|].
  unfold getJobStatus, mbind, Prog_bind, mret, Prog_ret in H.
  rewrite !run_bind, run_call in H.
  match type of H with context [exec ?o ?w] => destruct (exec o w) as [[e|data] w2] end;
    [discriminate H|].
  destruct (or_undefined (data !! "status")); simpl in H; injection H as <-;
    repeat split.
Qed.

(** A refusal comes right after the lookup of the job. *)
Lemma getStatus_refuses (ctx : Context) (id : string) (w : World) :
  next_sound w -> ~ visible ctx id w ->
  (run (getStatus ctx id) w).1 =
  match jobs w !! id with
  | None => inl (TRPCError "NOT_FOUND" "Job not found")
  | Some row =>
      match design_requests w !! job_designRequestId row with
      | None => inl (Error "Cannot read properties of null (reading 'userId')")
      | Some _ => inl (TRPCError "FORBIDDEN" "You do not have access to this job")
      end
  end /\
  since w (run (getStatus ctx id) w).2 = [Did (JobFindFirst id)].
Proof.
  intros Hs Hv.
  assert (E : exec (JobFindFirst id) w
              = (inr (match jobs w !! id with
                      | Some j => Some (j, design_requests w !! job_designRequestId j)
                      | None => None
                      end),
                 logged (Did (JobFindFirst id)) (with_faults (drop 1) w))).
  { unfold exec, next_sound in *. destruct (faults w) as [|[e|] rest]; [|contradiction|];
      reflexivity. }
  assert (Hlog : since w (logged (Did (JobFindFirst id)) (with_faults (drop 1) w))
                 = [Did (JobFindFirst id)]).
  { unfold since. simpl. now rewrite drop_app_length. }
  unfold getStatus, mbind, Prog_bind, mret, Prog_ret.
  rewrite run_bind, run_call, E.
  destruct (jobs w !! id) as [row|] eqn:Hrow; [|split; [reflexivity|exact Hlog]].
  destruct (design_requests w !! job_designRequestId row) as [rq|] eqn:Hrq;
    [|split; [reflexivity|exact Hlog]].
  cbn [lift bind].
  destruct (String.eqb_spec (rq_userId rq) (userId ctx)) as [Hu|Hu];
    [|split; [reflexivity|exact Hlog]].
  exfalso. apply Hv. now exists row, rq.
Qed.

(** X3: [getStatus] answers only for a job whose design request belongs
    to the caller, whatever the infrastructure does; on a sound infrastructure
    an unknown job is NOT_FOUND and the job of another user is FORBIDDEN, both
    decided right after the lookup, before the cache is read; and no call
    changes anything that is stored. *)
Theorem getStatus_owner_only (ctx : Context) (id : string) (w : World) :
  (forall s, (run (getStatus ctx id) w).1 = inr s ->
     exists row rq,
       jobs w !! id = Some row /\
       design_requests w !! job_designRequestId row = Some rq /\
       rq_userId rq = userId ctx /\
       s_id s = job_id row /\ s_type s = job_type row /\
       s_designRequestId s = job_designRequestId row) /\
  (next_sound w -> jobs w !! id = None ->
     (run (getStatus ctx id) w).1 = inl (TRPCError "NOT_FOUND" "Job not found")) /\
  (next_sound w ->
   forall row rq,
     jobs w !! id = Some row -> design_requests w !! job_designRequestId row = Some rq ->
     rq_userId rq <> userId ctx ->
     (run (getStatus ctx id) w).1
     = inl (TRPCError "FORBIDDEN" "You do not have access to this job")) /\
  (next_sound w -> ~ visible ctx id w ->
     since w (run (getStatus ctx id) w).2 = [Did (JobFindFirst id)]) /\
  same_data w (run (getStatus ctx id) w).2.
Proof.
  split; [intros s; apply getStatus_answer|].
  split; [|split; [|split]].
  - intros Hs Hrow.
    destruct (getStatus_refuses ctx id w Hs) as [-> _]; [|now rewrite Hrow].
    intros (row & rq & Hj & _). congruence.
  - intros Hs row rq Hrow Hrq Hu.
    destruct (getStatus_refuses ctx id w Hs) as [-> _]; [|now rewrite Hrow, Hrq].
    intros (row' & rq' & Hj & Hr & Hu'). congruence.
  - intros Hs Hv. now apply getStatus_refuses.
  - apply getStatus_data.
Qed.

(** Another user asks for the job of [world1]. *)
Lemma getStatus_owner_only_witness :
  (run (getStatus {| userId := "user_other" |} "c0") world1).1
  = inl (TRPCError "FORBIDDEN" "You do not have access to this job").
Proof.
  destruct (getStatus_owner_only {| userId := "user_other" |} "c0" world1) as (_ & _ & H & _).
  let v := eval vm_compute in (jobs world1 !! "c0") in
  lazymatch v with Some ?row => apply (H I row req1) end;
    [vm_compute; reflexivity|vm_compute; reflexivity|discriminate].
Defined.

(** ** What the handlers leave alone *)

Lemma perform_faults {X : Type} (o : op X) (w : World) :
  faults (perform o w).2 = faults w.
Proof. destruct o; simpl; repeat case_split; reflexivity. Qed.

Lemma generateDesign_ops (P : forall X, op X -> Prop) (input : DesignInput) :
  P _ OpenAIChat -> all_ops P (generateDesign input).
Proof.
  intros H. unfold generateDesign, try_catch, generateMockDesign.
  unfold mbind, Prog_bind, mret, Prog_ret, lift. simpl.
  split; [|split; intros; exact I]. split; [exact H|].
  intros x. now destruct (read_completion x).
Qed.

Ltac walk_ops :=
  simpl;
  lazymatch goal with
  | |- all_ops _ (bind (generateDesign _) _) =>
      apply all_ops_bind; [apply generateDesign_ops; exact I|intro; walk_ops]
  | |- all_ops _ _ => fail "stuck"
  | |- True => exact I
  | |- _ /\ _ => split; walk_ops
  | |- forall _, _ => intro; walk_ops
  | |- _ => idtac
  end.

Section HandlerFrame.

#[local] Opaque generateDesign renderMermaidToSvg.

Lemma handler_worker_ops (d : delivery) : all_ops worker_op (handler d).
Proof. destruct d; unfold_handler; walk_ops. Qed.

End HandlerFrame.

Lemma identity_insert (m : gmap string JobRow) (k : string) (row row' : JobRow) :
  m !! k = Some row -> job_identity row' = job_identity row ->
  job_identity <$> <[k := row']> m = job_identity <$> m.
Proof.
  intros H Hid. rewrite fmap_insert, Hid. apply insert_id.
  now rewrite lookup_fmap, H.
Qed.

Lemma exec_worker_frame {X : Type} (o : op X) (w0 w : World) :
  worker_op X o -> worker_frame w0 w -> worker_frame w0 (exec o w).2.
Proof.
  intros Ho Hw. unfold worker_frame, exec.
  destruct (faults w) as [|[e|] rest]; destruct o; simpl in *; try contradiction;
    repeat case_split; simpl; try exact Hw.
  all: destruct Hw as (? & ? & ? & ? & ? & Hid); repeat (split; [assumption|]).
  all: rewrite <- Hid; eapply identity_insert; [eassumption|reflexivity].
Qed.

Lemma exec_sound_after {X : Type} (o : op X) (w : World) :
  faults w = [] -> faults (exec o w).2 = [].
Proof.
  intros Hf. unfold exec. rewrite Hf.
  pose proof (perform_faults o (with_faults (drop 1) w)) as Hp.
  destruct (perform o (with_faults (drop 1) w)) as [r w1]. simpl in *. now rewrite Hp, Hf.
Qed.

Lemma run_sound_after {A : Type} (p : Prog A) (w : World) :
  faults w = [] -> faults (run p w).2 = [].
Proof.
  intros Hf. apply (run_keeps (fun _ _ => True) (fun w => faults w = [])).
  - intros X o w1 _. apply exec_sound_after.
  - clear. induction p; simpl; auto.
  - exact Hf.
Qed.

Lemma handler_frame (d : delivery) (w : World) : worker_frame w (run (handler d) w).2.
Proof.
  apply (run_keeps worker_op (worker_frame w)).
  - intros X o w1. apply exec_worker_frame.
  - apply handler_worker_ops.
  - repeat split.
Qed.

Lemma schedule_frame (ds : list delivery) (schedule : list nat) (w : World) :
  worker_frame w (run_schedule schedule (start w ds)).1.
Proof.
  apply (run_schedule_keeps worker_op (worker_frame w)).
  - intros X o w1. apply exec_worker_frame.
  - simpl. induction ds as [|d ds IH]; simpl; constructor;
      [apply handler_worker_ops|exact IH].
  - repeat split.
Qed.

(** X4: the handlers never enqueue, never create or remove a Job row, never
    change which job a row is, and never set an expiry. *)
Theorem handlers_keep_frame :
  (forall (d : delivery) (w : World), worker_frame w (run (handler d) w).2) /\
  (forall (ds : list delivery) (schedule : list nat) (w : World),
     worker_frame w (run_schedule schedule (start w ds)).1).
Proof. split; [exact handler_frame|exact schedule_frame]. Qed.

(** ** The connection of a handler *)

Section HandlerConnection.

#[local] Opaque generateDesign.

Lemma handler_quits (d : delivery) : all_runs (handler d) quit_law.
Proof.
  destruct d; unfold_handler; explore ltac:(unfold quit_law; vm_compute; repeat split;
                   intros; first [reflexivity|discriminate]).
Qed.

End HandlerConnection.

(** X5: in every execution of a handler, whatever fails, [redis.quit()]
    completes at most once and is attempted at most twice (a second time
    only after the first attempt raised); once it has completed nothing
    else is awaited, and it has completed whenever the handler returns. *)
Theorem handler_quits_once (d : delivery) (w : World) :
  quit_law (since w (run (handler d) w).2) (run (handler d) w).1.
Proof. apply all_runs_since, handler_quits. Qed.

(** ** Enqueueing on a sound infrastructure *)

(** The Job row that [db.job.create] inserts. *)
Lemma enqueueDiagramRendering_sound (d : DiagramPayload) (w : World) (rq : DesignRequestRow) :
  faults w = [] ->
  design_requests w !! r_designRequestId d = Some rq ->
  jobs w !! cuid (seed w) = None ->
  exists w',
    run (enqueueDiagramRendering d) w = (inr (cuid (seed w)), w') /\
    faults w' = [] /\ seed w' = S (seed w) /\ openai w' = openai w /\
    design_requests w' = design_requests w /\
    design_versions w' = design_versions w /\ diagram_versions w' = diagram_versions w /\
    designQueue w' = designQueue w /\
    diagramQueue w'
    = (diagramQueue w ++ [("render", {| r_jobId := cuid (seed w); r_data := d |})])%list /\
    jobs w' = <[cuid (seed w) := new_job RENDER_DIAGRAM (r_designRequestId d) (DiagramMeta d) w]>
                (jobs w) /\
    cache w' !! job_key (cuid (seed w))
    = Some (hset_fields [("status", "PENDING"); ("progress", "0");
                         ("message", "Diagram rendering queued")] ["updatedAt"] (now w + 1 + 1)
              (default ∅ (cache w !! job_key (cuid (seed w))))) /\
    ttl w' !! job_key (cuid (seed w)) = Some 86400.
Proof.
  intros Hf Hrq Hfree. unfold enqueueDiagramRendering, mbind, Prog_bind, mret, Prog_ret.
  erewrite run_bind_inr;
    [|rewrite run_call; apply exec_performs; [exact Hf|]; simpl; rewrite Hrq, Hfree; reflexivity].
  cbv beta.
  erewrite run_bind_inr;
    [|rewrite run_call; apply exec_performs; [simpl; now rewrite Hf|reflexivity]].
  cbv beta. cbn [job_id].
  erewrite run_bind_inr; [|apply setJobStatus_run; simpl; now rewrite Hf].
  eexists. split; [reflexivity|]. simpl. rewrite Hf.
  repeat (split; [reflexivity|]).
  split; [|apply lookup_insert_eq]. rewrite lookup_insert_eq. reflexivity.
Qed.

Lemma enqueueDesignGeneration_sound (d : DesignPayload) (w : World) (rq : DesignRequestRow) :
  faults w = [] ->
  design_requests w !! designRequestId d = Some rq ->
  jobs w !! cuid (seed w) = None ->
  exists w',
    run (enqueueDesignGeneration d) w = (inr (cuid (seed w)), w') /\
    faults w' = [] /\ seed w' = S (seed w) /\ openai w' = openai w /\
    design_requests w' = design_requests w /\
    design_versions w' = design_versions w /\ diagram_versions w' = diagram_versions w /\
    diagramQueue w' = diagramQueue w /\
    designQueue w'
    = (designQueue w ++ [("generate", {| jobId := cuid (seed w); data := d |})])%list /\
    jobs w' = <[cuid (seed w) := new_job GENERATE_DESIGN (designRequestId d) (DesignMeta d) w]>
                (jobs w).
Proof.
  intros Hf Hrq Hfree. unfold enqueueDesignGeneration, mbind, Prog_bind, mret, Prog_ret.
  erewrite run_bind_inr;
    [|rewrite run_call; apply exec_performs; [exact Hf|]; simpl; rewrite Hrq, Hfree; reflexivity].
  cbv beta.
  erewrite run_bind_inr;
    [|rewrite run_call; apply exec_performs; [simpl; now rewrite Hf|reflexivity]].
  cbv beta. cbn [job_id].
  erewrite run_bind_inr; [|apply setJobStatus_run; simpl; now rewrite Hf].
  eexists. split; [reflexivity|]. simpl. rewrite Hf.
  repeat (split; [reflexivity|]). reflexivity.
Qed.

(** The row of a job after a handler ran is the row of the same job. *)
Lemma handler_keeps_identity (d : delivery) (w : World) (id : string) (row0 : JobRow) :
  jobs w !! id = Some row0 ->
  exists row, jobs (run (handler d) w).2 !! id = Some row /\
              job_identity row = job_identity row0.
Proof.
  intros H.
  destruct (handler_frame d w) as (_ & _ & _ & _ & _ & Hid).
  apply (f_equal (fun m => m !! id)) in Hid. rewrite !lookup_fmap, H in Hid.
  destruct (jobs (run (handler d) w).2 !! id) as [row|]; [|discriminate Hid].
  exists row. split; [reflexivity|]. simpl in Hid. congruence.
Qed.

(** ** From the enqueue to the status of the finished job *)

(** X6: a diagram job from end to end on a sound infrastructure:
    [enqueueDiagramRendering] returns the new job id and queues the payload
    with it, [diagramWorker] on that payload succeeds and appends one diagram
    version with the payload's source and no SVG, and the owner's
    [getStatus] then reports COMPLETED at 100, from the cache and, once the
    cache entry is gone, from the Job row. *)
Theorem diagram_job_completes (ctx : Context) (d : DiagramPayload) (w : World)
    (rq : DesignRequestRow) :
  faults w = [] ->
  design_requests w !! r_designRequestId d = Some rq ->
  rq_userId rq = userId ctx ->
  jobs w !! cuid (seed w) = None ->
  existsb (fun r => String.eqb (gv_id r) (cuid (S (seed w)))) (diagram_versions w) = false ->
  let id := cuid (seed w) in
  let queued := {| r_jobId := id; r_data := d |} in
  let w1 := (run (enqueueDiagramRendering d) w).2 in
  let w2 := (run (diagramWorker queued) w1).2 in
  (run (enqueueDiagramRendering d) w).1 = inr id /\
  last (diagramQueue w1) = Some ("render", queued) /\
  (run (diagramWorker queued) w1).1 = inr {| success := true; designVersionId := None |} /\
  (exists gv,
     diagram_versions w2 = (diagram_versions w ++ [gv])%list /\
     gv_designRequestId gv = r_designRequestId d /\
     gv_mermaidSource gv = r_mermaidSource d /\ gv_svgContent gv = None) /\
  status_pair (run (getStatus ctx id) w2).1 = Some ("COMPLETED", Some 100) /\
  status_pair (run (getStatus ctx id) (evict (job_key id) w2)).1 = Some ("COMPLETED", Some 100).
Proof.
  intros Hf Hrq Hu Hfree Hid id queued w1 w2.
  destruct (enqueueDiagramRendering_sound d w rq Hf Hrq Hfree)
    as (w1' & Hrun & Hf1 & Hseed & _ & Hreq & _ & Hgv & _ & Hq & Hjobs & _).
  subst w2 w1. rewrite Hrun. cbn [fst snd].
  assert (Hj1 : jobs w1' !! id
                = Some (new_job RENDER_DIAGRAM (r_designRequestId d) (DiagramMeta d) w))
    by (rewrite Hjobs; apply lookup_insert_eq).
  destruct (diagramWorker_completes queued w1' _ rq Hf1 Hj1) as (w2 & t & Hrun2 & Hdone & Hgv2).
  { cbn. now rewrite Hreq. }
  { now rewrite Hseed, Hgv. }
  rewrite Hrun2. cbn [fst snd].
  split; [reflexivity|]. split; [rewrite Hq; apply last_snoc|]. split; [reflexivity|].
  split; [eexists; split; [rewrite Hgv2, Hgv; reflexivity|repeat split]|].
  destruct (handler_keeps_identity (DiagramJob queued) w1' id _ Hj1) as (row & Hrow & Hsame).
  cbn [handler] in Hrow. rewrite Hrun2 in Hrow. cbn [snd] in Hrow.
  assert (Hrid : job_designRequestId row = r_designRequestId d) by now injection Hsame.
  destruct (handler_frame (DiagramJob queued) w1') as (_ & _ & _ & Hreq2 & _).
  cbn [handler] in Hreq2. rewrite Hrun2 in Hreq2. cbn [snd] in Hreq2.
  apply (getStatus_completed ctx id w2 row rq).
  - pose proof (run_sound_after (diagramWorker queued) w1' Hf1) as H. now rewrite Hrun2 in H.
  - exact Hrow.
  - now rewrite Hrid, Hreq2, Hreq.
  - exact Hu.
  - exact Hdone.
Qed.

Lemma diagram_job_completes_witness :
  status_pair
    (run (getStatus ctx1 "c0")
       (run (diagramWorker diagram_job1) (run (enqueueDiagramRendering diagram_payload1) world0).2).2).1
  = Some ("COMPLETED", Some 100).
Proof.
  exact (proj1 (proj2 (proj2 (proj2 (proj2
           (diagram_job_completes ctx1 diagram_payload1 world0 req1
              eq_refl eq_refl eq_refl eq_refl eq_refl)))))).
Defined.

(** X7: a design job from end to end on a sound infrastructure with the
    provider unreachable: [enqueueDesignGeneration] returns the new job id,
    [designWorker] on the queued payload succeeds with the id of the design
    version it created, appends one design version (the fallback design)
    and one diagram version linked to it, each numbered after the latest of
    the request, and the owner's [getStatus] reports COMPLETED at 100 with
    or without the cache entry. *)
Theorem design_job_completes (ctx : Context) (d : DesignPayload) (w : World)
    (rq : DesignRequestRow) :
  faults w = [] -> openai w = [] ->
  design_requests w !! designRequestId d = Some rq ->
  rq_userId rq = userId ctx ->
  jobs w !! cuid (seed w) = None ->
  existsb (fun r => String.eqb (dv_id r) (cuid (S (seed w)))) (design_versions w) = false ->
  existsb (fun r => String.eqb (gv_id r) (cuid (S (S (seed w))))) (diagram_versions w) = false ->
  let id := cuid (seed w) in
  let queued := {| jobId := id; data := d |} in
  let w1 := (run (enqueueDesignGeneration d) w).2 in
  let w2 := (run (designWorker queued) w1).2 in
  (run (enqueueDesignGeneration d) w).1 = inr id /\
  last (designQueue w1) = Some ("generate", queued) /\
  (run (designWorker queued) w1).1
  = inr {| success := true; designVersionId := Some (cuid (S (seed w))) |} /\
  (exists dv gv,
     design_versions w2 = (design_versions w ++ [dv])%list /\
     diagram_versions w2 = (diagram_versions w ++ [gv])%list /\
     dv_id dv = cuid (S (seed w)) /\
     dv_designData dv = design (mockDesign (design_input d)) /\
     gv_designVersionId gv = Some (dv_id dv) /\
     gv_version gv
     = next_version gv_version (latest gv_version (diagram_versions_of (designRequestId d) w)) /\
     dv_version dv
     = next_version dv_version (latest dv_version (design_versions_of (designRequestId d) w))) /\
  status_pair (run (getStatus ctx id) w2).1 = Some ("COMPLETED", Some 100) /\
  status_pair (run (getStatus ctx id) (evict (job_key id) w2)).1 = Some ("COMPLETED", Some 100).
Proof.
  intros Hf Hai Hrq Hu Hfree Hid1 Hid2 id queued w1 w2.
  destruct (enqueueDesignGeneration_sound d w rq Hf Hrq Hfree)
    as (w1' & Hrun & Hf1 & Hseed & Hai1 & Hreq & Hdv & Hgv & _ & Hq & Hjobs).
  subst w2 w1. rewrite Hrun. cbn [fst snd].
  assert (Hj1 : jobs w1' !! id
                = Some (new_job GENERATE_DESIGN (designRequestId d) (DesignMeta d) w))
    by (rewrite Hjobs; apply lookup_insert_eq).
  destruct (designWorker_completes queued w1' _ rq Hf1 ltac:(now rewrite Hai1) Hj1) as
    (w2 & t1 & t2 & Hrun2 & Hdone & Hdv2 & Hgv2).
  { cbn. now rewrite Hreq. }
  { now rewrite Hseed, Hdv. }
  { now rewrite Hseed, Hgv. }
  rewrite Hrun2. cbn [fst snd]. rewrite Hseed.
  split; [reflexivity|]. split; [rewrite Hq; apply last_snoc|]. split; [reflexivity|].
  split.
  { eexists _, _. split; [rewrite Hdv2, Hdv; reflexivity|].
    split; [rewrite Hgv2, Hgv; reflexivity|].
    cbn. unfold design_versions_of, diagram_versions_of. rewrite Hseed, Hdv, Hgv.
    repeat split. }
  destruct (handler_keeps_identity (DesignJob queued) w1' id _ Hj1) as (row & Hrow & Hsame).
  cbn [handler] in Hrow. rewrite Hrun2 in Hrow. cbn [snd] in Hrow.
  assert (Hrid : job_designRequestId row = designRequestId d) by now injection Hsame.
  destruct (handler_frame (DesignJob queued) w1') as (_ & _ & _ & Hreq2 & _).
  cbn [handler] in Hreq2. rewrite Hrun2 in Hreq2. cbn [snd] in Hreq2.
  apply (getStatus_completed ctx id w2 row rq).
  - pose proof (run_sound_after (designWorker queued) w1' Hf1) as H. now rewrite Hrun2 in H.
  - exact Hrow.
  - now rewrite Hrid, Hreq2, Hreq.
  - exact Hu.
  - exact Hdone.
Qed.

Lemma design_job_completes_witness :
  status_pair
    (run (getStatus ctx1 "c0")
       (run (designWorker job1) (run (enqueueDesignGeneration payload1) world0).2).2).1
  = Some ("COMPLETED", Some 100).
Proof.
  exact (proj1 (proj2 (proj2 (proj2 (proj2
           (design_job_completes ctx1 payload1 world0 req1
              eq_refl eq_refl eq_refl eq_refl eq_refl eq_refl eq_refl)))))).
Defined.

(** ** [enqueueDiagramRendering] under any failure *)

Lemma enqueueDiagram_success (d : DiagramPayload) (w : World) (id : string) (w' : World) :
  run (enqueueDiagramRendering d) w = (inr id, w') ->
  jobs w !! id = None /\
  (exists row,
     jobs w' = <[id := row]> (jobs w) /\
     job_id row = id /\ job_type row = RENDER_DIAGRAM /\ job_status row = PENDING /\
     job_progress row = 0 /\ job_designRequestId row = r_designRequestId d /\
     job_metadata row = DiagramMeta d) /\
  diagramQueue w' = (diagramQueue w ++ [("render", {| r_jobId := id; r_data := d |})])%list /\
  designQueue w' = designQueue w /\
  (exists h,
     cache w' !! job_key id = Some h /\ h !! "status" = Some "PENDING" /\
     h !! "progress" = Some "0" /\ h !! "message" = Some "Diagram rendering queued") /\
  ttl w' !! job_key id = Some 86400 /\
  since w w' =
    [Did (JobCreate RENDER_DIAGRAM PENDING (r_designRequestId d) (DiagramMeta d));
     Did (DiagramQueueAdd "render" {| r_jobId := id; r_data := d |});
     Did (RedisHset (job_key id)
            [("status", "PENDING"); ("progress", "0"); ("message", "Diagram rendering queued")]
            ["updatedAt"]);
     Did (RedisExpire (job_key id) 86400)].
Proof.
  unfold enqueueDiagramRendering, setJobStatus, mbind, Prog_bind, mret, Prog_ret. intros H.
  next_op H E1; [discriminate H|].
  next_op H E2; [discriminate H|].
  next_op H E3; [discriminate H|].
  next_op H E4; [discriminate H|].
  simpl in H. injection H as <- <-.
  apply exec_inr in E1, E2, E3, E4.
  destruct E1 as (w1' & P1 & ->), E2 as (w2' & P2 & ->), E3 as (w3' & P3 & ->),
    E4 as (w4' & P4 & ->).
  simpl in P1, P2, P3, P4.
  destruct (design_requests w !! r_designRequestId d); [|discriminate P1].
  destruct (jobs w !! cuid (seed w)) eqn:Hfree; [discriminate P1|].
  injection P1 as <- <-. injection P2 as ? <-. injection P3 as ? <-.
  simpl in P4. rewrite lookup_insert_eq in P4. injection P4 as ? <-. simpl.
  split; [exact Hfree|].
  split; [eexists; split; [reflexivity|]; repeat split; reflexivity|].
  split; [reflexivity|]. split; [reflexivity|].
  split;
    [eexists; split; [apply lookup_insert_eq|]; unfold hset_fields; simpl;
     repeat split; rewrite ?lookup_insert_ne by discriminate; apply lookup_insert_eq|].
  split; [apply lookup_insert_eq|].
  unfold since; simpl. rewrite <- !app_assoc, drop_app_length. reflexivity.
Qed.

Lemma perform_create_raises (type : JobType) (rid : string) (m : JobPayload) (w : World)
    (e : Exn) (w1 : World) :
  perform (JobCreate type PENDING rid m) w = (inl e, w1) -> w1 = with_seed S w.
Proof. simpl. repeat case_split; now intros [= <- <-]. Qed.

Lemma enqueueDiagram_create_fails (d : DiagramPayload) (w : World) (e : Exn) (w1 : World) :
  exec (JobCreate RENDER_DIAGRAM PENDING (r_designRequestId d) (DiagramMeta d)) w = (inl e, w1) ->
  run (enqueueDiagramRendering d) w = (inl e, w1) /\
  diagramQueue w1 = diagramQueue w /\ jobs w1 = jobs w /\ cache w1 = cache w.
Proof.
  intros E. unfold enqueueDiagramRendering, mbind, Prog_bind. rewrite run_bind, run_call, E.
  split; [reflexivity|].
  apply exec_inl in E. destruct E as (w0 & -> & [[_ ->]|E]).
  - auto.
  - apply perform_create_raises in E. subst w0. auto.
Qed.

Lemma exec_let_through {X : Type} (o : op X) (w : World) (rest : list (option Exn))
    (r : Exn + X) (w1 : World) :
  faults w = None :: rest -> perform o (with_faults (drop 1) w) = (r, w1) ->
  exec o w = (r, logged (outcome o r) w1).
Proof. intros Hf Hp. unfold exec. now rewrite Hf, Hp. Qed.

Lemma exec_fault {X : Type} (o : op X) (w : World) (e : Exn) (rest : list (option Exn)) :
  faults w = Some e :: rest ->
  exec o w = (inl e, logged (Raised o e) (with_faults (drop 1) w)).
Proof. intros Hf. unfold exec. now rewrite Hf. Qed.

Lemma run_bind_inl {A B : Type} (p : Prog A) (f : A -> Prog B) (w : World) (e : Exn)
    (w1 : World) :
  run p w = (inl e, w1) -> run (bind p f) w = (inl e, w1).
Proof. intros H. now rewrite run_bind, H. Qed.

(** The push raises after the row was created. *)
Lemma enqueueDiagram_push_fails (d : DiagramPayload) (w : World) (e : Exn)
    (rest : list (option Exn)) :
  faults w = None :: Some e :: rest ->
  is_Some (design_requests w !! r_designRequestId d) ->
  jobs w !! cuid (seed w) = None ->
  let r := run (enqueueDiagramRendering d) w in
  r.1 = inl e /\
  jobs r.2 = <[cuid (seed w) := new_job RENDER_DIAGRAM (r_designRequestId d) (DiagramMeta d) w]>
               (jobs w) /\
  designQueue r.2 = designQueue w /\ diagramQueue r.2 = diagramQueue w /\
  cache r.2 = cache w.
Proof.
  intros Hf [rq Hrq] Hfree r. subst r.
  unfold enqueueDiagramRendering, mbind, Prog_bind.
  erewrite run_bind_inr;
    [|rewrite run_call; eapply exec_let_through; [exact Hf|]; simpl; rewrite Hrq, Hfree;
      reflexivity].
  cbv beta.
  erewrite run_bind_inl;
    [|rewrite run_call; eapply exec_fault; simpl; rewrite Hf; reflexivity].
  repeat split.
Qed.

Lemma enqueueDesign_push_fails (d : DesignPayload) (w : World) (e : Exn)
    (rest : list (option Exn)) :
  faults w = None :: Some e :: rest ->
  is_Some (design_requests w !! designRequestId d) ->
  jobs w !! cuid (seed w) = None ->
  let r := run (enqueueDesignGeneration d) w in
  r.1 = inl e /\
  jobs r.2 = <[cuid (seed w) := new_job GENERATE_DESIGN (designRequestId d) (DesignMeta d) w]>
               (jobs w) /\
  designQueue r.2 = designQueue w /\ diagramQueue r.2 = diagramQueue w /\
  cache r.2 = cache w.
Proof.
  intros Hf [rq Hrq] Hfree r. subst r.
  unfold enqueueDesignGeneration, mbind, Prog_bind.
  erewrite run_bind_inr;
    [|rewrite run_call; eapply exec_let_through; [exact Hf|]; simpl; rewrite Hrq, Hfree;
      reflexivity].
  cbv beta.
  erewrite run_bind_inl;
    [|rewrite run_call; eapply exec_fault; simpl; rewrite Hf; reflexivity].
  repeat split.
Qed.

(** X8: [enqueueDiagramRendering].  When it returns, the id is new, one
    PENDING RENDER_DIAGRAM row was created for the request, the payload with
    that id is the last of the diagram queue, the design queue is untouched,
    the cache holds PENDING / 0 / "Diagram rendering queued" for a day, and
    exactly four operations happened.  When the insert raises, the call
    raises the same error and nothing is queued, stored or cached; for a
    design request that does not exist the insert raises the foreign-key
    error. *)
Theorem enqueueDiagramRendering_spec (d : DiagramPayload) (w : World) :
  (forall id w',
     run (enqueueDiagramRendering d) w = (inr id, w') ->
     jobs w !! id = None /\
     (exists row,
        jobs w' = <[id := row]> (jobs w) /\
        job_id row = id /\ job_type row = RENDER_DIAGRAM /\ job_status row = PENDING /\
        job_progress row = 0 /\ job_designRequestId row = r_designRequestId d /\
        job_metadata row = DiagramMeta d) /\
     diagramQueue w' = (diagramQueue w ++ [("render", {| r_jobId := id; r_data := d |})])%list /\
     designQueue w' = designQueue w /\
     (exists h,
        cache w' !! job_key id = Some h /\ h !! "status" = Some "PENDING" /\
        h !! "progress" = Some "0" /\ h !! "message" = Some "Diagram rendering queued") /\
     ttl w' !! job_key id = Some 86400 /\
     since w w' =
       [Did (JobCreate RENDER_DIAGRAM PENDING (r_designRequestId d) (DiagramMeta d));
        Did (DiagramQueueAdd "render" {| r_jobId := id; r_data := d |});
        Did (RedisHset (job_key id)
               [("status", "PENDING"); ("progress", "0");
                ("message", "Diagram rendering queued")]
               ["updatedAt"]);
        Did (RedisExpire (job_key id) 86400)]) /\
  (forall e w1,
     exec (JobCreate RENDER_DIAGRAM PENDING (r_designRequestId d) (DiagramMeta d)) w
     = (inl e, w1) ->
     run (enqueueDiagramRendering d) w = (inl e, w1) /\
     diagramQueue w1 = diagramQueue w /\ jobs w1 = jobs w /\ cache w1 = cache w) /\
  (design_requests w !! r_designRequestId d = None -> next_sound w ->
   (run (enqueueDiagramRendering d) w).1
   = inl (P2003 "`jobs_design_request_id_fkey (index)`")).
Proof.
  split; [intros id w'; apply enqueueDiagram_success|].
  split; [intros e w1; apply enqueueDiagram_create_fails|].
  intros Hrq Hs. unfold enqueueDiagramRendering, mbind, Prog_bind.
  erewrite run_bind_inl; [reflexivity|]. rewrite run_call.
  unfold exec, next_sound in *.
  destruct (faults w) as [|[e|] rest]; [|contradiction|]; simpl; now rewrite Hrq.
Qed.

Lemma enqueueDiagramRendering_spec_witness :
  (run (enqueueDiagramRendering {| r_designRequestId := "req9"; r_mermaidSource := "graph TD" |})
     world0).1
  = inl (P2003 "`jobs_design_request_id_fkey (index)`").
Proof.
  exact (proj2 (proj2 (enqueueDiagramRendering_spec
                         {| r_designRequestId := "req9"; r_mermaidSource := "graph TD" |} world0))
           eq_refl I).
Defined.

(** X9: enqueueing is not atomic.  When the insert of the Job row
    succeeds and the push on the queue raises, both [enqueueDesignGeneration]
    and [enqueueDiagramRendering] raise that error and leave the PENDING row
    behind, with nothing on a queue and nothing in the cache. *)
Theorem enqueue_leaves_orphan_row (e : Exn) (rest : list (option Exn)) (w : World) :
  faults w = None :: Some e :: rest ->
  jobs w !! cuid (seed w) = None ->
  (forall d : DesignPayload,
     is_Some (design_requests w !! designRequestId d) ->
     let r := run (enqueueDesignGeneration d) w in
     r.1 = inl e /\
     jobs r.2 = <[cuid (seed w) :=
                   new_job GENERATE_DESIGN (designRequestId d) (DesignMeta d) w]> (jobs w) /\
     designQueue r.2 = designQueue w /\ diagramQueue r.2 = diagramQueue w /\
     cache r.2 = cache w) /\
  (forall d : DiagramPayload,
     is_Some (design_requests w !! r_designRequestId d) ->
     let r := run (enqueueDiagramRendering d) w in
     r.1 = inl e /\
     jobs r.2 = <[cuid (seed w) :=
                   new_job RENDER_DIAGRAM (r_designRequestId d) (DiagramMeta d) w]> (jobs w) /\
     designQueue r.2 = designQueue w /\ diagramQueue r.2 = diagramQueue w /\
     cache r.2 = cache w).
Proof.
  intros Hf Hfree. split; intros d Hrq.
  - now apply enqueueDesign_push_fails with rest.
  - now apply enqueueDiagram_push_fails with rest.
Qed.

Lemma enqueue_leaves_orphan_row_witness :
  let w := with_faults (fun _ => [None; Some (Error "Connection is closed.")]) world0 in
  let r := run (enqueueDesignGeneration payload1) w in
  r.1 = inl (Error "Connection is closed.") /\
  job_status <$> jobs r.2 !! "c0" = Some PENDING /\ designQueue r.2 = [].
Proof.
  intros w r.
  destruct (enqueue_leaves_orphan_row (Error "Connection is closed.") [] w eq_refl eq_refl)
    as [H _].
  destruct (H payload1 (ex_intro _ req1 eq_refl)) as (Hr & Hj & Hq & _).
  subst r. rewrite Hr, Hj, Hq. repeat split.
Defined.

(** ** The fallback design *)

Lemma mockDesign_reads (input input' : DesignInput) :
  mock_inputs input = mock_inputs input' -> mockDesign input = mockDesign input'.
Proof.
  unfold mock_inputs. intros [= Hl Hm Hs Hd].
  unfold mockDesign. now rewrite Hl, Hm, Hs, Hd.
Qed.

Lemma mockDesign_stores (input : DesignInput) :
  exists db, store_technologies (design (mockDesign input)) = [db; "Redis"] /\
             (db = "PostgreSQL" \/ db = "MySQL").
Proof.
  unfold mockDesign, store_technologies. cbn.
  destruct (find _ _) as [t|] eqn:Hfind.
  - exists t. split; [reflexivity|].
    apply find_some in Hfind. destruct Hfind as [_ Ht]. cbn in Ht.
    destruct (String.eqb_spec t "PostgreSQL") as [Hp|_]; [now left|].
    destruct (String.eqb_spec t "MySQL") as [Hq|_]; [now right|discriminate Ht].
  - exists "PostgreSQL". split; [reflexivity|now left].
Qed.

(** X10: the fallback design depends only on the preferred language, the
    [mustUse] list, the scale profile and the detail level: the prompt, the
    repository, the [avoid] list, the suggestions and a refinement do not
    change it.  Its data stores are always a relational database
    (PostgreSQL or MySQL) and Redis. *)
Theorem mockDesign_ignores_avoid (input input' : DesignInput) :
  mock_inputs input = mock_inputs input' ->
  mockDesign input = mockDesign input' /\
  exists db, store_technologies (design (mockDesign input)) = [db; "Redis"] /\
             (db = "PostgreSQL" \/ db = "MySQL").
Proof.
  intros H. split; [now apply mockDesign_reads|apply mockDesign_stores].
Qed.

Lemma mockDesign_ignores_avoid_witness :
  mockDesign
    {| i_inputType := PROMPT; i_promptText := Some "A chat app without Redis";
       i_repoUrl := None;
       i_constraints := {| mustUse := Some ["MySQL"]; avoid := Some ["Redis"; "AWS"];
                           preferredLanguage := None |};
       i_scaleProfile := PROTOTYPE; i_detailLevel := None; i_suggestions := None;
       i_refinementPrompt := None; i_existingDesign := None |}
  = mockDesign
      {| i_inputType := REPO_URL; i_promptText := None; i_repoUrl := Some "https://example.com";
         i_constraints := {| mustUse := Some ["MySQL"]; avoid := None;
                             preferredLanguage := Some "" |};
         i_scaleProfile := PROTOTYPE; i_detailLevel := Some STANDARD;
         i_suggestions := Some ["Add a cache"];
         i_refinementPrompt := None; i_existingDesign := None |}.
Proof.
  exact (proj1 (mockDesign_ignores_avoid _ _ eq_refl)).
Defined.

(** X11: when the provider call raises or its answer cannot be read,
    [refineDesign] of the generator returns the fallback design of a blank
    request at scale DAU_1K: neither the existing design nor the refinement
    prompt has any effect on it. *)
Theorem refineDesign_fallback (existingDesign : json) (refinementPrompt : string)
    (detailLevel : option DetailLevel) (w : World) :
  let blank :=
    {| i_inputType := PROMPT; i_promptText := None; i_repoUrl := None;
       i_constraints := {| mustUse := None; avoid := None; preferredLanguage := None |};
       i_scaleProfile := DAU_1K; i_detailLevel := detailLevel; i_suggestions := None;
       i_refinementPrompt := None; i_existingDesign := None |} in
  (forall e w1, exec OpenAIChat w = (inl e, w1) ->
     run (Generator.refineDesign existingDesign refinementPrompt detailLevel) w
     = (inr (mockDesign blank), w1)) /\
  (forall a e w1, exec OpenAIChat w = (inr a, w1) -> read_completion a = inl e ->
     run (Generator.refineDesign existingDesign refinementPrompt detailLevel) w
     = (inr (mockDesign blank), w1)).
Proof.
  intros blank. unfold Generator.refineDesign. split.
  - intros e w1 He. rewrite generateDesign_run, He.
    now rewrite (mockDesign_reads _ blank) by reflexivity.
  - intros a e w1 Ha He. rewrite generateDesign_run, Ha, He.
    now rewrite (mockDesign_reads _ blank) by reflexivity.
Qed.

Lemma refineDesign_fallback_witness :
  run (Generator.refineDesign (JObj [("components", JArr [JStr "mine"])]) "Use Kafka" None) world1
  = (inr (mockDesign
            {| i_inputType := PROMPT; i_promptText := None; i_repoUrl := None;
               i_constraints := {| mustUse := None; avoid := None; preferredLanguage := None |};
               i_scaleProfile := DAU_1K; i_detailLevel := None; i_suggestions := None;
               i_refinementPrompt := None; i_existingDesign := None |}),
     logged (Raised OpenAIChat (Error "Connection error.")) (with_faults (drop 1) world1)).
Proof.
  apply (proj1 (refineDesign_fallback (JObj [("components", JArr [JStr "mine"])]) "Use Kafka"
                  None world1) (Error "Connection error.")).
  reflexivity.
Defined.

(** ** Default styles *)

Lemma prefix_app (sub x y : string) :
  String.prefix sub x = true -> String.prefix sub (x ++ y) = true.
Proof.
  revert x. induction sub as [|c sub IH]; intros x H; [now destruct (x ++ y)|].
  destruct x as [|c' x]; [discriminate H|]. simpl in *.
  destruct (ascii_dec c c'); [now apply IH|discriminate H].
Qed.

Lemma includes_app_l (x y sub : string) : includes x sub = true -> includes (x ++ y) sub = true.
Proof.
  induction x as [|c x IH]; simpl.
  - rewrite orb_false_r. intros H. destruct sub; [|discriminate H].
    destruct y; reflexivity.
  - intros H. apply orb_true_iff in H. apply orb_true_iff. destruct H as [H|H].
    + left. now apply (prefix_app sub (String c x) y).
    + right. now apply IH.
Qed.

Lemma includes_app_r (x y sub : string) : includes y sub = true -> includes (x ++ y) sub = true.
Proof.
  intros H. induction x as [|c x IH]; [exact H|].
  simpl. rewrite IH. apply orb_true_r.
Qed.

Lemma style_of_prefix (node : string) : String.prefix "style " (style_of node) = true.
Proof.
  unfold style_of. repeat case_split; now apply (prefix_app "style " "style ").
Qed.

Lemma string_app_nil_r (s : string) : s ++ "" = s.
Proof.
  induction s as [|c s IH]; [reflexivity|].
  change (String c (s ++ "") = String c s). now rewrite IH.
Qed.

Lemma join_head (sep x : string) (r : list string) :
  exists tail, join sep (x :: r) = x ++ tail.
Proof.
  destruct r as [|y r]; simpl.
  - exists "". now rewrite string_app_nil_r.
  - now eexists.
Qed.

Lemma styles_include (sep : string) (nodes : list string) (a : string) :
  nodes <> [] -> includes (a ++ join sep (map style_of nodes)) "style " = true.
Proof.
  destruct nodes as [|n r]; [contradiction|]. intros _. cbn [map].
  destruct (join_head sep (style_of n) (map style_of r)) as [tail ->].
  apply includes_app_r, prefix_includes, prefix_app, style_of_prefix.
Qed.

Lemma addDefaultStyles_text (diagram : json) :
  addDefaultStyles diagram =
  match node_ids (to_text diagram) "" with
  | [] => diagram
  | nodes =>
      JStr (to_text diagram ++ LF ++ LF ++ "    " ++ join (LF ++ "    ") (map style_of nodes))
  end.
Proof.
  unfold addDefaultStyles. rewrite length_map.
  now destruct (node_ids (to_text diagram) "").
Qed.

(** X12: [addDefaultStyles] returns a diagram without nodes unchanged;
    for a diagram with at least one node it only appends text, and the
    result contains a [style] statement. *)
Theorem addDefaultStyles_appends (s : string) :
  (node_ids s "" = [] -> addDefaultStyles (JStr s) = JStr s) /\
  (node_ids s "" <> [] ->
   exists tail,
     addDefaultStyles (JStr s) = JStr (s ++ tail) /\
     includes (s ++ tail) "style " = true).
Proof.
  rewrite addDefaultStyles_text. cbn [to_text]. split.
  - now intros ->.
  - intros H. destruct (node_ids s "") as [|n r] eqn:Hn; [contradiction|].
    eexists. split; [reflexivity|].
    rewrite <- Hn in *. now apply includes_app_r, includes_app_r, includes_app_r, styles_include.
Qed.

Lemma addDefaultStyles_appends_witness :
  exists tail,
    addDefaultStyles (JStr "Web[Web App] --> DB[(Database)]") = JStr ("Web[Web App] --> DB[(Database)]" ++ tail) /\
    includes ("Web[Web App] --> DB[(Database)]" ++ tail) "style " = true.
Proof.
  apply (proj2 (addDefaultStyles_appends "Web[Web App] --> DB[(Database)]")).
  vm_compute. discriminate.
Defined.

(** A diagram read from the provider, when it is text, has style lines or no
    node to style. *)
Lemma read_completion_styled (a : Answer) (g : GeneratedDesign) (s : string) :
  read_completion a = inr g -> mermaidDiagram g = JStr s ->
  includes s "style " = true \/ node_ids s "" = [].
Proof.
  unfold read_completion, throw, mbind, Exn_bind, mret, Exn_ret.
  destruct (negb (truthy_str (content a))); [discriminate|].
  destruct (parsed a) as [e|p]; [discriminate|].
  destruct (member (Some p) "design") as [e|d]; [discriminate|].
  destruct (negb (truthy d)); [discriminate|].
  destruct (member (Some p) "mermaidDiagram") as [e|m]; [discriminate|].
  destruct (negb (truthy m)); [discriminate|].
  destruct (has_style m) as [e|styled] eqn:Hst; [discriminate|].
  destruct (member d "components") as [e|c]; [discriminate|].
  destruct (member c "length") as [e|cl]; [discriminate|].
  destruct (member d "dataStores") as [e|ds]; [discriminate|].
  destruct (member ds "length") as [e|sl]; [discriminate|].
  destruct (member d "apis") as [e|i]; [discriminate|].
  destruct (member i "length") as [e|il]; [discriminate|].
  destruct (member d "cloudProvider") as [e|?]; [discriminate|].
  destruct (member d "architectureStyle") as [e|?]; [discriminate|].
  intros [= <-]. cbn [mermaidDiagram].
  destruct m as [[| | |s0|l|]|]; try discriminate Hst; injection Hst as <-.
  - destruct (includes s0 "style ") eqn:Hinc; cbn [negb default from_option id].
    + intros [= <-]. now left.
    + rewrite addDefaultStyles_text. cbn [to_text].
      destruct (node_ids s0 "") as [|n r] eqn:Hn.
      * intros [= <-]. now right.
      * intros [= <-]. left.
        now apply includes_app_r, includes_app_r, includes_app_r, (styles_include _ (n :: r)).
  - destruct (existsb _ l); cbn [negb default from_option id]; [discriminate|].
    rewrite addDefaultStyles_text.
    destruct (node_ids (to_text (JArr l)) "") as [|n r] eqn:Hn; [discriminate|].
    intros [= <-]. left.
    now apply includes_app_r, includes_app_r, includes_app_r, (styles_include _ (n :: r)).
Qed.

Lemma mock_diagram_styled (input : DesignInput) :
  exists s, mermaidDiagram (mockDesign input) = JStr s /\ includes s "style " = true /\
            render_error (renderMermaidToSvg (JStr s)) = None.
Proof.
  exists (mock_diagram input). split; [apply mock_diagram_string|].
  unfold mock_diagram. destruct (default STANDARD (i_detailLevel input));
    split; vm_compute; reflexivity.
Qed.

(** X13: a design returned by [generateDesign] whose diagram is a text
    either contains a [style] statement or has no node that
    [addDefaultStyles] recognises; the diagram of the fallback design is a
    styled text that the renderer accepts. *)
Theorem generateDesign_diagram_styled (input : DesignInput) (w : World) (g : GeneratedDesign) :
  (run (generateDesign input) w).1 = inr g ->
  (forall s, mermaidDiagram g = JStr s -> includes s "style " = true \/ node_ids s "" = []) /\
  (g = mockDesign input ->
   exists s, mermaidDiagram g = JStr s /\ includes s "style " = true /\
             render_error (renderMermaidToSvg (JStr s)) = None).
Proof.
  rewrite generateDesign_run. intros H. split.
  - intros s Hs.
    assert (Hmock : mermaidDiagram (mockDesign input) = JStr s -> includes s "style " = true).
    { destruct (mock_diagram_styled input) as (s' & -> & Hinc & _). now intros [= <-]. }
    destruct (exec OpenAIChat w) as [[e|a] w1]; simpl in H.
    + injection H as <-. left. now apply Hmock.
    + destruct (read_completion a) as [e|g'] eqn:Ha; simpl in H; injection H as <-.
      * left. now apply Hmock.
      * now apply (read_completion_styled a g').
  - intros ->. apply mock_diagram_styled.
Qed.

Lemma generateDesign_diagram_styled_witness :
  exists s, mermaidDiagram (mockDesign (design_input payload1)) = JStr s /\
            includes s "style " = true /\
            render_error (renderMermaidToSvg (JStr s)) = None.
Proof.
  apply (proj2 (generateDesign_diagram_styled (design_input payload1) world1
                  (mockDesign (design_input payload1)) eq_refl) eq_refl).
Defined.

(** ** [refineDesign] of the router *)

(** What the lookup of [refineDesign] finds. *)
Lemma refine_lookup (ctx : Context) (rid : string) (w : World)
    (found : option (DesignRequestRow * option ProjectRow * option DesignVersionRow))
    (w1 : World) :
  exec (DesignRequestFindFirst rid (userId ctx)) w = (inr found, w1) ->
  w1 = logged (Did (DesignRequestFindFirst rid (userId ctx))) (with_faults (drop 1) w) /\
  found = match design_requests w !! rid with
          | Some r =>
              if String.eqb (rq_userId r) (userId ctx)
              then Some (r, projects w !! rq_projectId r,
                         latest dv_version (design_versions_of rid w))
              else None
          | None => None
          end.
Proof.
  intros E. apply exec_inr in E. destruct E as (w0 & P & ->). simpl in P.
  injection P as <- <-. split; reflexivity.
Qed.

(** X18: [refineDesign] of the router.  It returns only for a request of
    the caller, in a project that is not a template, with a latest version;
    then one PENDING GENERATE_DESIGN job was created and queued whose
    payload carries the refinement prompt, the design data of the latest
    version, the request's constraints and scale profile, and the detail
    level of the input or else of the request.  On a sound infrastructure the
    request of another user is NOT_FOUND and a request in a template project
    is FORBIDDEN, both after the lookup alone. *)
Theorem refineDesign_spec (ctx : Context) (input : RefineInput) (w : World) :
  (forall resp w',
     run (refineDesign ctx input) w = (inr resp, w') ->
     exists request project version d,
       design_requests w !! ri_designRequestId input = Some request /\
       rq_userId request = userId ctx /\
       projects w !! rq_projectId request = Some project /\ pj_isTemplate project = false /\
       latest dv_version (design_versions_of (ri_designRequestId input) w) = Some version /\
       rr_message resp = "Refinement job enqueued" /\
       designQueue w' = (designQueue w ++ [("generate", {| jobId := rr_jobId resp; data := d |})])%list /\
       designRequestId d = rq_id request /\
       refinementPrompt d = Some (ri_refinementPrompt input) /\
       existingDesign d = Some (dv_designData version) /\
       detailLevel d = Some (default (rq_detailLevel request) (ri_detailLevel input)) /\
       constraints d = rq_constraints request /\ scaleProfile d = rq_scaleProfile request /\
       (exists row, jobs w' !! rr_jobId resp = Some row /\ job_status row = PENDING /\
                    job_type row = GENERATE_DESIGN /\ job_metadata row = DesignMeta d)) /\
  (next_sound w ->
   (forall request, design_requests w !! ri_designRequestId input = Some request ->
                    rq_userId request <> userId ctx) ->
   run (refineDesign ctx input) w
   = (inl (TRPCError "NOT_FOUND" "Design request not found"),
      logged (Did (DesignRequestFindFirst (ri_designRequestId input) (userId ctx)))
        (with_faults (drop 1) w))) /\
  (next_sound w ->
   forall request project,
     design_requests w !! ri_designRequestId input = Some request ->
     rq_userId request = userId ctx ->
     projects w !! rq_projectId request = Some project -> pj_isTemplate project = true ->
     run (refineDesign ctx input) w
     = (inl (TRPCError "FORBIDDEN" "Cannot refine template designs"),
        logged (Did (DesignRequestFindFirst (ri_designRequestId input) (userId ctx)))
          (with_faults (drop 1) w))).
Proof.
  assert (Hfind : next_sound w ->
            exec (DesignRequestFindFirst (ri_designRequestId input) (userId ctx)) w
            = ((perform (DesignRequestFindFirst (ri_designRequestId input) (userId ctx))
                  (with_faults (drop 1) w)).1,
               logged (Did (DesignRequestFindFirst (ri_designRequestId input) (userId ctx)))
                 (with_faults (drop 1) w))).
  { unfold exec, next_sound. destruct (faults w) as [|[e|] rest]; [|contradiction|];
      reflexivity. }
  split; [|split].
  - intros resp w'. unfold refineDesign, mbind, Prog_bind, mret, Prog_ret. intros H.
    rewrite run_bind, run_call in H.
    destruct (exec (DesignRequestFindFirst (ri_designRequestId input) (userId ctx)) w)
      as [[e|found] w1] eqn:E; [discriminate H|].
    apply refine_lookup in E. destruct E as [-> ->].
    destruct (design_requests w !! ri_designRequestId input) as [request|] eqn:Hreq;
      [|discriminate H].
    destruct (String.eqb_spec (rq_userId request) (userId ctx)) as [Hu|_]; [|discriminate H].
    destruct (projects w !! rq_projectId request) as [project|] eqn:Hproj; [|discriminate H].
    cbn [lift bind] in H.
    destruct (pj_isTemplate project) eqn:Htpl; [discriminate H|].
    destruct (latest dv_version (design_versions_of (ri_designRequestId input) w))
      as [version|] eqn:Hver; [|discriminate H].
    rewrite run_bind in H.
    match type of H with
    | context [run (enqueueDesignGeneration ?d) ?w0] =>
        destruct (run (enqueueDesignGeneration d) w0) as [[e|id] w2] eqn:Hq;
          [discriminate H|];
        apply enqueue_success in Hq; exists request, project, version, d
    end.
    simpl in H. injection H as <- <-.
    destruct Hq as (_ & (row & Hjobs & _ & Htype & Hstatus & _ & _ & Hmeta) & Hqueue & _).
    simpl in Hqueue.
    repeat (split; [reflexivity || assumption|]).
    exists row. rewrite Hjobs, lookup_insert_eq. auto.
  - intros Hs Hother. unfold refineDesign, mbind, Prog_bind.
    rewrite run_bind, run_call, (Hfind Hs). simpl.
    destruct (design_requests w !! ri_designRequestId input) as [request|] eqn:Hreq;
      [|reflexivity].
    specialize (Hother request eq_refl).
    now destruct (String.eqb_spec (rq_userId request) (userId ctx)).
  - intros Hs request project Hreq Hu Hproj Htpl. unfold refineDesign, mbind, Prog_bind.
    rewrite run_bind, run_call, (Hfind Hs). simpl.
    rewrite Hreq, Hu, String.eqb_refl, Hproj. simpl. now rewrite Htpl.
Qed.

Lemma refineDesign_spec_witness :
  (exists version d,
     latest dv_version (design_versions_of "req1" world2) = Some version /\
     designQueue (run (refineDesign ctx1 refine_a) world2).2
     = (designQueue world2 ++ [("generate", {| jobId := "c3"; data := d |})])%list /\
     refinementPrompt d = Some "Add a cache" /\
     existingDesign d = Some (dv_designData version)) /\
  (run (refineDesign ctx_other refine_a) world2).1
  = inl (TRPCError "NOT_FOUND" "Design request not found") /\
  (run (refineDesign ctx1 refine_a) world0_template).1
  = inl (TRPCError "FORBIDDEN" "Cannot refine template designs").
Proof.
  split; [|split].
  - destruct (run (refineDesign ctx1 refine_a) world2) as [[e|resp] w'] eqn:Hrun;
      [vm_compute in Hrun; discriminate Hrun|].
    assert (Hid : rr_jobId resp = "c3").
    { apply (f_equal (fun r => match r.1 with inr x => rr_jobId x | inl _ => "" end)) in Hrun.
      vm_compute in Hrun. symmetry. exact Hrun. }
    destruct (proj1 (refineDesign_spec ctx1 refine_a world2) resp w' Hrun)
      as (request & project & version & d & _ & _ & _ & _ & Hv & _ & Hq & _ & Hp & He & _).
    exists version, d. rewrite <- Hid. auto.
  - assert (Hs : next_sound world2) by exact I.
    rewrite (proj1 (proj2 (refineDesign_spec ctx_other refine_a world2)) Hs); [reflexivity|].
    intros request Hreq. vm_compute in Hreq. injection Hreq as <-. discriminate.
  - assert (Hs : next_sound world0_template) by exact I.
    now rewrite (proj2 (proj2 (refineDesign_spec ctx1 refine_a world0_template)) Hs
                   req1 template1 eq_refl eq_refl eq_refl eq_refl).
Defined.

(** ** The rate limiter *)

Section Limiter.

Import RateLimit.

Lemma rate_key_inj (a b : string) : rate_key a = rate_key b -> a = b.
Proof. unfold rate_key. now intros [= H]. Qed.

Lemma due_drop (t : Z) (key : string) (st : Store) : due t key (drop_key key st) = false.
Proof. unfold due, drop_key. simpl. now rewrite lookup_delete_eq. Qed.

Lemma expired_again (t : Z) (key : string) (st : Store) :
  due t key (expired t key st) = false.
Proof.
  unfold expired. destruct (due t key st) eqn:Hd; [apply due_drop|exact Hd].
Qed.

Lemma expired_not_due (t : Z) (key : string) (st : Store) :
  due t key st = false -> expired t key st = st.
Proof. unfold expired. now intros ->. Qed.

Lemma zset_drop (key : string) (st : Store) : zset key (drop_key key st) = ∅.
Proof. unfold zset, drop_key. simpl. now rewrite lookup_delete_eq. Qed.

Lemma put_zset (key : string) (set : gmap string Z) (st : Store) :
  zset key (put key set st) = set.
Proof.
  unfold put. destruct (decide (set = ∅)) as [->|Hne]; [apply zset_drop|].
  unfold zset. simpl. now rewrite lookup_insert_eq.
Qed.

Lemma put_due (t : Z) (key : string) (set : gmap string Z) (st : Store) :
  due t key st = false -> due t key (put key set st) = false.
Proof.
  intros H. unfold put. destruct (decide (set = ∅)); [apply due_drop|exact H].
Qed.

Lemma put_deadline (key : string) (set : gmap string Z) (st : Store) :
  deadline (put key set st) !! key = if decide (set = ∅) then None else deadline st !! key.
Proof.
  unfold put. destruct (decide (set = ∅)); simpl; [apply lookup_delete_eq|reflexivity].
Qed.

(** The store after the pruning of a call. *)
Lemma pruned_store (userId : string) (windowMs now : Z) (st : Store) :
  let key := rate_key userId in
  let st1 := zremrangebyscore now key 0 (now - windowMs) st in
  zset key st1 = live userId windowMs now st /\
  due now key st1 = false /\
  (zsets st1 !! key = None <-> live userId windowMs now st = ∅).
Proof.
  intros key st1. subst st1. unfold zremrangebyscore, live. fold key.
  split; [apply put_zset|]. split; [apply put_due, expired_again|].
  unfold put. destruct (decide _) as [He|Hne]; simpl.
  - rewrite lookup_delete_eq. tauto.
  - rewrite lookup_insert_eq. split; [discriminate|contradiction].
Qed.


Lemma lowest_spec (l : list (string * Z)) :
  match lowest l with
  | Some x => x ∈ l /\ forall y, y ∈ l -> x.2 <= y.2
  | None => l = []
  end.
Proof.
  induction l as [|a l IH]; [reflexivity|]. cbn [lowest foldr].
  change (foldr _ None l) with (lowest l).
  destruct (lowest l) as [y|].
  - destruct IH as [Hin Hmin].
    destruct (lower a y) eqn:Hl.
    + split; [apply list_elem_of_here|]. intros z Hz.
      apply elem_of_cons in Hz. destruct Hz as [->|Hz]; [lia|].
      specialize (Hmin z Hz). unfold lower in Hl.
      apply orb_true_iff in Hl. destruct Hl as [Hl|Hl]; [lia|].
      apply andb_true_iff in Hl. lia.
    + split; [now apply list_elem_of_further|]. intros z Hz.
      apply elem_of_cons in Hz. destruct Hz as [->|Hz]; [|now apply Hmin].
      unfold lower in Hl. apply orb_false_iff in Hl. lia.
  - subst l. split; [apply list_elem_of_here|]. intros z Hz.
    apply list_elem_of_singleton in Hz. subst z. lia.
Qed.

(** What a call decides and leaves for the user. *)
Lemma check_summary (userId : string) (limit windowMs now : Z) (random : string) (st : Store) :
  let key := rate_key userId in
  let found := live userId windowMs now st in
  let count := Z.of_nat (size found) in
  let r := (checkRateLimit userId limit windowMs now random st).1 in
  let st' := (checkRateLimit userId limit windowMs now random st).2 in
  allowed r = negb (limit <=? count) /\
  (allowed r = false ->
     st' = zremrangebyscore now key 0 (now - windowMs) st /\
     remaining r = 0 /\ zset key st' = found /\
     resetAt r = match lowest (map_to_list found) with
                 | Some x => Some (x.2 + windowMs)
                 | None => Some (now + windowMs)
                 end) /\
  (allowed r = true ->
     remaining r = limit - count - 1 /\ resetAt r = Some (now + windowMs) /\
     (0 < windowMs ->
      zset key st' = <[member_of now random := now]> found /\
      deadline st' !! key = Some (now + ceil_div windowMs 1000 * 1000))).
Proof.
  intros key found count r st'. subst r st'. unfold checkRateLimit. fold key.
  destruct (pruned_store userId windowMs now st) as (Hset & Hdue & Hnone).
  fold key in Hset, Hdue, Hnone. fold found in Hset, Hnone.
  set (st1 := zremrangebyscore now key 0 (now - windowMs) st) in *.
  unfold zcard. rewrite (expired_not_due now key st1 Hdue), Hset. fold count.
  destruct (limit <=? count) eqn:Hc.
  - unfold zrange_first. rewrite (expired_not_due now key st1 Hdue), Hset.
    cbn [fst snd allowed remaining resetAt negb].
    split; [reflexivity|]. split; [|discriminate]. intros _.
    split; [reflexivity|]. split; [reflexivity|]. split; [exact Hset|].
    destruct (lowest (map_to_list found)) as [[m s]|]; [|reflexivity].
    cbn [length nth]. simpl (1 <? 2)%nat. cbn iota. now rewrite parseInt_toString.
  - cbn [fst snd allowed remaining resetAt negb].
    split; [reflexivity|]. split; [discriminate|]. intros _.
    split; [reflexivity|]. split; [reflexivity|]. intros HW.
    assert (Hceil : 0 < ceil_div windowMs 1000).
    { unfold ceil_div. assert (- windowMs / 1000 < 0); [|lia].
      apply Z.div_lt_upper_bound; lia. }
    unfold zadd, expire. rewrite (expired_not_due now key st1 Hdue), Hset.
    set (st2 := mkStore _ _).
    assert (Hdue2 : due now key st2 = false) by exact Hdue.
    rewrite (expired_not_due now key st2 Hdue2).
    subst st2. cbn [zsets deadline]. rewrite lookup_insert_eq.
    destruct (Z.leb_spec (ceil_div windowMs 1000) 0) as [Hle|_]; [lia|].
    unfold zset. cbn [zsets deadline]. rewrite !lookup_insert_eq. auto.
Qed.


Lemma zrem_deadline (key : string) (now a b d : Z) (st : Store) :
  deadline (zremrangebyscore now key a b st) !! key = Some d ->
  deadline st !! key = Some d /\ due now key st = false.
Proof.
  unfold zremrangebyscore. rewrite put_deadline.
  destruct (decide _); [discriminate|].
  unfold expired. destruct (due now key st) eqn:Hd.
  - unfold drop_key. simpl. now rewrite lookup_delete_eq.
  - auto.
Qed.

Lemma filter_length_le {A : Type} (P Q : A -> bool) (l : list A) :
  (forall x, P x = true -> Q x = true) ->
  (length (List.filter P l) <= length (List.filter Q l))%nat.
Proof.
  intros H. induction l as [|x l IH]; simpl; [lia|].
  destruct (P x) eqn:HP.
  - rewrite (H x HP). simpl. lia.
  - destruct (Q x); simpl; lia.
Qed.

Section Window.

Variables (userId : string) (limit windowMs : Z).
Hypothesis positive : 0 < windowMs.

Let key := rate_key userId.

(** The requests of the log that are in the window of a call at [now] are
    all counted by it. *)
Lemma remembered_counted (log : list (Z * string)) (t now : Z) (st : Store) :
  remembers userId windowMs log t st -> t <= now -> NoDup log.*2 ->
  (length (List.filter (fun x => (now - windowMs <? x.1)%Z) log)
   <= size (live userId windowMs now st))%nat /\
  forall n m, (n, m) ∈ log -> now - windowMs < n ->
              live userId windowMs now st !! m = Some n.
Proof.
  intros (Hle & Hin & Hdl) Ht Hnd.
  assert (Hlive : forall n m, (n, m) ∈ log -> now - windowMs < n ->
                              live userId windowMs now st !! m = Some n).
  { intros n m Hm Hn. unfold live.
    apply map_lookup_filter_Some. split; [|simpl; lia].
    unfold expired. destruct (due now (rate_key userId) st) eqn:Hdue.
    - exfalso. unfold due in Hdue.
      destruct (deadline st !! rate_key userId) as [d|] eqn:Hd; [|discriminate].
      apply Z.ltb_lt in Hdue. specialize (Hdl d eq_refl n m Hm). lia.
    - apply Hin; [exact Hm|lia]. }
  split; [|exact Hlive].
  set (inw := List.filter (fun x : Z * string => now - windowMs <? x.1) log).
  assert (Hsub : (list_to_map (prod_swap <$> inw) : gmap string Z)
                 ⊆ live userId windowMs now st).
  { apply map_subseteq_spec. intros m n Hmn.
    apply elem_of_list_to_map_2 in Hmn. apply list_elem_of_fmap in Hmn.
    destruct Hmn as ([n' m'] & [= -> ->] & Hx).
    apply list_elem_of_In, filter_In in Hx. destruct Hx as [Hx Hw].
    apply Hlive; [now apply list_elem_of_In|]. simpl in Hw. lia. }
  apply map_subseteq_size in Hsub.
  rewrite map_size_list_to_map in Hsub.
  - now rewrite length_fmap in Hsub.
  - rewrite <- list_fmap_compose.
    assert (Hsl : sublist inw log).
    { subst inw. clear. induction log as [|x l IH]; simpl; [constructor|].
      destruct (_ <? _); now constructor. }
    change (NoDup inw.*2).
    eapply sublist_NoDup; [exact Hnd|]. now apply fmap_sublist.
Qed.


Lemma ceil_covers (a : Z) : a <= ceil_div a 1000 * 1000.
Proof.
  unfold ceil_div. pose proof (Z.div_mod (- a) 1000 ltac:(lia)).
  pose proof (Z.mod_pos_bound (- a) 1000 ltac:(lia)). lia.
Qed.

(** One call keeps the memory of the store, and lets the request through only
    when fewer than [limit] remembered requests are in its window. *)
Lemma check_step (log : list (Z * string)) (t now : Z) (random : string) (st : Store) :
  remembers userId windowMs log t st -> t <= now -> NoDup log.*2 ->
  member_of now random ∉ log.*2 ->
  let r := (checkRateLimit userId limit windowMs now random st).1 in
  let st' := (checkRateLimit userId limit windowMs now random st).2 in
  remembers userId windowMs
    (if allowed r then (log ++ [(now, member_of now random)])%list else log) now st' /\
  (allowed r = true ->
   Z.of_nat (length (List.filter (fun x => now - windowMs <? x.1) log)) < limit).
Proof.
  intros Hrem Ht Hnd Hfresh r st'.
  destruct (remembered_counted log t now st Hrem Ht Hnd) as [Hcount Hlive].
  destruct Hrem as (Hle & Hin & Hdl).
  destruct (check_summary userId limit windowMs now random st) as (Hall & Hden & Hacc).
  fold r st' in Hall, Hden, Hacc.
  destruct (allowed r) eqn:Hr.
  - destruct (Hacc eq_refl) as (_ & _ & Hst). destruct (Hst positive) as [Hset Hdead].
    symmetry in Hall. apply negb_true_iff, Z.leb_gt in Hall.
    split; [|intros _; lia].
    split; [|split].
    + intros n m Hm. apply elem_of_app in Hm. destruct Hm as [Hm|Hm].
      * specialize (Hle n m Hm). lia.
      * apply list_elem_of_singleton in Hm. injection Hm as -> ->. lia.
    + intros n m Hm Hn. rewrite Hset. apply elem_of_app in Hm. destruct Hm as [Hm|Hm].
      * rewrite lookup_insert_ne; [now apply Hlive|].
        intros <-. apply Hfresh. apply list_elem_of_fmap. now exists (n, member_of now random).
      * apply list_elem_of_singleton in Hm. injection Hm as -> ->. apply lookup_insert_eq.
    + intros d Hd n m Hm. rewrite Hdead in Hd. injection Hd as <-.
      pose proof (ceil_covers windowMs).
      apply elem_of_app in Hm. destruct Hm as [Hm|Hm].
      * specialize (Hle n m Hm). lia.
      * apply list_elem_of_singleton in Hm. injection Hm as -> ->. lia.
  - destruct (Hden eq_refl) as (Hst & _ & Hset & _).
    split; [|discriminate].
    split; [|split].
    + intros n m Hm. specialize (Hle n m Hm). lia.
    + intros n m Hm Hn. rewrite Hset. now apply Hlive.
    + intros d Hd. rewrite Hst in Hd. apply zrem_deadline in Hd. now apply Hdl.
Qed.


Lemma window_extends (log : list (Z * string)) (now : Z) (member : string) :
  (forall n m, (n, m) ∈ log -> n <= now) ->
  (forall t, (length (in_window windowMs t log.*1) <= Z.to_nat limit)%nat) ->
  Z.of_nat (length (List.filter (fun x => now - windowMs <? x.1) log)) < limit ->
  forall t,
    (length (in_window windowMs t (log ++ [(now, member)])%list.*1) <= Z.to_nat limit)%nat.
Proof.
  intros Hle Hwin Hnow t. rewrite fmap_app. unfold in_window in *.
  rewrite List.filter_app, length_app. cbn [fmap list_fmap List.filter fst].
  destruct ((t - windowMs <? now) && (now <=? t)) eqn:Hin; simpl; [|specialize (Hwin t); lia].
  apply andb_true_iff in Hin. destruct Hin as [H1 H2].
  apply Z.ltb_lt in H1. apply Z.leb_le in H2.
  assert (Hlen : (length (List.filter (fun n => (t - windowMs <? n)%Z && (n <=? t)%Z) log.*1)
                  <= length (List.filter (fun x : Z * string => (now - windowMs <? x.1)%Z) log))%nat).
  { clear -H2. unfold fmap. induction log as [|[n m] l IH]; simpl; [lia|].
    destruct ((t - windowMs <? n) && (n <=? t)) eqn:Hn.
    - apply andb_true_iff in Hn. destruct Hn as [Hn _]. apply Z.ltb_lt in Hn.
      destruct (Z.ltb_spec (now - windowMs) n); simpl; lia.
    - destruct (now - windowMs <? n); simpl; lia. }
  lia.
Qed.

Lemma serve_window (requests : list (Z * string)) :
  forall (log : list (Z * string)) (st : Store) (t0 : Z),
    remembers userId windowMs log t0 st ->
    NoDup (log.*2 ++ map (fun r => member_of r.1 r.2) requests) ->
    ascending (t0 :: map fst requests) ->
    (forall t, (length (in_window windowMs t log.*1) <= Z.to_nat limit)%nat) ->
    forall t,
      (length (in_window windowMs t (log.*1 ++ (serve userId limit windowMs requests st).1))
       <= Z.to_nat limit)%nat.
Proof.
  induction requests as [|[now random] rest IH]; intros log st t0 Hrem Hnd Hasc Hwin t.
  - simpl. now rewrite app_nil_r.
  - cbn [map fst snd] in Hnd, Hasc. destruct Hasc as [Hfirst Hasc].
    apply Forall_cons in Hfirst. destruct Hfirst as [Ht0 _].
    apply NoDup_app in Hnd. destruct Hnd as (Hnd1 & Hdisj & Hnd2).
    apply NoDup_cons in Hnd2. destruct Hnd2 as [Hnew Hnd2].
    assert (Hfresh : member_of now random ∉ log.*2).
    { intros Hm. apply (Hdisj _ Hm). apply list_elem_of_here. }
    destruct (check_step log t0 now random st Hrem Ht0 Hnd1 Hfresh) as [Hrem' Hlt].
    cbn [serve].
    destruct (checkRateLimit userId limit windowMs now random st) as [r st1].
    cbn [fst snd] in Hrem', Hlt.
    destruct (serve userId limit windowMs rest st1) as [passed st2] eqn:Hserve.
    assert (Hpass : passed = (serve userId limit windowMs rest st1).1) by now rewrite Hserve.
    cbn [fst]. destruct (allowed r).
    + replace (log.*1 ++ now :: passed)%list
        with ((log ++ [(now, member_of now random)])%list.*1
              ++ (serve userId limit windowMs rest st1).1)%list
        by (rewrite fmap_app, <- app_assoc, Hpass; reflexivity).
      apply (IH (log ++ [(now, member_of now random)])%list st1 now Hrem').
      * rewrite fmap_app, <- app_assoc. cbn [fmap list_fmap snd app].
        apply NoDup_app. split; [exact Hnd1|].
        split; [|now apply NoDup_cons]. intros x Hx Hx'. now apply (Hdisj x Hx).
      * exact Hasc.
      * intros t'. destruct Hrem as (Hle & _ & _).
        assert (Hle' : forall n m, (n, m) ∈ log -> n <= now).
        { intros n m Hm. specialize (Hle n m Hm). lia. }
        exact (window_extends log now (member_of now random) Hle' Hwin (Hlt eq_refl) t').
    + rewrite Hpass. apply (IH log st1 now Hrem'); [|exact Hasc|exact Hwin].
      apply NoDup_app. split; [exact Hnd1|]. split; [|exact Hnd2].
      intros x Hx Hx'. apply (Hdisj x Hx). now apply list_elem_of_further.
Qed.

End Window.


(** A call touches the key of its user only. *)
Lemma check_frame (userId : string) (limit windowMs now : Z) (random : string) (st : Store)
    (k : string) :
  k <> rate_key userId ->
  let st' := (checkRateLimit userId limit windowMs now random st).2 in
  zsets st' !! k = zsets st !! k /\ deadline st' !! k = deadline st !! k.
Proof.
  intros Hk.
  assert (Hdrop : forall s, zsets (drop_key (rate_key userId) s) !! k = zsets s !! k /\
                            deadline (drop_key (rate_key userId) s) !! k = deadline s !! k).
  { intros s. unfold drop_key. simpl. now rewrite !lookup_delete_ne by congruence. }
  assert (Hexp : forall s, zsets (expired now (rate_key userId) s) !! k = zsets s !! k /\
                           deadline (expired now (rate_key userId) s) !! k = deadline s !! k).
  { intros s. unfold expired. destruct (due _ _ _); [apply Hdrop|tauto]. }
  assert (Hput : forall set s, zsets (put (rate_key userId) set s) !! k = zsets s !! k /\
                               deadline (put (rate_key userId) set s) !! k = deadline s !! k).
  { intros set s. unfold put. destruct (decide _); [apply Hdrop|].
    simpl. now rewrite lookup_insert_ne by congruence. }
  assert (Hrem : forall a b s,
             zsets (zremrangebyscore now (rate_key userId) a b s) !! k = zsets s !! k /\
             deadline (zremrangebyscore now (rate_key userId) a b s) !! k = deadline s !! k).
  { intros a b s. unfold zremrangebyscore.
    destruct (Hput (filter (fun ms => ~ (a <= ms.2 <= b))
                      (zset (rate_key userId) (expired now (rate_key userId) s)))
                (expired now (rate_key userId) s)) as [-> ->].
    apply Hexp. }
  assert (Hadd : forall sc m s,
             zsets (zadd now (rate_key userId) sc m s) !! k = zsets s !! k /\
             deadline (zadd now (rate_key userId) sc m s) !! k = deadline s !! k).
  { intros sc m s. unfold zadd. simpl. rewrite lookup_insert_ne by congruence. apply Hexp. }
  assert (Hxp : forall sec s,
             zsets (expire now (rate_key userId) sec s) !! k = zsets s !! k /\
             deadline (expire now (rate_key userId) sec s) !! k = deadline s !! k).
  { intros sec s. unfold expire.
    destruct (zsets (expired now (rate_key userId) s) !! rate_key userId); [|apply Hexp].
    destruct (sec <=? 0).
    - destruct (Hdrop (expired now (rate_key userId) s)) as [-> ->]. apply Hexp.
    - simpl. rewrite lookup_insert_ne by congruence. apply Hexp. }
  intros st'. subst st'. unfold checkRateLimit, zcard, zrange_first.
  destruct (limit <=? _); cbn [snd].
  - destruct (Hexp (expired now (rate_key userId)
                      (zremrangebyscore now (rate_key userId) 0 (now - windowMs) st)))
      as [-> ->].
    destruct (Hexp (zremrangebyscore now (rate_key userId) 0 (now - windowMs) st)) as [-> ->].
    apply Hrem.
  - match goal with
    | |- context [expire now _ ?sec (zadd now _ ?sc ?m ?s)] =>
        destruct (Hxp sec (zadd now (rate_key userId) sc m s)) as [-> ->];
        destruct (Hadd sc m s) as [-> ->]
    end.
    destruct (Hexp (zremrangebyscore now (rate_key userId) 0 (now - windowMs) st)) as [-> ->].
    apply Hrem.
Qed.

(** What a call answers depends on the key of its user only. *)
Lemma check_result (userId : string) (limit windowMs now : Z) (random : string)
    (st st0 : Store) :
  zsets st !! rate_key userId = zsets st0 !! rate_key userId ->
  deadline st !! rate_key userId = deadline st0 !! rate_key userId ->
  (checkRateLimit userId limit windowMs now random st).1
  = (checkRateLimit userId limit windowMs now random st0).1.
Proof.
  intros Hz Hd.
  assert (Hlive : live userId windowMs now st = live userId windowMs now st0).
  { unfold live, expired, due, zset. rewrite Hd.
    destruct (deadline st0 !! rate_key userId) as [d|]; [destruct (d <? now)|];
      unfold drop_key; simpl; rewrite ?lookup_delete_eq, ?Hz; reflexivity. }
  destruct (check_summary userId limit windowMs now random st) as (Ha & Hden & Hacc).
  destruct (check_summary userId limit windowMs now random st0) as (Ha0 & Hden0 & Hacc0).
  rewrite Hlive in Ha, Hden, Hacc.
  destruct (checkRateLimit userId limit windowMs now random st) as [[a r t] s1].
  destruct (checkRateLimit userId limit windowMs now random st0) as [[a0 r0 t0] s0].
  cbn [fst snd allowed remaining resetAt] in *.
  rewrite <- Ha0 in Ha. subst a0. destruct a.
  - destruct (Hacc eq_refl) as (-> & -> & _). now destruct (Hacc0 eq_refl) as (-> & -> & _).
  - destruct (Hden eq_refl) as (_ & -> & _ & ->).
    now destruct (Hden0 eq_refl) as (_ & -> & _ & ->).
Qed.


Lemma live_scores (userId : string) (windowMs now : Z) (st : Store) (m : string) (s : Z) :
  live userId windowMs now st !! m = Some s ->
  zset (rate_key userId) st !! m = Some s /\ ~ (0 <= s <= now - windowMs).
Proof.
  unfold live. intros H. apply map_lookup_filter_Some in H. destruct H as [H Hs].
  split; [|exact Hs]. unfold expired in H.
  destruct (due now (rate_key userId) st); [|exact H].
  now rewrite zset_drop in H.
Qed.

Lemma reset_bounds (userId : string) (limit windowMs now : Z) (random : string) (st : Store) :
  0 < windowMs ->
  (forall m s, zset (rate_key userId) st !! m = Some s -> 0 <= s <= now) ->
  exists t, resetAt (checkRateLimit userId limit windowMs now random st).1 = Some t /\
            now < t <= now + windowMs.
Proof.
  intros HW Hscores.
  destruct (check_summary userId limit windowMs now random st) as (_ & Hden & Hacc).
  destruct (allowed (checkRateLimit userId limit windowMs now random st).1).
  - destruct (Hacc eq_refl) as (_ & -> & _). eexists. split; [reflexivity|lia].
  - destruct (Hden eq_refl) as (_ & _ & _ & ->).
    pose proof (lowest_spec (map_to_list (live userId windowMs now st))) as Hlow.
    destruct (lowest _) as [[m s]|]; [|eexists; split; [reflexivity|lia]].
    destruct Hlow as [Hin _]. apply elem_of_map_to_list in Hin.
    apply live_scores in Hin. destruct Hin as [Hin Hs].
    specialize (Hscores m s Hin). eexists. split; [reflexivity|]. simpl. lia.
Qed.

(** X14: one call of [checkRateLimit].  It allows the request exactly
    when fewer than [limit] entries of the user are live (not expired, and
    with a score outside [0, now - windowMs]).  A refused call leaves exactly
    the live entries and reports no remaining request; an allowed call
    reports [limit - count - 1] remaining and a reset one window from now,
    adds one entry scored [now] and sets the key to expire after the window
    rounded up to seconds.  The keys of other users are untouched. *)
Theorem checkRateLimit_spec (userId : string) (limit windowMs now : Z) (random : string)
    (st : Store) :
  let key := rate_key userId in
  let found := live userId windowMs now st in
  let count := Z.of_nat (size found) in
  let r := (checkRateLimit userId limit windowMs now random st).1 in
  let st' := (checkRateLimit userId limit windowMs now random st).2 in
  (allowed r = true <-> count < limit) /\
  (allowed r = false -> remaining r = 0 /\ zset key st' = found) /\
  (allowed r = true ->
     remaining r = limit - count - 1 /\ 0 <= remaining r < limit /\
     resetAt r = Some (now + windowMs) /\
     (0 < windowMs ->
      zset key st' = <[member_of now random := now]> found /\
      deadline st' !! key = Some (now + ceil_div windowMs 1000 * 1000))) /\
  (forall k, k <> key -> zsets st' !! k = zsets st !! k /\ deadline st' !! k = deadline st !! k).
Proof.
  intros key found count r st'.
  destruct (check_summary userId limit windowMs now random st) as (Ha & Hden & Hacc).
  fold found count r st' in Ha, Hden, Hacc. fold key in Hden, Hacc.
  split; [|split; [|split]].
  - rewrite Ha, negb_true_iff, Z.leb_gt. tauto.
  - intros H. destruct (Hden H) as (_ & ? & ? & _). auto.
  - intros H. destruct (Hacc H) as (Hr & Ht & Hst).
    rewrite H in Ha. symmetry in Ha. apply negb_true_iff, Z.leb_gt in Ha.
    split; [exact Hr|]. split; [lia|]. split; [exact Ht|exact Hst].
  - intros k Hk. now apply check_frame.
Qed.

Lemma checkRateLimit_spec_witness :
  let r := (checkRateLimit "u" 2 1000 20 "0.5"
              (mkStore {[ rate_key "u" := {[ "3-0.1" := 3; "7-0.9" := 7 ]} ]} ∅)).1 in
  allowed r = false /\ remaining r = 0.
Proof.
  intros r.
  destruct (checkRateLimit_spec "u" 2 1000 20 "0.5"
              (mkStore {[ rate_key "u" := {[ "3-0.1" := 3; "7-0.9" := 7 ]} ]} ∅))
    as (Ha & Hden & _).
  fold r in Ha, Hden.
  assert (Hr : allowed r = false).
  { destruct (allowed r); [|reflexivity]. destruct Ha as [Ha _].
    specialize (Ha eq_refl). vm_compute in Ha. discriminate Ha. }
  split; [exact Hr|]. now destruct (Hden Hr).
Defined.

(** X15: of the requests of one user, made one after the other with a
    clock that never goes back and members that never repeat, at most [limit]
    are let through in any window of [windowMs] milliseconds, whatever the
    store held at first. *)
Theorem rate_limit_window (userId : string) (limit windowMs : Z) (requests : list (Z * string))
    (st : Store) (t : Z) :
  0 < windowMs ->
  ascending (map fst requests) ->
  NoDup (map (fun r => member_of r.1 r.2) requests) ->
  (length (in_window windowMs t (serve userId limit windowMs requests st).1)
   <= Z.to_nat limit)%nat.
Proof.
  intros HW Hasc Hnd.
  set (t0 := match requests with [] => 0 | (n, _) :: _ => n end).
  apply (serve_window userId limit windowMs HW requests [] st t0).
  - repeat split; intros; exfalso; eapply not_elem_of_nil; eassumption.
  - exact Hnd.
  - destruct requests as [|[n m] rest]; [now split|].
    cbn [map fst ascending] in *. split; [|exact Hasc].
    constructor; [subst t0; lia|]. destruct Hasc as [Hasc _]. exact Hasc.
  - intros t'. simpl. lia.
Qed.

Lemma rate_limit_window_witness :
  (serve "u" 2 1000 [(0, "0.1"); (1, "0.2"); (2, "0.3"); (1500, "0.4")] (mkStore ∅ ∅)).1
  = [0; 1; 1500] /\
  (length (in_window 1000%Z 2%Z
             (serve "u" 2%Z 1000%Z
                [(0%Z, "0.1"); (1%Z, "0.2"); (2%Z, "0.3"); (1500%Z, "0.4")]
                (mkStore ∅ ∅)).1) <= Z.to_nat 2%Z)%nat.
Proof.
  split; [vm_compute; reflexivity|].
  apply (rate_limit_window "u" 2 1000 [(0, "0.1"); (1, "0.2"); (2, "0.3"); (1500, "0.4")]).
  - reflexivity.
  - simpl. repeat split; repeat constructor; lia.
  - apply (bool_decide_unpack _). vm_compute. exact I.
Defined.

(** X16: the limiter keeps users apart: a call for one user changes
    neither the entries nor the expiry of another user, nor the result of
    that user's next call. *)
Theorem rate_limit_isolated (userId other : string) (limit limit' windowMs windowMs' : Z)
    (now now' : Z) (random random' : string) (st : Store) :
  userId <> other ->
  let st' := (checkRateLimit userId limit windowMs now random st).2 in
  zsets st' !! rate_key other = zsets st !! rate_key other /\
  deadline st' !! rate_key other = deadline st !! rate_key other /\
  (checkRateLimit other limit' windowMs' now' random' st').1
  = (checkRateLimit other limit' windowMs' now' random' st).1.
Proof.
  intros Hne st'.
  assert (Hk : rate_key other <> rate_key userId).
  { intros H. apply rate_key_inj in H. congruence. }
  destruct (check_frame userId limit windowMs now random st (rate_key other) Hk) as [Hz Hd].
  fold st' in Hz, Hd.
  split; [exact Hz|]. split; [exact Hd|]. now apply check_result.
Qed.

Lemma rate_limit_isolated_witness :
  (checkRateLimit "bob" 1 1000 5 "0.2" (checkRateLimit "alice" 1 1000 5 "0.1" (mkStore ∅ ∅)).2).1
  = (checkRateLimit "bob" 1 1000 5 "0.2" (mkStore ∅ ∅)).1.
Proof.
  apply (rate_limit_isolated "alice" "bob" 1 1 1000 1000 5 5 "0.1" "0.2" (mkStore ∅ ∅)).
  discriminate.
Defined.

(** X17: the rate-limit middleware.  Without a user id (absent or empty)
    it raises UNAUTHORIZED and does not touch the store; otherwise it leaves
    the store as [checkRateLimit user 10 60000] does, lets an allowed
    request through with the user id, and refuses another with
    TOO_MANY_REQUESTS, adding no entry; when the scores of the user's entries
    are past clock readings the message names a wait of at most 60 seconds,
    at least one when the clock has not moved. *)
Theorem enforceRateLimit_spec (userId : option string) (now : Z) (random : string) (now' : Z)
    (st : Store) :
  let out := enforceRateLimit userId now random now' st in
  (or_undefined userId = None ->
     out = (inl (TRPCError "UNAUTHORIZED" "You must be logged in to perform this action"), st)) /\
  (forall user, or_undefined userId = Some user ->
     let r := (checkRateLimit user 10 60000 now random st).1 in
     out.2 = (checkRateLimit user 10 60000 now random st).2 /\
     (allowed r = true -> out.1 = inr user) /\
     (allowed r = false ->
      zset (rate_key user) out.2 = live user 60000 now st /\
      ((forall m s, zset (rate_key user) st !! m = Some s -> 0 <= s <= now) ->
       now <= now' ->
       exists seconds,
         out.1 = inl (TRPCError "TOO_MANY_REQUESTS"
                        ("Rate limit exceeded. Try again in " ++ toString seconds ++ " seconds")) /\
         seconds <= 60 /\ (now' = now -> 1 <= seconds)))).
Proof.
  intros out. subst out. unfold enforceRateLimit. split.
  - now intros ->.
  - intros user ->. cbv zeta.
    destruct (check_summary user 10 60000 now random st) as (_ & Hden & _).
    pose proof (reset_bounds user 10 60000 now random st ltac:(lia)) as Hreset.
    cbv zeta in Hden.
    destruct (checkRateLimit user 10 60000 now random st) as [r0 st1]. cbn [fst snd] in *.
    destruct (allowed r0) eqn:Hr; cbn [negb fst snd].
    + split; [reflexivity|]. split; [reflexivity|discriminate].
    + split; [reflexivity|]. split; [discriminate|]. intros _.
      destruct (Hden eq_refl) as (_ & _ & Hset & _).
      split; [exact Hset|].
      intros Hscores Hnow. destruct (Hreset Hscores) as (t & -> & Ht).
        exists (ceil_div (t - now') 1000). split; [reflexivity|].
        unfold ceil_div. split.
        -- assert (-60 <= - (t - now') / 1000); [|lia].
           apply Z.div_le_lower_bound; lia.
        -- intros ->. assert (- (t - now) / 1000 < 0); [|lia].
           apply Z.div_lt_upper_bound; lia.
Qed.

Lemma enforceRateLimit_spec_witness :
  enforceRateLimit (Some "") 5 "0.1" 5 (mkStore ∅ ∅)
  = (inl (TRPCError "UNAUTHORIZED" "You must be logged in to perform this action"),
     mkStore ∅ ∅).
Proof.
  apply (proj1 (enforceRateLimit_spec (Some "") 5 "0.1" 5 (mkStore ∅ ∅))). reflexivity.
Defined.
End Limiter.
